(** * Stranger chat: matchmaking queue, room naming, ICE buffering and the
      connection manager

    A shallow embedding of the pairing route
    ([src/app/api/matchmaking/route.ts]), of the WebRTC hook (room name,
    initiator election, ICE candidate buffering) and of the
    [ConnectionManager] class, with the properties their specification
    states about them; and of the code around them: the lifecycle of the
    manager, the error handler ([src/lib/error-handler.ts]), the transport
    events, timers and teardown of the WebRTC hook, and the matchmaking hook
    of the browser ([src/hooks/useMatchmaking.ts]), alone and together with
    the route. *)

From Stdlib Require Import Bool Arith Lia String List QArith.
Import ListNotations.

Local Open Scope string_scope.
Local Open Scope list_scope.
Local Open Scope nat_scope.

(** ** Matchmaking queue *)

Module Matchmaking.

(** [ChatType] of [@/lib/supabase]: the union ['text' | 'video']. *)
Inductive ChatType : Set := text | video.

Definition ChatType_eqb (a b : ChatType) : bool :=
  match a, b with
  | text, text | video, video => true
  | _, _ => false
  end.

(** Timestamps are the ISO-8601 strings of [toISOString()] and of the
    database clock; they are compared chronologically, so a timestamp is
    modelled by its number of milliseconds. *)
Definition Timestamp := nat.

(** Modelled from the spec: the table [matchmaking_queue], whose DDL is not
    part of the sources.  The columns are those the route reads and writes
    ([id], [session_id], [chat_type], [matched_with], [matched_at],
    [created_at]), which are the attributes of the spec's QueueEntry plus the
    primary key [id]. *)
Record QueueEntry : Set := mkEntry {
  id : nat;
  session_id : string;
  chat_type : ChatType;
  matched_with : option string;
  matched_at : option Timestamp;
  created_at : Timestamp
}.

(** The table is the list of its rows, in physical order. *)
Definition Table := list QueueEntry.

(** *** The query builder

    The Supabase client is a library the route calls, not code of the
    repository; its calls are modelled by what the database does with them.
    Each awaited call of the route is one statement, executed atomically.
    Filters are conjunctive row predicates. *)

Definition Filter := QueueEntry -> bool.

Definition eq_session_id (s : string) : Filter :=
  fun r => (session_id r =? s)%string.
Definition neq_session_id (s : string) : Filter :=
  fun r => negb (session_id r =? s)%string.
Definition eq_chat_type (c : ChatType) : Filter :=
  fun r => ChatType_eqb (chat_type r) c.
Definition eq_id (i : nat) : Filter :=
  fun r => id r =? i.
Definition is_matched_with_null : Filter :=
  fun r => match matched_with r with None => true | Some _ => false end.

Definition matches (fs : list Filter) (r : QueueEntry) : bool :=
  forallb (fun f => f r) fs.

(** [.select('*')] under filters. *)
Definition select (fs : list Filter) (t : Table) : list QueueEntry :=
  filter (matches fs) t.

(** [.order('created_at', { ascending: true })]: a stable sort, so rows
    with the same timestamp keep their table order. *)
Fixpoint insert_created_at (r : QueueEntry) (l : list QueueEntry)
  : list QueueEntry :=
  match l with
  | [] => [r]
  | x :: l' =>
      if created_at r <=? created_at x then r :: x :: l'
      else x :: insert_created_at r l'
  end.

Fixpoint order_created_at (l : list QueueEntry) : list QueueEntry :=
  match l with
  | [] => []
  | r :: l' => insert_created_at r (order_created_at l')
  end.

(** [.limit(n)]. *)
Definition limit (n : nat) (l : list QueueEntry) : list QueueEntry :=
  firstn n l.

(** [.maybeSingle()]: [data] is the row when there is exactly one, and
    [null] when there is none (or, with an error, when there are several). *)
Definition maybeSingle (l : list QueueEntry) : option QueueEntry :=
  match l with
  | [r] => Some r
  | _ => None
  end.

(** The row written by the claim: [{ matched_with: sessionId, matched_at: now }]. *)
Definition set_match (s : string) (now : Timestamp) (r : QueueEntry)
  : QueueEntry :=
  mkEntry (id r) (session_id r) (chat_type r) (Some s) (Some now)
          (created_at r).

(** [.update({...}).eq('id', pid).is('matched_with', null)]: every row that
    passes both filters when the statement runs is rewritten, the others are
    left as they are. *)
Definition claim (pid : nat) (s : string) (now : Timestamp) (t : Table)
  : Table :=
  map (fun r => if matches [eq_id pid; is_matched_with_null] r
                then set_match s now r else r) t.

(** Number of rows the claim statement rewrites. *)
Definition rows_affected (pid : nat) (t : Table) : nat :=
  List.length (select [eq_id pid; is_matched_with_null] t).

(** Primary keys are generated by the database; a fresh one is above all
    the keys in use. *)
Definition fresh_id (t : Table) : nat :=
  S (fold_right Nat.max 0 (map id t)).

(** [.upsert({session_id, chat_type, matched_with, matched_at},
    { onConflict: 'session_id' })]: the row of that session is overwritten
    in the columns given (its [id] and [created_at] stay); without such a row
    one is inserted, with a generated [id] and [created_at] defaulting to the
    database clock. *)
Definition upsert (s : string) (c : ChatType) (mw : option string)
    (mat : option Timestamp) (db_now : Timestamp) (t : Table) : Table :=
  if existsb (eq_session_id s) t
  then map (fun r => if eq_session_id s r
                     then mkEntry (id r) s c mw mat (created_at r)
                     else r) t
  else t ++ [mkEntry (fresh_id t) s c mw mat db_now].

(** [.delete().eq('session_id', s)]. *)
Definition delete (s : string) (t : Table) : Table :=
  filter (neq_session_id s) t.

(** *** The route handlers *)

Inductive Status : Set := searching | idle.

(** JSON bodies of the responses. *)
Inductive Response : Set :=
| error_400
| matched_true (partnerId : string)
| matched_false (status : Status)
| success_true.

(** What a handler reads from its environment: the clock of line 40, the
    database clock used for [created_at], and whether the claim statement
    comes back with an [error] (a failure of the request itself; a statement
    that runs and matches no row comes back without one). *)
Record Env : Set := mkEnv {
  js_now : Timestamp;
  db_now : Timestamp;
  update_error : bool
}.

(** JavaScript truthiness of [entry?.matched_with]. *)
Definition truthy (o : option string) : bool :=
  match o with
  | Some s => negb (s =? "")%string
  | None => false
  end.

(** Lines 16-20. *)
Definition existingEntry (sessionId : string) (t : Table)
  : option QueueEntry :=
  maybeSingle (select [eq_session_id sessionId] t).

(** Lines 29-37. *)
Definition potentialMatch (sessionId : string) (chatType : ChatType)
    (t : Table) : option QueueEntry :=
  maybeSingle
    (limit 1
       (order_created_at
          (select [eq_chat_type chatType; is_matched_with_null;
                   neq_session_id sessionId] t))).

(** [entry?.matched_with] of lines 22 and 102, when truthy. *)
Definition matched_partner (entry : option QueueEntry) : option string :=
  match entry with
  | Some ex => if truthy (matched_with ex) then matched_with ex else None
  | None => None
  end.

(** Lines 52-59: the claimer's own row, recording the reciprocal pairing. *)
Definition upsert_matched (sessionId : string) (chatType : ChatType)
    (pm : QueueEntry) (e : Env) (t : Table) : Table :=
  upsert sessionId chatType (Some (session_id pm)) (Some (js_now e))
         (db_now e) t.

(** Lines 68-75: a waiting row for the caller. *)
Definition upsert_waiting (sessionId : string) (chatType : ChatType)
    (e : Env) (t : Table) : Table :=
  upsert sessionId chatType None None (db_now e) t.

(** [POST]: tryMatch, on a body that parsed.  [chatType] is one of two
    non-empty literals, so the guard of line 12 reduces to the test on
    [sessionId].  The selects and the upserts are taken to reach the
    database; the route does not look at their [error]. *)
Definition POST (sessionId : string) (chatType : ChatType) (e : Env)
    (t : Table) : Response * Table :=
  if (sessionId =? "")%string then (error_400, t)
  else
    match matched_partner (existingEntry sessionId t) with
    | Some p => (matched_true p, t)
    | None =>
        match potentialMatch sessionId chatType t with
        | Some pm =>
            if update_error e then
              (matched_false searching, upsert_waiting sessionId chatType e t)
            else
              let t1 := claim (id pm) sessionId (js_now e) t in
              (matched_true (session_id pm),
               upsert_matched sessionId chatType pm e t1)
        | None =>
            (matched_false searching, upsert_waiting sessionId chatType e t)
        end
    end.

(** [GET]: pollMatch.  A missing query parameter is [null], which the guard
    of line 92 treats like the empty string. *)
Definition GET (sessionId : string) (t : Table) : Response * Table :=
  if (sessionId =? "")%string then (error_400, t)
  else
    match matched_partner (existingEntry sessionId t) with
    | Some p => (matched_true p, t)
    | None =>
        (matched_false
           (match existingEntry sessionId t with
            | Some _ => searching
            | None => idle
            end), t)
    end.

(** [DELETE]: cancel. *)
Definition DELETE (sessionId : string) (t : Table) : Response * Table :=
  if (sessionId =? "")%string then (error_400, t)
  else (success_true, delete sessionId t).

(** *** The handler of [POST] between its awaits

    Every [await] of the handler is a point where another request may run.
    [Pc] is the handler's position with the locals it holds there; [step]
    executes the statement at that position. *)
Inductive Pc : Set :=
| at_select_existing
| at_select_candidate
| at_claim (pm : QueueEntry)
| at_upsert_matched (pm : QueueEntry)
| at_upsert_waiting
| done (r : Response).

Definition start (sessionId : string) : Pc :=
  if (sessionId =? "")%string then done error_400 else at_select_existing.

Definition step (sessionId : string) (chatType : ChatType) (e : Env)
    (pc : Pc) (t : Table) : Pc * Table :=
  match pc with
  | at_select_existing =>
      match matched_partner (existingEntry sessionId t) with
      | Some p => (done (matched_true p), t)
      | None => (at_select_candidate, t)
      end
  | at_select_candidate =>
      match potentialMatch sessionId chatType t with
      | Some pm => (at_claim pm, t)
      | None => (at_upsert_waiting, t)
      end
  | at_claim pm =>
      if update_error e then (at_upsert_waiting, t)
      else (at_upsert_matched pm, claim (id pm) sessionId (js_now e) t)
  | at_upsert_matched pm =>
      (done (matched_true (session_id pm)),
       upsert_matched sessionId chatType pm e t)
  | at_upsert_waiting =>
      (done (matched_false searching), upsert_waiting sessionId chatType e t)
  | done r => (done r, t)
  end.

Fixpoint steps (n : nat) (sessionId : string) (chatType : ChatType)
    (e : Env) (pc : Pc) (t : Table) : Pc * Table :=
  match n with
  | O => (pc, t)
  | S n' =>
      let '(pc', t') := step sessionId chatType e pc t in
      steps n' sessionId chatType e pc' t'
  end.

(** Two handlers [A] and [B] in flight against one table, advanced in the
    order a schedule gives. *)
Inductive Who : Set := A | B.

Record Call : Set := mkCall {
  call_sessionId : string;
  call_chatType : ChatType;
  call_env : Env
}.

Definition step_call (c : Call) : Pc -> Table -> Pc * Table :=
  step (call_sessionId c) (call_chatType c) (call_env c).

Fixpoint interleave (cA cB : Call) (sched : list Who)
    (pcA pcB : Pc) (t : Table) : Pc * Pc * Table :=
  match sched with
  | [] => (pcA, pcB, t)
  | A :: sched' =>
      let '(pcA', t') := step_call cA pcA t in
      interleave cA cB sched' pcA' pcB t'
  | B :: sched' =>
      let '(pcB', t') := step_call cB pcB t in
      interleave cA cB sched' pcA pcB' t'
  end.

(** [n] tryMatch calls in a row for one session, each with its own
    environment. *)
Fixpoint POST_seq (sessionId : string) (chatType : ChatType)
    (envs : list Env) (t : Table) : Table :=
  match envs with
  | [] => t
  | e :: envs' =>
      POST_seq sessionId chatType envs' (snd (POST sessionId chatType e t))
  end.

(** *** Invariants of the table *)

(** At most one row per session: the unique constraint that
    [onConflict: 'session_id'] relies on. *)
Definition unique_sessions (t : Table) : Prop :=
  NoDup (map session_id t).

(** [id] is the primary key. *)
Definition unique_ids (t : Table) : Prop :=
  NoDup (map id t).

Definition entries_of (s : string) (t : Table) : nat :=
  List.length (select [eq_session_id s] t).

Definition find_id (i : nat) (t : Table) : option QueueEntry :=
  find (eq_id i) t.

(** A waiter the session [s] asking for [c] may be paired with. *)
Definition eligible (s : string) (c : ChatType) (r : QueueEntry) : Prop :=
  chat_type r = c /\ matched_with r = None /\ session_id r <> s.

End Matchmaking.

(** ** Room name and initiator election ([useWebRTC]) *)

Module WebRTC.

(** Session ids are the ASCII strings of [generateUserId] and
    [generateSessionId]; on them the code-unit order of JavaScript's [<] and
    of the default [sort] comparator is the order of [String.compare]. *)
Definition lt (a b : string) : bool := String.ltb a b.

(** [Array.prototype.sort] without a comparator: a stable sort that puts
    [x] before [y] when [x < y]. *)
Fixpoint sort_insert (x : string) (l : list string) : list string :=
  match l with
  | [] => [x]
  | y :: l' => if lt y x then y :: sort_insert x l' else x :: y :: l'
  end.

Fixpoint sort (l : list string) : list string :=
  match l with
  | [] => []
  | x :: l' => sort_insert x (sort l')
  end.




(** Line 457: [isInitiatorRef.current = myId < partnerId]. *)
Definition isInitiator (myId partnerId : string) : bool :=
  lt myId partnerId.

End WebRTC.

(** ** ICE candidate buffering ([useWebRTC]) *)

Module Ice.

(** A candidate, by its candidate line; the payloads are taken to be
    well formed, so that [new RTCIceCandidate] does not throw. *)
Definition RTCIceCandidate := string.

(** The two places that call [addIceCandidate]: the handler of
    [ice-candidate] (line 548) and the loop of [addPendingCandidates]
    (line 409). *)
Inductive Site : Set := immediate | drained.

Record RTCPeerConnection : Set := mkPC {
  remoteDescription : bool;
  (** the calls of [addIceCandidate], oldest first *)
  added : list (Site * RTCIceCandidate)
}.

(** The refs of the hook, and the loops of [addPendingCandidates] that are
    suspended at their [await], each with the candidates it still has to
    add. *)
Record Hook : Set := mkHook {
  myId : string;
  pcRef : option RTCPeerConnection;
  pendingCandidatesRef : list RTCIceCandidate;
  draining : list (list RTCIceCandidate)
}.

Definition addIceCandidate (site : Site) (c : RTCIceCandidate)
    (pc : RTCPeerConnection) : RTCPeerConnection :=
  mkPC (remoteDescription pc) (added pc ++ [(site, c)]).

(** Lines 541-555: the handler of an [ice-candidate] envelope. *)
Definition on_ice_candidate (to : string) (candidate : RTCIceCandidate)
    (h : Hook) : Hook :=
  if negb (to =? myId h)%string then h
  else
    match pcRef h with
    | Some pc =>
        if remoteDescription pc then
          mkHook (myId h) (Some (addIceCandidate immediate candidate pc))
                 (pendingCandidatesRef h) (draining h)
        else
          mkHook (myId h) (pcRef h) (pendingCandidatesRef h ++ [candidate])
                 (draining h)
    | None =>
        mkHook (myId h) (pcRef h) (pendingCandidatesRef h ++ [candidate])
               (draining h)
    end.

(** [setRemoteDescription] has resolved (lines 512 and 534). *)
Definition setRemoteDescription (h : Hook) : Hook :=
  match pcRef h with
  | Some pc => mkHook (myId h) (Some (mkPC true (added pc)))
                      (pendingCandidatesRef h) (draining h)
  | None => h
  end.

(** Lines 401-414, up to the first [await]: the guard, the copy, the reset
    of the buffer and the first call of [addIceCandidate]. *)
Definition addPendingCandidates (h : Hook) : Hook :=
  match pcRef h with
  | Some pc =>
      if remoteDescription pc then
        match pendingCandidatesRef h with
        | [] => mkHook (myId h) (pcRef h) [] (draining h)
        | c :: candidates =>
            mkHook (myId h) (Some (addIceCandidate drained c pc)) []
                   (draining h ++ [candidates])
        end
      else h
  | None => h
  end.

(** The [i]-th suspended loop is resumed: it adds its next candidate, or
    ends when none is left. *)
Fixpoint resume_at (i : nat) (ds : list (list RTCIceCandidate)) {struct ds}
  : option RTCIceCandidate * list (list RTCIceCandidate) :=
  match ds with
  | [] => (None, [])
  | d :: ds' =>
      match i with
      | O =>
          match d with
          | [] => (None, ds')
          | c :: cs => (Some c, cs :: ds')
          end
      | S i' => let '(c, ds'') := resume_at i' ds' in (c, d :: ds'')
      end
  end.

Definition resume (i : nat) (h : Hook) : Hook :=
  let '(next, ds) := resume_at i (draining h) in
  match next, pcRef h with
  | Some c, Some pc =>
      mkHook (myId h) (Some (addIceCandidate drained c pc))
             (pendingCandidatesRef h) ds
  | _, _ => mkHook (myId h) (pcRef h) (pendingCandidatesRef h) ds
  end.

(** What can happen to the hook while one peer connection lives. *)
Inductive Event : Set :=
| ice_candidate (to : string) (candidate : RTCIceCandidate)
| remote_description_set
| drain_called
| drain_resumed (i : nat).

Definition handle (h : Hook) (ev : Event) : Hook :=
  match ev with
  | ice_candidate to c => on_ice_candidate to c h
  | remote_description_set => setRemoteDescription h
  | drain_called => addPendingCandidates h
  | drain_resumed i => resume i h
  end.

Definition run (h : Hook) (tr : list Event) : Hook :=
  fold_left handle tr h.

(** The hook after the setup of lines 453-480: a fresh connection, an
    empty buffer. *)
Definition init (me : string) : Hook :=
  mkHook me (Some (mkPC false [])) [] [].

Definition calls (h : Hook) : list (Site * RTCIceCandidate) :=
  match pcRef h with
  | Some pc => added pc
  | None => []
  end.

Definition calls_at (site : Site) (h : Hook) : list RTCIceCandidate :=
  map snd
    (filter (fun x => match fst x, site with
                      | immediate, immediate | drained, drained => true
                      | _, _ => false
                      end) (calls h)).

(** Candidates of a trace that are addressed to [me], in arrival order,
    split at the first [remote_description_set]. *)
Fixpoint arrivals_before (me : string) (tr : list Event)
  : list RTCIceCandidate :=
  match tr with
  | [] => []
  | ice_candidate to c :: tr' =>
      if (to =? me)%string then c :: arrivals_before me tr'
      else arrivals_before me tr'
  | remote_description_set :: _ => []
  | _ :: tr' => arrivals_before me tr'
  end.

Fixpoint arrivals (me : string) (tr : list Event) : list RTCIceCandidate :=
  match tr with
  | [] => []
  | ice_candidate to c :: tr' =>
      if (to =? me)%string then c :: arrivals me tr' else arrivals me tr'
  | _ :: tr' => arrivals me tr'
  end.

Fixpoint arrivals_after (me : string) (tr : list Event)
  : list RTCIceCandidate :=
  match tr with
  | [] => []
  | remote_description_set :: tr' => arrivals me tr'
  | _ :: tr' => arrivals_after me tr'
  end.

(** Has [addPendingCandidates] been called since the remote description
    was set? *)
Fixpoint drain_requested (seen_remote : bool) (tr : list Event) : bool :=
  match tr with
  | [] => false
  | remote_description_set :: tr' => drain_requested true tr'
  | drain_called :: tr' => seen_remote || drain_requested seen_remote tr'
  | _ :: tr' => drain_requested seen_remote tr'
  end.

(** [pcRef.current?.remoteDescription], as a boolean. *)
Definition has_remoteDescription (h : Hook) : bool :=
  match pcRef h with
  | Some pc => remoteDescription pc
  | None => false
  end.

(** The candidate an event delivers to [me], if any. *)
Definition addressed (me : string) (ev : Event) : list RTCIceCandidate :=
  match ev with
  | ice_candidate to c => if (to =? me)%string then [c] else []
  | _ => []
  end.

(** The candidates that went through the buffer: those already added by
    the draining loop, those the loop still holds, and those still in the
    buffer. *)
Definition buffered (h : Hook) : list RTCIceCandidate :=
  calls_at drained h ++ concat (draining h) ++ pendingCandidatesRef h.

(** What holds of the hook while one peer connection lives: the connection
    exists; before its remote description is set nothing was added and no
    loop runs; at most one loop runs, and only once the buffer is empty. *)
Definition one_connection (h : Hook) : Prop :=
  pcRef h <> None /\
  (has_remoteDescription h = false -> draining h = [] /\ calls h = []) /\
  (pendingCandidatesRef h = [] \/ draining h = []) /\
  List.length (draining h) <= 1.

End Ice.

(** ** Connection manager: observable state and bounded retry *)

Module ConnectionManager.

Inductive ConnectionState : Set :=
| idle | connecting | connected | reconnecting | disconnected | failed.

Definition ConnectionState_eqb (a b : ConnectionState) : bool :=
  match a, b with
  | idle, idle | connecting, connecting | connected, connected
  | reconnecting, reconnecting | disconnected, disconnected
  | failed, failed => true
  | _, _ => false
  end.

(** The numbers of the configuration are JavaScript doubles; delays are
    modelled by exact rationals (for the default delay and multiplier the
    first delays are integers, exact in binary64 as well). *)
Record ConnectionConfig : Set := mkConfig {
  maxRetries : nat;
  retryDelay : Q;
  retryBackoffMultiplier : Q;
  connectionTimeout : Q;
  heartbeatInterval : Q
}.

Definition DEFAULT_CONFIG : ConnectionConfig :=
  mkConfig 5 1000 (3 # 2) 30000 25000.

(** An [Error], by its message. *)
Definition Error := string.

(** A subscribed callback: its identity as a function object, and what a
    call of it does with the state it is given, return ([None]) or throw
    ([Some e]). *)
Record Listener : Set := mkListener {
  listener_id : nat;
  listener_call : ConnectionState -> option Error
}.

(** The fields of the class; [listeners] is the [Set] in insertion order,
    which is the order [forEach] visits it in. *)
Record Manager : Set := mkManager {
  state : ConnectionState;
  retryCount : nat;
  config : ConnectionConfig;
  listeners : list Listener
}.

(** What the manager does to the outside, in order. *)
Inductive Event : Set :=
| notified (listener : nat) (s : ConnectionState)
| operation_called (n : nat)
| onRetry_called (attempt : nat)
| waited (delay : Q).

(** [constructor], for an override that gives every field; the default
    is [new DEFAULT_CONFIG]. *)
Definition new (c : ConnectionConfig) : Manager :=
  mkManager idle 0 c [].

Definition getState (m : Manager) : ConnectionState := state m.

(** [Set.prototype.add]: a function already in the set is not added
    again. *)
Definition subscribe (l : Listener) (m : Manager) : Manager :=
  if existsb (fun x => listener_id x =? listener_id l) (listeners m)
  then m
  else mkManager (state m) (retryCount m) (config m) (listeners m ++ [l]).

(** The function [subscribe] returns: [Set.prototype.delete]. *)
Definition unsubscribe (l : Listener) (m : Manager) : Manager :=
  mkManager (state m) (retryCount m) (config m)
    (filter (fun x => negb (listener_id x =? listener_id l)) (listeners m)).

(** [this.listeners.forEach(listener => listener(this.state))]: the
    callbacks are called in order; one that throws ends the loop, and its
    exception is what [forEach] throws. *)
Fixpoint forEach (ls : list Listener) (s : ConnectionState)
  : list Event * option Error :=
  match ls with
  | [] => ([], None)
  | l :: ls' =>
      match listener_call l s with
      | Some e => ([notified (listener_id l) s], Some e)
      | None =>
          let '(evs, x) := forEach ls' s in
          (notified (listener_id l) s :: evs, x)
      end
  end.

Definition notifyListeners (m : Manager) : list Event * option Error :=
  forEach (listeners m) (state m).

(** [setState]: the manager after the call, the notifications made, and
    the exception thrown if any. *)
Definition setState (s : ConnectionState) (m : Manager)
  : Manager * list Event * option Error :=
  if negb (ConnectionState_eqb (state m) s) then
    let m' := mkManager s (retryCount m) (config m) (listeners m) in
    let '(evs, x) := notifyListeners m' in (m', evs, x)
  else (m, [], None).

(** How the [n]-th call of [operation] ends when raced against the
    timeout: it resolves, it rejects, or it is still pending when the timer
    fires. *)
Inductive Outcome (T : Type) : Type :=
| resolves (v : T)
| rejects (e : Error)
| stays_pending.
Arguments resolves {T} v.
Arguments rejects {T} e.
Arguments stays_pending {T}.

Inductive Result (T : Type) : Type :=
| returned (v : T)
| thrown (e : option Error).
Arguments returned {T} v.
Arguments thrown {T} e.

Definition set_retryCount (n : nat) (m : Manager) : Manager :=
  mkManager (state m) n (config m) (listeners m).

(** Line 75. *)
Definition delay (m : Manager) : Q :=
  (retryDelay (config m) *
   retryBackoffMultiplier (config m) ^ (Z.of_nat (retryCount m - 1)))%Q.

Section Retry.
Context {T : Type}.
(** [operation] by the number of calls made before, and whether an
    [onRetry] callback was passed. *)
Variable operation : nat -> Outcome T.
Variable onRetry : bool.

(** The body of the [try] block, lines 59-68: its events, and either the
    value returned or the exception caught. *)
Definition attempt (ncalls : nat) (m : Manager)
  : Manager * list Event * (T + Error) * nat :=
  let '(m1, ev1, x1) :=
    setState (if retryCount m =? 0 then connecting else reconnecting) m in
  match x1 with
  | Some e => (m1, ev1, inr e, ncalls)
  | None =>
      let ev2 := ev1 ++ [operation_called ncalls] in
      match operation ncalls with
      | resolves v =>
          let '(m2, ev3, x3) := setState connected m1 in
          match x3 with
          | Some e => (m2, ev2 ++ ev3, inr e, S ncalls)
          | None => (set_retryCount 0 m2, ev2 ++ ev3, inl v, S ncalls)
          end
      | rejects e => (m1, ev2, inr e, S ncalls)
      | stays_pending => (m1, ev2, inr "Connection timeout", S ncalls)
      end
  end.

(** The [catch] block, lines 70-79. *)
Definition caught (m : Manager) : Manager * list Event :=
  let m' := set_retryCount (S (retryCount m)) m in
  if retryCount m' <? maxRetries (config m') then
    (m', (if onRetry then [onRetry_called (retryCount m')] else [])
          ++ [waited (delay m')])
  else (m', []).

(** The [while] loop of lines 57-81 followed by lines 83-84.  Every
    iteration that does not return increments [retryCount], so [fuel]
    bounds the iterations; [None] is a loop that ran out of it. *)
Fixpoint retry_loop (fuel : nat) (ncalls : nat) (lastError : option Error)
    (m : Manager) : option (Manager * list Event * Result T) :=
  if retryCount m <? maxRetries (config m) then
    match fuel with
    | O => None
    | S fuel' =>
        let '(m1, ev1, r, ncalls') := attempt ncalls m in
        match r with
        | inl v => Some (m1, ev1, returned v)
        | inr e =>
            let '(m2, ev2) := caught m1 in
            match retry_loop fuel' ncalls' (Some e) m2 with
            | Some (m3, ev3, res) => Some (m3, ev1 ++ ev2 ++ ev3, res)
            | None => None
            end
        end
    end
  else
    let '(m1, ev1, x1) := setState failed m in
    match x1 with
    | Some e => Some (m1, ev1, thrown (Some e))
    | None => Some (m1, ev1, thrown lastError)
    end.

Definition retry (m : Manager)
  : option (Manager * list Event * Result T) :=
  retry_loop (maxRetries (config m)) 0 None (set_retryCount 0 m).
End Retry.

Definition waits (evs : list Event) : list Q :=
  flat_map (fun ev => match ev with waited d => [d] | _ => [] end) evs.

Definition notifications (evs : list Event)
  : list (nat * ConnectionState) :=
  flat_map (fun ev => match ev with notified i s => [(i, s)] | _ => [] end)
           evs.

(** How many times the listener [i] was called in [evs]. *)
Definition deliveries (i : nat) (evs : list Event) : nat :=
  List.length (filter (fun x => fst x =? i) (notifications evs)).

(** The message an outcome fails with. *)
Definition failure {T : Type} (o : Outcome T) : option Error :=
  match o with
  | resolves _ => None
  | rejects e => Some e
  | stays_pending => Some "Connection timeout"
  end.

(** The set of listeners holds a function at most once. *)
Definition distinct_listeners (m : Manager) : Prop :=
  NoDup (map listener_id (listeners m)).

Definition never_throws (l : Listener) : Prop :=
  forall s, listener_call l s = None.

(** No subscribed listener throws. *)
Definition quiet (m : Manager) : Prop :=
  forall l, In l (listeners m) -> never_throws l.

(** The spec's [initialDelay * backoffMultiplier^(k-1)], the wait after
    the [k]-th failed attempt. *)
Definition backoff (c : ConnectionConfig) (k : nat) : Q :=
  (retryDelay c * retryBackoffMultiplier c ^ (Z.of_nat (k - 1)))%Q.

(** The notification of [s] to a listener. *)
Definition notification (s : ConnectionState) (l : Listener) : Event :=
  notified (listener_id l) s.

End ConnectionManager.

(** ** Further invariants of the queue *)

Module QueueInvariants.
Import Matchmaking.

(** No entry names its own session as its partner. *)
Definition no_self_match (t : Table) : Prop :=
  forall r, In r t -> matched_with r <> Some (session_id r).

End QueueInvariants.

(** ** The connection manager: timers, [reset] and [cleanup] *)

Module ManagerLifecycle.
Import ConnectionManager.

(** The two timer fields of the class.  A handle is what [setTimeout] and
    [setInterval] return, a timer object or a positive id: always truthy. *)
Record Handles : Set := mkHandles {
  retryTimeoutId : option nat;
  heartbeatId : option nat
}.

(** An instance: the fields of [ConnectionManager.Manager] and the timer
    fields. *)
Record Instance : Set := mkInstance {
  manager : Manager;
  handles : Handles
}.

(** Calls of the timer functions of the runtime. *)
Inductive TimerCall : Set :=
| setInterval (handle : nat)
| clearInterval (handle : nat)
| clearTimeout (handle : nat).

(** Lines 99-104. *)
Definition stopHeartbeat (i : Instance) : Instance * list TimerCall :=
  match heartbeatId (handles i) with
  | Some h =>
      (mkInstance (manager i)
                  (mkHandles (retryTimeoutId (handles i)) None),
       [clearInterval h])
  | None => (i, [])
  end.

(** Lines 87-97: the running heartbeat is stopped, then an interval is
    set; [h] is the handle the runtime returns for it. *)
Definition startHeartbeat (h : nat) (i : Instance)
  : Instance * list TimerCall :=
  let '(i1, calls) := stopHeartbeat i in
  (mkInstance (manager i1)
              (mkHandles (retryTimeoutId (handles i1)) (Some h)),
   calls ++ [setInterval h]).

(** One run of the interval callback, lines 89-96: [ok] tells whether
    [heartbeatFn] resolved. *)
Definition heartbeat_tick (ok : bool) (i : Instance)
  : Instance * list Event * option Error :=
  if ok then (i, [], None)
  else
    let '(m, evs, x) := setState reconnecting (manager i) in
    (mkInstance m (handles i), evs, x).

(** Lines 106-114. *)
Definition reset (i : Instance)
  : Instance * list TimerCall * list Event * option Error :=
  let '(i1, calls1) := stopHeartbeat i in
  let '(hs, calls2) :=
    match retryTimeoutId (handles i1) with
    | Some h => (mkHandles None (heartbeatId (handles i1)), [clearTimeout h])
    | None => (handles i1, [])
    end in
  let m := set_retryCount 0 (manager i1) in
  let '(m', evs, x) := setState idle m in
  (mkInstance m' hs, calls1 ++ calls2, evs, x).

(** Lines 116-119: [listeners.clear()] runs when [reset] returns; an
    exception of [reset] leaves [cleanup] before it. *)
Definition cleanup (i : Instance)
  : Instance * list TimerCall * list Event * option Error :=
  let '(i1, calls, evs, x) := reset i in
  match x with
  | Some e => (i1, calls, evs, Some e)
  | None =>
      (mkInstance (mkManager (state (manager i1)) (retryCount (manager i1))
                             (config (manager i1)) [])
                  (handles i1),
       calls, evs, None)
  end.

(** What a client does with the heartbeat and the life cycle, with the
    handle the runtime gives to each interval. *)
Inductive Op : Set :=
| op_startHeartbeat (h : nat)
| op_stopHeartbeat
| op_reset
| op_cleanup.

Definition apply_op (o : Op) (i : Instance) : Instance * list TimerCall :=
  match o with
  | op_startHeartbeat h => startHeartbeat h i
  | op_stopHeartbeat => stopHeartbeat i
  | op_reset => let '(i', calls, _, _) := reset i in (i', calls)
  | op_cleanup => let '(i', calls, _, _) := cleanup i in (i', calls)
  end.

Fixpoint apply_ops (os : list Op) (i : Instance)
  : Instance * list TimerCall :=
  match os with
  | [] => (i, [])
  | o :: os' =>
      let '(i1, calls1) := apply_op o i in
      let '(i2, calls2) := apply_ops os' i1 in
      (i2, calls1 ++ calls2)
  end.

(** The intervals that were set and not cleared since, oldest first. *)
Fixpoint live_intervals (calls : list TimerCall) (live : list nat)
  : list nat :=
  match calls with
  | [] => live
  | setInterval h :: calls' => live_intervals calls' (live ++ [h])
  | clearInterval h :: calls' =>
      live_intervals calls' (filter (fun x => negb (x =? h)) live)
  | clearTimeout _ :: calls' => live_intervals calls' live
  end.

(** The interval [heartbeatId] holds, as a list. *)
Definition held_interval (i : Instance) : list nat :=
  match heartbeatId (handles i) with
  | Some h => [h]
  | None => []
  end.

(** A new instance. *)
Definition new (c : ConnectionConfig) : Instance :=
  mkInstance (ConnectionManager.new c) (mkHandles None None).

End ManagerLifecycle.

(** ** Counting what [retry] does *)

Module RetryTrace.
Import ConnectionManager.

(** The calls of [operation], by their number. *)
Definition operation_calls (evs : list Event) : list nat :=
  flat_map (fun ev => match ev with operation_called n => [n] | _ => [] end)
           evs.

(** The arguments [onRetry] was called with. *)
Definition onRetry_calls (evs : list Event) : list nat :=
  flat_map (fun ev => match ev with onRetry_called n => [n] | _ => [] end)
           evs.

(** The states the listener [i] was notified of, in order. *)
Definition states_seen (i : nat) (evs : list Event)
  : list ConnectionState :=
  map snd (filter (fun x => fst x =? i) (notifications evs)).

(** The states a listener is told of during a [retry] that starts from
    [idle], with [n] failures before the outcome. *)
Definition phases (maxRetries n : nat) : list ConnectionState :=
  (if 1 <=? maxRetries then [connecting] else []) ++
  (if (1 <=? n) && (2 <=? maxRetries) then [reconnecting] else []) ++
  [if n <? maxRetries then connected else failed].

(** The state [retry] finds the manager in when it enters the loop with
    [retryCount = k], having started from [idle]. *)
Definition entry_state (k : nat) : ConnectionState :=
  match k with
  | 0 => idle
  | 1 => connecting
  | _ => reconnecting
  end.

(** The states a listener is still to be told of at that point. *)
Definition phases_from (k maxRetries n : nat) : list ConnectionState :=
  (if (k =? 0) && (1 <=? maxRetries) then [connecting] else []) ++
  (if (k <=? 1) && (1 <=? n) && (2 <=? maxRetries)
   then [reconnecting] else []) ++
  [if n <? maxRetries then connected else failed].

End RetryTrace.

(** ** The error taxonomy ([lib/error-handler.ts]) *)

Module ErrorHandler.

Inductive ErrorCode : Set :=
| NETWORK_ERROR
| CONNECTION_TIMEOUT
| MATCHMAKING_FAILED
| PARTNER_DISCONNECTED
| MEDIA_ACCESS_DENIED
| MEDIA_NOT_SUPPORTED
| WEBRTC_FAILED
| SESSION_EXPIRED
| RATE_LIMITED
| SERVER_ERROR
| UNKNOWN_ERROR.

Record AppError : Set := mkAppError {
  code : ErrorCode;
  message : string;
  userMessage : string;
  recoverable : bool;
  action : option string
}.

(** An entry of [ERROR_MAP]: an [AppError] without its code. *)
Record ErrorInfo : Set := mkInfo {
  info_message : string;
  info_userMessage : string;
  info_recoverable : bool;
  info_action : option string
}.

Definition ERROR_MAP (c : ErrorCode) : ErrorInfo :=
  match c with
  | NETWORK_ERROR =>
      mkInfo "Network connection failed"
             "Unable to connect. Please check your internet connection."
             true (Some "Retry")
  | CONNECTION_TIMEOUT =>
      mkInfo "Connection timed out"
             "Connection took too long. Trying again..."
             true (Some "Retry")
  | MATCHMAKING_FAILED =>
      mkInfo "Matchmaking service unavailable"
             "Unable to find a match right now. Please try again."
             true (Some "Try Again")
  | PARTNER_DISCONNECTED =>
      mkInfo "Partner disconnected"
             "Your chat partner has disconnected."
             true (Some "Find New")
  | MEDIA_ACCESS_DENIED =>
      mkInfo "Camera/microphone access denied"
             "Please allow camera and microphone access to use video chat."
             false (Some "Enable Permissions")
  | MEDIA_NOT_SUPPORTED =>
      mkInfo "Media devices not supported"
             "Your browser doesn't support video chat. Try using Chrome or Firefox."
             false None
  | WEBRTC_FAILED =>
      mkInfo "WebRTC connection failed"
             "Video connection failed. Attempting to reconnect..."
             true (Some "Reconnect")
  | SESSION_EXPIRED =>
      mkInfo "Session expired"
             "Your session has expired. Refreshing..."
             true (Some "Refresh")
  | RATE_LIMITED =>
      mkInfo "Too many requests"
             "Please slow down and try again in a moment."
             true (Some "Wait")
  | SERVER_ERROR =>
      mkInfo "Server error"
             "Something went wrong on our end. Please try again."
             true (Some "Retry")
  | UNKNOWN_ERROR =>
      mkInfo "Unknown error occurred"
             "An unexpected error occurred. Please try again."
             true (Some "Retry")
  end.

(** Lines 92-99.  [details] is optional, and the empty string is falsy. *)
Definition createError (c : ErrorCode) (details : option string)
  : AppError :=
  let errorInfo := ERROR_MAP c in
  mkAppError c
    (match details with
     | Some d =>
         if (d =? "")%string then info_message errorInfo
         else info_message errorInfo ++ ": " ++ d
     | None => info_message errorInfo
     end)
    (info_userMessage errorInfo) (info_recoverable errorInfo)
    (info_action errorInfo).

(** [String.prototype.toLowerCase], on the ASCII text of the messages. *)
Definition lower (a : Ascii.ascii) : Ascii.ascii :=
  let n := Ascii.nat_of_ascii a in
  if (65 <=? n) && (n <=? 90) then Ascii.ascii_of_nat (n + 32) else a.

Fixpoint toLowerCase (s : string) : string :=
  match s with
  | EmptyString => EmptyString
  | String a s' => String (lower a) (toLowerCase s')
  end.

(** [String.prototype.includes]. *)
Fixpoint includes (s sub : string) : bool :=
  match s with
  | EmptyString => String.prefix sub EmptyString
  | String _ s' => String.prefix sub s || includes s' sub
  end.

(** What is caught: an [Error] with its message, or any other value with
    what [String(error)] makes of it. *)
Inductive Thrown : Set :=
| an_Error (msg : string)
| a_value (str : string).

Definition text_of (error : Thrown) : string :=
  match error with
  | an_Error msg => msg
  | a_value str => str
  end.

(** Lines 101-122. *)
Definition parseError (error : Thrown) : AppError :=
  match error with
  | an_Error msg =>
      let message := toLowerCase msg in
      if includes message "network" || includes message "fetch" then
        createError NETWORK_ERROR (Some msg)
      else if includes message "timeout" then
        createError CONNECTION_TIMEOUT (Some msg)
      else if includes message "permission" || includes message "denied" then
        createError MEDIA_ACCESS_DENIED (Some msg)
      else if includes message "not supported"
              || includes message "undefined" then
        createError MEDIA_NOT_SUPPORTED (Some msg)
      else createError UNKNOWN_ERROR (Some msg)
  | a_value str => createError UNKNOWN_ERROR (Some str)
  end.

Definition isRecoverable (error : AppError) : bool := recoverable error.

(** The [catch] of [setupMedia] ([useWebRTC], lines 282-291): the error it
    sets from what [getUserMedia] threw. *)
Definition setupMedia_error (err : Thrown) : AppError :=
  let appError := parseError err in
  if includes (message appError) "Permission denied"
     || includes (message appError) "NotAllowed"
  then createError MEDIA_ACCESS_DENIED None
  else createError MEDIA_NOT_SUPPORTED None.

End ErrorHandler.

(** ** The peer connection of [useWebRTC]: transport events, timers,
       offers and teardown *)

Module PeerHook.
Import ErrorHandler.

Inductive WebRTCConnectionStatus : Set :=
| idle | initializing | connecting | connected | reconnecting | failed.

(** [RTCPeerConnection.iceConnectionState]. *)
Inductive IceConnectionState : Set :=
| ice_new | ice_checking | ice_connected | ice_completed | ice_failed
| ice_disconnected | ice_closed.

(** [RTCPeerConnection.connectionState]. *)
Inductive PeerConnectionState : Set :=
| pc_new | pc_connecting | pc_connected | pc_disconnected | pc_failed
| pc_closed.

Record RTCPeerConnection : Set := mkPC {
  iceConnectionState : IceConnectionState;
  connectionState : PeerConnectionState
}.

Definition RECONNECT_DELAY := 2000.
Definition MAX_RECONNECT_ATTEMPTS := 3.

(** The callbacks the hook gives to [setTimeout]: the connection timeout
    (line 484), the restart after [disconnected] (line 378), the delayed offer
    (line 568) and the offer retry (line 576). *)
Inductive TimerKind : Set :=
| connection_timeout | reconnect | offer_delay | offer_retry.

(** What the hook does to the outside. *)
Inductive Effect : Set :=
| setTimeout (handle : nat) (kind : TimerKind) (ms : nat)
| clearTimeout (handle : nat)
| pc_close
| removeChannel
| restartIce_after_failed
| restartIce_after_disconnected
| applyBandwidthConstraints
| send_ready
| createOffer
| send_offer.

(** The React state of the hook, its refs, the timers the runtime holds
    for it ([handle], callback), the next handle the runtime will give out
    (handles are positive, hence truthy) and the calls of [sendOffer] that are
    suspended at an [await]. *)
Record Hook : Set := mkHook {
  myId : string;
  partnerId : string;
  connectionStatus : WebRTCConnectionStatus;
  error : option AppError;
  remoteStream : bool;
  pcRef : option RTCPeerConnection;
  channelRef : bool;
  remoteStreamRef : bool;
  isInitiatorRef : bool;
  pendingCandidatesRef : list string;
  reconnectAttemptsRef : nat;
  mountedRef : bool;
  offerSentRef : bool;
  partnerReadyRef : bool;
  connectionTimeoutRef : option nat;
  retryTimeoutRef : option nat;
  timers : list (nat * TimerKind);
  next_handle : nat;
  offers_in_flight : nat
}.

(** Field updates. *)
Definition with_status (s : WebRTCConnectionStatus) (h : Hook) : Hook :=
  mkHook (myId h) (partnerId h) s (error h) (remoteStream h) (pcRef h)
    (channelRef h) (remoteStreamRef h) (isInitiatorRef h)
    (pendingCandidatesRef h) (reconnectAttemptsRef h) (mountedRef h)
    (offerSentRef h) (partnerReadyRef h) (connectionTimeoutRef h)
    (retryTimeoutRef h) (timers h) (next_handle h) (offers_in_flight h).

Definition with_error (e : option AppError) (h : Hook) : Hook :=
  mkHook (myId h) (partnerId h) (connectionStatus h) e (remoteStream h)
    (pcRef h) (channelRef h) (remoteStreamRef h) (isInitiatorRef h)
    (pendingCandidatesRef h) (reconnectAttemptsRef h) (mountedRef h)
    (offerSentRef h) (partnerReadyRef h) (connectionTimeoutRef h)
    (retryTimeoutRef h) (timers h) (next_handle h) (offers_in_flight h).

Definition with_remoteStream (b : bool) (h : Hook) : Hook :=
  mkHook (myId h) (partnerId h) (connectionStatus h) (error h) b (pcRef h)
    (channelRef h) (remoteStreamRef h) (isInitiatorRef h)
    (pendingCandidatesRef h) (reconnectAttemptsRef h) (mountedRef h)
    (offerSentRef h) (partnerReadyRef h) (connectionTimeoutRef h)
    (retryTimeoutRef h) (timers h) (next_handle h) (offers_in_flight h).

Definition with_pc (pc : option RTCPeerConnection) (h : Hook) : Hook :=
  mkHook (myId h) (partnerId h) (connectionStatus h) (error h)
    (remoteStream h) pc (channelRef h) (remoteStreamRef h)
    (isInitiatorRef h) (pendingCandidatesRef h) (reconnectAttemptsRef h)
    (mountedRef h) (offerSentRef h) (partnerReadyRef h)
    (connectionTimeoutRef h) (retryTimeoutRef h) (timers h) (next_handle h)
    (offers_in_flight h).

Definition with_reconnectAttempts (n : nat) (h : Hook) : Hook :=
  mkHook (myId h) (partnerId h) (connectionStatus h) (error h)
    (remoteStream h) (pcRef h) (channelRef h) (remoteStreamRef h)
    (isInitiatorRef h) (pendingCandidatesRef h) n (mountedRef h)
    (offerSentRef h) (partnerReadyRef h) (connectionTimeoutRef h)
    (retryTimeoutRef h) (timers h) (next_handle h) (offers_in_flight h).

Definition with_mounted (b : bool) (h : Hook) : Hook :=
  mkHook (myId h) (partnerId h) (connectionStatus h) (error h)
    (remoteStream h) (pcRef h) (channelRef h) (remoteStreamRef h)
    (isInitiatorRef h) (pendingCandidatesRef h) (reconnectAttemptsRef h) b
    (offerSentRef h) (partnerReadyRef h) (connectionTimeoutRef h)
    (retryTimeoutRef h) (timers h) (next_handle h) (offers_in_flight h).

Definition with_offerSent (b : bool) (h : Hook) : Hook :=
  mkHook (myId h) (partnerId h) (connectionStatus h) (error h)
    (remoteStream h) (pcRef h) (channelRef h) (remoteStreamRef h)
    (isInitiatorRef h) (pendingCandidatesRef h) (reconnectAttemptsRef h)
    (mountedRef h) b (partnerReadyRef h) (connectionTimeoutRef h)
    (retryTimeoutRef h) (timers h) (next_handle h) (offers_in_flight h).

Definition with_partnerReady (b : bool) (h : Hook) : Hook :=
  mkHook (myId h) (partnerId h) (connectionStatus h) (error h)
    (remoteStream h) (pcRef h) (channelRef h) (remoteStreamRef h)
    (isInitiatorRef h) (pendingCandidatesRef h) (reconnectAttemptsRef h)
    (mountedRef h) (offerSentRef h) b (connectionTimeoutRef h)
    (retryTimeoutRef h) (timers h) (next_handle h) (offers_in_flight h).

Definition with_offers_in_flight (n : nat) (h : Hook) : Hook :=
  mkHook (myId h) (partnerId h) (connectionStatus h) (error h)
    (remoteStream h) (pcRef h) (channelRef h) (remoteStreamRef h)
    (isInitiatorRef h) (pendingCandidatesRef h) (reconnectAttemptsRef h)
    (mountedRef h) (offerSentRef h) (partnerReadyRef h)
    (connectionTimeoutRef h) (retryTimeoutRef h) (timers h) (next_handle h) n.

Definition with_timers (ts : list (nat * TimerKind)) (h : Hook) : Hook :=
  mkHook (myId h) (partnerId h) (connectionStatus h) (error h)
    (remoteStream h) (pcRef h) (channelRef h) (remoteStreamRef h)
    (isInitiatorRef h) (pendingCandidatesRef h) (reconnectAttemptsRef h)
    (mountedRef h) (offerSentRef h) (partnerReadyRef h)
    (connectionTimeoutRef h) (retryTimeoutRef h) ts (next_handle h)
    (offers_in_flight h).

(** Lines 222-232: the state setters act only while the hook is mounted. *)
Definition safeSetConnectionStatus (s : WebRTCConnectionStatus) (h : Hook)
  : Hook :=
  if mountedRef h then with_status s h else h.

Definition safeSetError (e : option AppError) (h : Hook) : Hook :=
  if mountedRef h then with_error e h else h.

Definition safeSetRemoteStream (b : bool) (h : Hook) : Hook :=
  if mountedRef h then with_remoteStream b h else h.

(** [setTimeout]: the runtime keeps the callback under a new handle. *)
Definition schedule (kind : TimerKind) (ms : nat) (h : Hook)
  : nat * Hook * list Effect :=
  let handle := next_handle h in
  (handle,
   mkHook (myId h) (partnerId h) (connectionStatus h) (error h)
     (remoteStream h) (pcRef h) (channelRef h) (remoteStreamRef h)
     (isInitiatorRef h) (pendingCandidatesRef h) (reconnectAttemptsRef h)
     (mountedRef h) (offerSentRef h) (partnerReadyRef h)
     (connectionTimeoutRef h) (retryTimeoutRef h)
     (timers h ++ [(handle, kind)]) (S handle) (offers_in_flight h),
   [setTimeout handle kind ms]).

Definition set_retryTimeoutRef (r : option nat) (h : Hook) : Hook :=
  mkHook (myId h) (partnerId h) (connectionStatus h) (error h)
    (remoteStream h) (pcRef h) (channelRef h) (remoteStreamRef h)
    (isInitiatorRef h) (pendingCandidatesRef h) (reconnectAttemptsRef h)
    (mountedRef h) (offerSentRef h) (partnerReadyRef h)
    (connectionTimeoutRef h) r (timers h) (next_handle h)
    (offers_in_flight h).

Definition unschedule (handle : nat) (ts : list (nat * TimerKind))
  : list (nat * TimerKind) :=
  filter (fun t => negb (fst t =? handle)) ts.

(** Lines 235-258. *)
Definition cleanup (h : Hook) : Hook * list Effect :=
  let eff1 := match connectionTimeoutRef h with
              | Some t => [clearTimeout t] | None => [] end in
  let ts1 := match connectionTimeoutRef h with
             | Some t => unschedule t (timers h) | None => timers h end in
  let eff2 := match retryTimeoutRef h with
              | Some t => [clearTimeout t] | None => [] end in
  let ts2 := match retryTimeoutRef h with
             | Some t => unschedule t ts1 | None => ts1 end in
  let eff3 := match pcRef h with Some _ => [pc_close] | None => [] end in
  let eff4 := if channelRef h then [removeChannel] else [] in
  let h1 :=
    mkHook (myId h) (partnerId h) (connectionStatus h) (error h)
      (remoteStream h) None false false (isInitiatorRef h) []
      (reconnectAttemptsRef h) (mountedRef h) false false None None ts2
      (next_handle h) (offers_in_flight h) in
  (safeSetConnectionStatus idle (safeSetRemoteStream false h1),
   eff1 ++ eff2 ++ eff3 ++ eff4).

(** Lines 416-439, up to the first [await]: the guard and the call of
    [createOffer]. *)
Definition sendOffer (h : Hook) : Hook * list Effect :=
  match pcRef h with
  | Some _ =>
      if channelRef h && negb (partnerId h =? "")%string
         && negb (offerSentRef h) then
        (with_offers_in_flight (S (offers_in_flight h)) h, [createOffer])
      else (h, [])
  | None => (h, [])
  end.

(** A suspended [sendOffer] ends: the offer was set and broadcast, and
    [offerSentRef] is set; or one of its steps threw, which it only logs.
    The steps after the [await]s use the refs again. *)
Definition sendOffer_ends (ok : bool) (h : Hook) : Hook * list Effect :=
  match offers_in_flight h with
  | O => (h, [])
  | S n =>
      let h1 := with_offers_in_flight n h in
      match pcRef h1 with
      | Some _ =>
          if ok && channelRef h1 then (with_offerSent true h1, [send_offer])
          else (h1, [])
      | None => (h1, [])
      end
  end.

(** Lines 354-385, after the browser has set [pc.iceConnectionState].  The
    handlers belong to the connection [pcRef] holds: a connection that
    [cleanup] has closed fires no more events. *)
Definition oniceconnectionstatechange (s : IceConnectionState) (h : Hook)
  : Hook * list Effect :=
  match pcRef h with
  | None => (h, [])
  | Some pc =>
      let h0 := with_pc (Some (mkPC s (connectionState pc))) h in
      match s with
      | ice_connected | ice_completed =>
          (with_reconnectAttempts 0 (safeSetConnectionStatus connected h0),
           [applyBandwidthConstraints])
      | ice_failed =>
          if reconnectAttemptsRef h0 <? MAX_RECONNECT_ATTEMPTS then
            let h1 := safeSetConnectionStatus reconnecting h0 in
            (with_reconnectAttempts (S (reconnectAttemptsRef h1)) h1,
             [restartIce_after_failed])
          else
            (safeSetError (Some (createError WEBRTC_FAILED None))
               (safeSetConnectionStatus failed h0), [])
      | ice_disconnected =>
          let h1 := safeSetConnectionStatus reconnecting h0 in
          let '(handle, h2, effs) := schedule reconnect RECONNECT_DELAY h1 in
          (set_retryTimeoutRef (Some handle) h2, effs)
      | _ => (h0, [])
      end
  end.

(** Lines 387-395, after the browser has set [pc.connectionState]. *)
Definition onconnectionstatechange (s : PeerConnectionState) (h : Hook)
  : Hook * list Effect :=
  match pcRef h with
  | None => (h, [])
  | Some pc =>
      let h0 := with_pc (Some (mkPC (iceConnectionState pc) s)) h in
      match s with
      | pc_connected => (safeSetConnectionStatus connected h0, [])
      | pc_failed =>
          (safeSetError (Some (createError WEBRTC_FAILED None))
             (safeSetConnectionStatus failed h0), [])
      | _ => (h0, [])
      end
  end.

Definition is_pc_connected (h : Hook) : bool :=
  match pcRef h with
  | Some pc => match connectionState pc with pc_connected => true | _ => false end
  | None => false
  end.

Definition is_ice_disconnected (h : Hook) : bool :=
  match pcRef h with
  | Some pc =>
      match iceConnectionState pc with ice_disconnected => true | _ => false end
  | None => false
  end.

(** The callbacks of the four timers. *)
Definition timer_callback (kind : TimerKind) (h : Hook)
  : Hook * list Effect :=
  match kind with
  | connection_timeout =>
      if is_pc_connected h then (h, [])
      else (safeSetError (Some (createError CONNECTION_TIMEOUT None))
              (safeSetConnectionStatus failed h), [])
  | reconnect =>
      if is_ice_disconnected h then (h, [restartIce_after_disconnected])
      else (h, [])
  | offer_delay =>
      if negb (offerSentRef h) && mountedRef h then sendOffer h else (h, [])
  | offer_retry =>
      if negb (is_pc_connected h) && negb (offerSentRef h) && mountedRef h
      then sendOffer (with_offerSent false h)
      else (h, [])
  end.

(** The runtime fires the timer [handle], if it still holds it. *)
Definition timer_fires (handle : nat) (h : Hook) : Hook * list Effect :=
  match find (fun t => fst t =? handle) (timers h) with
  | Some (_, kind) =>
      timer_callback kind (with_timers (unschedule handle (timers h)) h)
  | None => (h, [])
  end.

(** Lines 493-501: a [ready] envelope. *)
Definition on_ready (from : string) (h : Hook) : Hook * list Effect :=
  if (from =? partnerId h)%string then
    let h1 := with_partnerReady true h in
    if isInitiatorRef h1 && negb (offerSentRef h1) then sendOffer h1
    else (h1, [])
  else (h, []).

(** Lines 556-585: the channel reports its status; [ready_sent] tells
    whether the broadcast of [ready] resolved. *)
Definition on_channel_status (subscribed ready_sent : bool) (h : Hook)
  : Hook * list Effect :=
  if subscribed then
    if ready_sent then
      if isInitiatorRef h then
        let '(t1, h1, eff1) := schedule offer_delay 1000 h in
        let h2 := set_retryTimeoutRef (Some t1) h1 in
        let '(_, h3, eff2) := schedule offer_retry 3000 h2 in
        (h3, send_ready :: eff1 ++ eff2)
      else (h, [send_ready])
    else (h, [send_ready])
  else (h, []).

(** The cleanup of the effect, lines 590-593. *)
Definition unmount (h : Hook) : Hook * list Effect :=
  cleanup (with_mounted false h).

Inductive Event : Set :=
| ice_state_changed (s : IceConnectionState)
| connection_state_changed (s : PeerConnectionState)
| timer_fired (handle : nat)
| ready_received (from : string)
| channel_status (subscribed ready_sent : bool)
| offer_ended (ok : bool)
| cleanup_called
| unmounted.

Definition handle (ev : Event) (h : Hook) : Hook * list Effect :=
  match ev with
  | ice_state_changed s => oniceconnectionstatechange s h
  | connection_state_changed s => onconnectionstatechange s h
  | timer_fired t => timer_fires t h
  | ready_received from => on_ready from h
  | channel_status subscribed ready_sent =>
      on_channel_status subscribed ready_sent h
  | offer_ended ok => sendOffer_ends ok h
  | cleanup_called => cleanup h
  | unmounted => unmount h
  end.

Fixpoint run (tr : list Event) (h : Hook) : Hook * list Effect :=
  match tr with
  | [] => (h, [])
  | ev :: tr' =>
      let '(h1, eff1) := handle ev h in
      let '(h2, eff2) := run tr' h1 in
      (h2, eff1 ++ eff2)
  end.

(** The hook once the effect of lines 450-490 has acquired the media and
    created the connection: mounted, [connecting], a fresh connection, the
    channel created, the connection timeout running. *)
Definition setup (me partner : string) : Hook :=
  mkHook me partner connecting None false (Some (mkPC ice_new pc_new)) true
    true (WebRTC.isInitiator me partner) [] 0 true false false (Some 1) None
    [(1, connection_timeout)] 2 0.

Definition count_effect (p : Effect -> bool) (effs : list Effect) : nat :=
  List.length (filter p effs).

Definition is_restart_after_failed (e : Effect) : bool :=
  match e with restartIce_after_failed => true | _ => false end.


Definition is_ice_connected_event (ev : Event) : bool :=
  match ev with
  | ice_state_changed ice_connected | ice_state_changed ice_completed => true
  | _ => false
  end.

(** The part of the hook a component renders. *)
Definition rendered (h : Hook)
  : WebRTCConnectionStatus * option AppError * bool :=
  (connectionStatus h, error h, remoteStream h).

(** The effects that act on the peer connection. *)
Definition uses_connection (e : Effect) : bool :=
  match e with
  | pc_close | restartIce_after_failed | restartIce_after_disconnected
  | applyBandwidthConstraints | createOffer | send_offer => true
  | _ => false
  end.


End PeerHook.

(** ** The matchmaking hook of the browser
       ([src/hooks/useMatchmaking.ts]) *)

Module MatchmakingHook.
Import ErrorHandler.

Definition MAX_RETRIES := 3.
Definition POLL_INTERVAL := 2000.
Definition INITIAL_RETRY_DELAY := 1000.

(** ['idle' | 'searching' | 'matched' | 'disconnected' | 'error']. *)
Inductive MatchmakingStatus : Set :=
| idle | searching | matched | disconnected | status_error.

Record MatchmakingState : Set := mkState {
  status : MatchmakingStatus;
  partnerId : option string;
  myId : string;
  error : option AppError
}.

(** A [Partial<MatchmakingState>]: the keys an updater object carries. *)
Record Partial : Set := mkPartial {
  new_status : option MatchmakingStatus;
  new_partnerId : option (option string);
  new_error : option (option AppError)
}.

(** [{ ...prev, ...updater }]. *)
Definition merge (prev : MatchmakingState) (u : Partial) : MatchmakingState :=
  mkState
    (match new_status u with Some s => s | None => status prev end)
    (match new_partnerId u with Some p => p | None => partnerId prev end)
    (myId prev)
    (match new_error u with Some e => e | None => error prev end).

(** How a [fetch] of the hook ends: it rejects (the network fails, the
    [AbortController] fires after its timeout, the body is no JSON), or it
    resolves with [res.ok] and the JSON body of the route. *)
Inductive Fetch : Set :=
| rejects
| resolves (ok : bool) (data : Matchmaking.Response).

(** [data.matched && data.partnerId], lines 61 and 129. *)
Definition data_partnerId (data : Matchmaking.Response) : option string :=
  match data with
  | Matchmaking.matched_true p => if (p =? "")%string then None else Some p
  | _ => None
  end.

(** The two callbacks given to [setTimeout] that call [findPartner]: the
    automatic retry of line 187, which tests [mountedRef], and the restart of
    line 237, which does not. *)
Inductive TimerKind : Set := auto_retry | restart.

Inductive Effect : Set :=
| fetch_POST (sessionId : string) (chatType : Matchmaking.ChatType)
| fetch_GET (sessionId : string)
| fetch_DELETE (sessionId : string)
| setTimeout (kind : TimerKind) (ms : nat)
| setInterval (handle : nat) (ms : nat)
| clearInterval (handle : nat)
| subscribe (channel : nat)
| removeChannel (channel : nat).

(** The hook: its argument, its React state, its refs, and what the
    runtime holds for it: the live intervals (with whether their callback is
    the guarded one of line 161 or the bare one of line 267), the live
    channels, the next handle (handles are positive, hence truthy), the
    requests that have not settled yet and the pending timers. *)
Record Hook : Set := mkHook {
  chatType : Matchmaking.ChatType;
  state : MatchmakingState;
  pollingRef : option nat;
  subscriptionRef : option nat;
  isSearchingRef : bool;
  retryCountRef : nat;
  mountedRef : bool;
  intervals : list (nat * bool);
  channels : list nat;
  next_handle : nat;
  posts_in_flight : nat;
  polls_in_flight : nat;
  disconnects_in_flight : nat;
  retries_in_flight : nat;
  auto_retries_pending : nat;
  restarts_pending : nat
}.

(** Field updates. *)
Definition with_state (s : MatchmakingState) (h : Hook) : Hook :=
  mkHook (chatType h) s (pollingRef h) (subscriptionRef h) (isSearchingRef h)
    (retryCountRef h) (mountedRef h) (intervals h) (channels h)
    (next_handle h) (posts_in_flight h) (polls_in_flight h)
    (disconnects_in_flight h) (retries_in_flight h) (auto_retries_pending h)
    (restarts_pending h).

Definition with_polling (r : option nat) (ts : list (nat * bool))
    (next : nat) (h : Hook) : Hook :=
  mkHook (chatType h) (state h) r (subscriptionRef h) (isSearchingRef h)
    (retryCountRef h) (mountedRef h) ts (channels h) next
    (posts_in_flight h) (polls_in_flight h) (disconnects_in_flight h)
    (retries_in_flight h) (auto_retries_pending h) (restarts_pending h).

Definition with_subscription (r : option nat) (cs : list nat) (next : nat)
    (h : Hook) : Hook :=
  mkHook (chatType h) (state h) (pollingRef h) r (isSearchingRef h)
    (retryCountRef h) (mountedRef h) (intervals h) cs next
    (posts_in_flight h) (polls_in_flight h) (disconnects_in_flight h)
    (retries_in_flight h) (auto_retries_pending h) (restarts_pending h).

Definition with_isSearching (b : bool) (h : Hook) : Hook :=
  mkHook (chatType h) (state h) (pollingRef h) (subscriptionRef h) b
    (retryCountRef h) (mountedRef h) (intervals h) (channels h)
    (next_handle h) (posts_in_flight h) (polls_in_flight h)
    (disconnects_in_flight h) (retries_in_flight h) (auto_retries_pending h)
    (restarts_pending h).

Definition with_retryCount (n : nat) (h : Hook) : Hook :=
  mkHook (chatType h) (state h) (pollingRef h) (subscriptionRef h)
    (isSearchingRef h) n (mountedRef h) (intervals h) (channels h)
    (next_handle h) (posts_in_flight h) (polls_in_flight h)
    (disconnects_in_flight h) (retries_in_flight h) (auto_retries_pending h)
    (restarts_pending h).

Definition with_mounted (b : bool) (h : Hook) : Hook :=
  mkHook (chatType h) (state h) (pollingRef h) (subscriptionRef h)
    (isSearchingRef h) (retryCountRef h) b (intervals h) (channels h)
    (next_handle h) (posts_in_flight h) (polls_in_flight h)
    (disconnects_in_flight h) (retries_in_flight h) (auto_retries_pending h)
    (restarts_pending h).

Definition with_posts_in_flight (n : nat) (h : Hook) : Hook :=
  mkHook (chatType h) (state h) (pollingRef h) (subscriptionRef h)
    (isSearchingRef h) (retryCountRef h) (mountedRef h) (intervals h)
    (channels h) (next_handle h) n (polls_in_flight h)
    (disconnects_in_flight h) (retries_in_flight h) (auto_retries_pending h)
    (restarts_pending h).

Definition with_polls_in_flight (n : nat) (h : Hook) : Hook :=
  mkHook (chatType h) (state h) (pollingRef h) (subscriptionRef h)
    (isSearchingRef h) (retryCountRef h) (mountedRef h) (intervals h)
    (channels h) (next_handle h) (posts_in_flight h) n
    (disconnects_in_flight h) (retries_in_flight h) (auto_retries_pending h)
    (restarts_pending h).

Definition with_disconnects_in_flight (n : nat) (h : Hook) : Hook :=
  mkHook (chatType h) (state h) (pollingRef h) (subscriptionRef h)
    (isSearchingRef h) (retryCountRef h) (mountedRef h) (intervals h)
    (channels h) (next_handle h) (posts_in_flight h) (polls_in_flight h) n
    (retries_in_flight h) (auto_retries_pending h) (restarts_pending h).

Definition with_retries_in_flight (n : nat) (h : Hook) : Hook :=
  mkHook (chatType h) (state h) (pollingRef h) (subscriptionRef h)
    (isSearchingRef h) (retryCountRef h) (mountedRef h) (intervals h)
    (channels h) (next_handle h) (posts_in_flight h) (polls_in_flight h)
    (disconnects_in_flight h) n (auto_retries_pending h)
    (restarts_pending h).

Definition with_auto_retries_pending (n : nat) (h : Hook) : Hook :=
  mkHook (chatType h) (state h) (pollingRef h) (subscriptionRef h)
    (isSearchingRef h) (retryCountRef h) (mountedRef h) (intervals h)
    (channels h) (next_handle h) (posts_in_flight h) (polls_in_flight h)
    (disconnects_in_flight h) (retries_in_flight h) n (restarts_pending h).

Definition with_restarts_pending (n : nat) (h : Hook) : Hook :=
  mkHook (chatType h) (state h) (pollingRef h) (subscriptionRef h)
    (isSearchingRef h) (retryCountRef h) (mountedRef h) (intervals h)
    (channels h) (next_handle h) (posts_in_flight h) (polls_in_flight h)
    (disconnects_in_flight h) (retries_in_flight h)
    (auto_retries_pending h) n.

(** Lines 41-44; the hook only ever passes updater objects. *)
Definition safeSetState (u : Partial) (h : Hook) : Hook :=
  if mountedRef h then with_state (merge (state h) u) h else h.

(** Lines 72-77. *)
Definition stopPolling (h : Hook) : Hook * list Effect :=
  match pollingRef h with
  | Some t =>
      (with_polling None
         (filter (fun i => negb (fst i =? t)) (intervals h)) (next_handle h) h,
       [clearInterval t])
  | None => (h, [])
  end.

(** Lines 79-84. *)
Definition stopSubscription (h : Hook) : Hook * list Effect :=
  match subscriptionRef h with
  | Some c =>
      (with_subscription None
         (filter (fun c' => negb (c' =? c)) (channels h)) (next_handle h) h,
       [removeChannel c])
  | None => (h, [])
  end.

(** Lines 86-98. *)
Definition handleMatchFound (partner : string) (h : Hook)
  : Hook * list Effect :=
  if negb (mountedRef h) then (h, [])
  else
    let '(h1, effs) := stopPolling h in
    let h2 := with_retryCount 0 (with_isSearching false h1) in
    (safeSetState
       (mkPartial (Some matched) (Some (Some partner)) (Some None)) h2,
     effs).

(** Lines 100-119: [findPartner] up to its [fetch]. *)
Definition findPartner (h : Hook) : Hook * list Effect :=
  if (myId (state h) =? "")%string || isSearchingRef h then (h, [])
  else
    let h1 := with_isSearching true h in
    let h2 :=
      safeSetState (mkPartial (Some searching) (Some None) (Some None)) h1 in
    (with_posts_in_flight (S (posts_in_flight h2)) h2,
     [fetch_POST (myId (state h)) (chatType h)]).

(** Lines 121-198: [findPartner] once its [fetch] has settled. *)
Definition findPartner_settles (f : Fetch) (h : Hook) : Hook * list Effect :=
  match posts_in_flight h with
  | O => (h, [])
  | S n =>
      let h0 := with_posts_in_flight n h in
      match f with
      | resolves true data =>
          match data_partnerId data with
          | Some partner => handleMatchFound partner h0
          | None =>
              let '(h1, effs) := stopSubscription h0 in
              let channel := next_handle h1 in
              let h2 :=
                with_subscription (Some channel) (channels h1 ++ [channel])
                  (S channel) h1 in
              let interval := next_handle h2 in
              let h3 :=
                with_polling (Some interval)
                  (intervals h2 ++ [(interval, true)]) (S interval) h2 in
              (h3, effs ++ [subscribe channel;
                            setInterval interval POLL_INTERVAL])
          end
      | _ =>
          let h1 := with_isSearching false h0 in
          if retryCountRef h1 <? MAX_RETRIES then
            let h2 := with_retryCount (S (retryCountRef h1)) h1 in
            let delay :=
              INITIAL_RETRY_DELAY * 2 ^ (retryCountRef h2 - 1) in
            (with_auto_retries_pending (S (auto_retries_pending h2)) h2,
             [setTimeout auto_retry delay])
          else
            (safeSetState
               (mkPartial (Some status_error) None
                  (Some (Some (createError MATCHMAKING_FAILED None)))) h1,
             [])
      end
  end.

(** Lines 46-54: [checkMatch] up to its [fetch]. *)
Definition checkMatch (h : Hook) : Hook * list Effect :=
  if (myId (state h) =? "")%string then (h, [])
  else (with_polls_in_flight (S (polls_in_flight h)) h,
        [fetch_GET (myId (state h))]).

(** The callback of an interval: lines 161-171 for the guarded one, lines
    267-272 for the bare one. *)
Definition interval_callback (guarded : bool) (h : Hook)
  : Hook * list Effect :=
  if guarded && (negb (mountedRef h) || negb (isSearchingRef h))
  then stopPolling h
  else checkMatch h.

Definition interval_fires (handle : nat) (h : Hook) : Hook * list Effect :=
  match find (fun i => fst i =? handle) (intervals h) with
  | Some (_, guarded) => interval_callback guarded h
  | None => (h, [])
  end.

(** Lines 55-69 and 168-170: the poll once its [fetch] has settled. *)
Definition checkMatch_settles (f : Fetch) (h : Hook) : Hook * list Effect :=
  match polls_in_flight h with
  | O => (h, [])
  | S n =>
      let h0 := with_polls_in_flight n h in
      match f with
      | resolves true data =>
          match data_partnerId data with
          | Some partner => handleMatchFound partner h0
          | None => (h0, [])
          end
      | _ => (h0, [])
      end
  end.

(** Lines 149-154: an [UPDATE] of the session's row pushed on a channel. *)
Definition on_postgres_changes (channel : nat) (matched_with : option string)
    (h : Hook) : Hook * list Effect :=
  if existsb (Nat.eqb channel) (channels h) then
    match matched_with with
    | Some partner =>
        if (partner =? "")%string then (h, [])
        else handleMatchFound partner h
    | None => (h, [])
    end
  else (h, []).

(** Lines 201-215: [disconnect] up to its [fetch], which it skips without
    an id. *)
Definition disconnect_begins (h : Hook) : Hook * list Effect * bool :=
  let '(h1, eff1) := stopPolling h in
  let '(h2, eff2) := stopSubscription h1 in
  let h3 := with_isSearching false h2 in
  if (myId (state h) =? "")%string then (h3, eff1 ++ eff2, false)
  else (h3, eff1 ++ eff2 ++ [fetch_DELETE (myId (state h))], true).

(** Lines 216-227: however the [fetch] ended. *)
Definition disconnect_ends (h : Hook) : Hook :=
  safeSetState (mkPartial (Some disconnected) (Some None) (Some None)) h.

Definition disconnect (h : Hook) : Hook * list Effect :=
  let '(h1, effs, pending) := disconnect_begins h in
  if pending then
    (with_disconnects_in_flight (S (disconnects_in_flight h1)) h1, effs)
  else (disconnect_ends h1, effs).

Definition disconnect_settles (h : Hook) : Hook * list Effect :=
  match disconnects_in_flight h with
  | O => (h, [])
  | S n => (disconnect_ends (with_disconnects_in_flight n h), [])
  end.

(** Lines 230-232. *)
Definition clearError (h : Hook) : Hook * list Effect :=
  (safeSetState (mkPartial None None (Some None)) h, []).

(** Line 237, after [await disconnect()]. *)
Definition retry_continues (h : Hook) : Hook * list Effect :=
  (with_restarts_pending (S (restarts_pending h)) (disconnect_ends h),
   [setTimeout restart 500]).

(** Lines 234-238. *)
Definition retry (h : Hook) : Hook * list Effect :=
  let '(h1, effs, pending) := disconnect_begins (with_retryCount 0 h) in
  if pending then
    (with_retries_in_flight (S (retries_in_flight h1)) h1, effs)
  else
    let '(h2, eff2) := retry_continues h1 in (h2, effs ++ eff2).

Definition retry_settles (h : Hook) : Hook * list Effect :=
  match retries_in_flight h with
  | O => (h, [])
  | S n => retry_continues (with_retries_in_flight n h)
  end.

(** A pending timer fires: lines 187-191 and line 237. *)
Definition timer_fires (kind : TimerKind) (h : Hook) : Hook * list Effect :=
  match kind with
  | auto_retry =>
      match auto_retries_pending h with
      | O => (h, [])
      | S n =>
          let h0 := with_auto_retries_pending n h in
          if mountedRef h0 then findPartner h0 else (h0, [])
      end
  | restart =>
      match restarts_pending h with
      | O => (h, [])
      | S n => findPartner (with_restarts_pending n h)
      end
  end.

(** Lines 261-274; the listener is removed at the unmount (line 277). *)
Definition handleVisibilityChange (hidden : bool) (h : Hook)
  : Hook * list Effect :=
  if negb (mountedRef h) then (h, [])
  else if hidden && isSearchingRef h then stopPolling h
  else
    match hidden, status (state h), pollingRef h with
    | false, searching, None =>
        let interval := next_handle h in
        (with_polling (Some interval) (intervals h ++ [(interval, false)])
           (S interval) h,
         [setInterval interval POLL_INTERVAL])
    | _, _, _ => (h, [])
    end.

(** The cleanups of the effects, lines 246-248 and 253-256. *)
Definition unmount (h : Hook) : Hook * list Effect :=
  let '(h1, eff1) := stopPolling (with_mounted false h) in
  let '(h2, eff2) := stopSubscription h1 in
  (h2, eff1 ++ eff2).

(** The hook after its first effect (lines 241-245) has stored the id
    [getOrCreateUserId] gave. *)
Definition mount (c : Matchmaking.ChatType) (userId : string) : Hook :=
  mkHook c (mkState idle None userId None) None None false 0 true [] [] 1
    0 0 0 0 0 0.

Inductive Event : Set :=
| findPartner_called
| post_settles (f : Fetch)
| timer_fired (kind : TimerKind)
| interval_fired (handle : nat)
| get_settles (f : Fetch)
| postgres_changes (channel : nat) (matched_with : option string)
| disconnect_called
| delete_settles (of_retry : bool)
| clearError_called
| retry_called
| visibilitychange (hidden : bool)
| unmounted.

Definition handle (ev : Event) (h : Hook) : Hook * list Effect :=
  match ev with
  | findPartner_called => findPartner h
  | post_settles f => findPartner_settles f h
  | timer_fired kind => timer_fires kind h
  | interval_fired t => interval_fires t h
  | get_settles f => checkMatch_settles f h
  | postgres_changes c m => on_postgres_changes c m h
  | disconnect_called => disconnect h
  | delete_settles of_retry =>
      if of_retry then retry_settles h else disconnect_settles h
  | clearError_called => clearError h
  | retry_called => retry h
  | visibilitychange hidden => handleVisibilityChange hidden h
  | unmounted => unmount h
  end.

Fixpoint run (tr : list Event) (h : Hook) : Hook * list Effect :=
  match tr with
  | [] => (h, [])
  | ev :: tr' =>
      let '(h1, eff1) := handle ev h in
      let '(h2, eff2) := run tr' h1 in
      (h2, eff1 ++ eff2)
  end.

(** A [fetch] that ends in the [catch] of [findPartner]. *)
Definition fails (f : Fetch) : bool :=
  match f with
  | resolves true _ => false
  | _ => true
  end.

(** A search all of whose requests fail: [findPartner], then each request
    settles with a failure and the timer it scheduled fires. *)
Definition failing_search (fs : list Fetch) : list Event :=
  findPartner_called
    :: flat_map (fun f => [post_settles f; timer_fired auto_retry]) fs.

Definition auto_retry_delays (effs : list Effect) : list nat :=
  flat_map (fun e => match e with
                     | setTimeout auto_retry ms => [ms]
                     | _ => []
                     end) effs.

Definition posts (effs : list Effect) : nat :=
  List.length (filter (fun e => match e with
                                | fetch_POST _ _ => true
                                | _ => false
                                end) effs).

End MatchmakingHook.

(** ** The hook and the route together *)

Module EndToEnd.
Import Matchmaking.
Import MatchmakingHook.








End EndToEnd.

(** * Properties *)

(** ** The matchmaking queue *)

Section MatchmakingProperties.
Import Matchmaking.

(** *** The statements leave the key columns alone *)

Lemma map_session_id_claim (pid : nat) (s : string) (now : Timestamp)
    (t : Table) :
  map session_id (claim pid s now t) = map session_id t.
Proof.
  unfold claim. rewrite map_map. apply map_ext.
  intros r. destruct (matches _ r); reflexivity.
Qed.

Lemma map_id_claim (pid : nat) (s : string) (now : Timestamp) (t : Table) :
  map id (claim pid s now t) = map id t.
Proof.
  unfold claim. rewrite map_map. apply map_ext.
  intros r. destruct (matches _ r); reflexivity.
Qed.

Lemma has_session_iff (s : string) (t : Table) :
  existsb (eq_session_id s) t = true <-> In s (map session_id t).
Proof.
  rewrite existsb_exists, in_map_iff. unfold eq_session_id.
  split; intros [r [H1 H2]]; exists r.
  - apply String.eqb_eq in H2. auto.
  - rewrite H1, String.eqb_refl. auto.
Qed.

Lemma map_session_id_upsert_present (s : string) (c : ChatType)
    (mw : option string) (mat : option Timestamp) (dbn : Timestamp)
    (t : Table) :
  existsb (eq_session_id s) t = true ->
  map session_id (upsert s c mw mat dbn t) = map session_id t.
Proof.
  intros H. unfold upsert. rewrite H, map_map. apply map_ext.
  intros r. unfold eq_session_id.
  destruct (String.eqb_spec (session_id r) s); simpl; congruence.
Qed.

Lemma map_session_id_upsert_absent (s : string) (c : ChatType)
    (mw : option string) (mat : option Timestamp) (dbn : Timestamp)
    (t : Table) :
  existsb (eq_session_id s) t = false ->
  map session_id (upsert s c mw mat dbn t) = map session_id t ++ [s].
Proof.
  intros H. unfold upsert. rewrite H, map_app. reflexivity.
Qed.

Lemma NoDup_snoc {X : Type} (l : list X) (x : X) :
  NoDup l -> ~ In x l -> NoDup (l ++ [x]).
Proof.
  intros Hl Hx. induction Hl as [|y l Hy Hl IH]; simpl.
  - constructor; [easy | constructor].
  - constructor.
    + rewrite in_app_iff. intros [Hin | [Heq | []]].
      * contradiction.
      * subst. apply Hx. now left.
    + apply IH. intros Hin. apply Hx. now right.
Qed.

Lemma NoDup_map_filter {X Y : Type} (f : X -> Y) (p : X -> bool)
    (l : list X) :
  NoDup (map f l) -> NoDup (map f (filter p l)).
Proof.
  induction l as [|x l IH]; simpl; intros H; [constructor|].
  inversion H as [|? ? Hx Hl]; subst.
  destruct (p x); simpl; auto.
  constructor; auto.
  intros Hin. apply Hx. apply in_map_iff in Hin as [y [Hy Hin]].
  apply filter_In in Hin as [Hin _]. rewrite <- Hy. now apply in_map.
Qed.

(** *** One row per session *)

Lemma unique_sessions_claim (pid : nat) (s : string) (now : Timestamp)
    (t : Table) :
  unique_sessions t -> unique_sessions (claim pid s now t).
Proof. unfold unique_sessions. now rewrite map_session_id_claim. Qed.

Lemma unique_sessions_upsert (s : string) (c : ChatType)
    (mw : option string) (mat : option Timestamp) (dbn : Timestamp)
    (t : Table) :
  unique_sessions t -> unique_sessions (upsert s c mw mat dbn t).
Proof.
  unfold unique_sessions. intros H.
  destruct (existsb (eq_session_id s) t) eqn:E.
  - now rewrite map_session_id_upsert_present.
  - rewrite map_session_id_upsert_absent by assumption.
    apply NoDup_snoc; [assumption|].
    intros Hin. apply has_session_iff in Hin. congruence.
Qed.

Lemma unique_sessions_delete (s : string) (t : Table) :
  unique_sessions t -> unique_sessions (delete s t).
Proof. apply NoDup_map_filter. Qed.

Lemma session_in_upsert (s : string) (c : ChatType) (mw : option string)
    (mat : option Timestamp) (dbn : Timestamp) (t : Table) :
  In s (map session_id (upsert s c mw mat dbn t)).
Proof.
  destruct (existsb (eq_session_id s) t) eqn:E.
  - rewrite map_session_id_upsert_present by assumption.
    now apply has_session_iff.
  - rewrite map_session_id_upsert_absent by assumption.
    apply in_app_iff. right. now left.
Qed.

Lemma matches_eq_session_id (s : string) (r : QueueEntry) :
  matches [eq_session_id s] r = true <-> session_id r = s.
Proof.
  unfold matches, eq_session_id. simpl. rewrite andb_true_r.
  apply String.eqb_eq.
Qed.

Lemma entries_of_absent (s : string) (t : Table) :
  ~ In s (map session_id t) -> entries_of s t = 0.
Proof.
  unfold entries_of, select.
  induction t as [|r t IH]; cbn [filter map]; intros H.
  - reflexivity.
  - destruct (matches [eq_session_id s] r) eqn:E.
    + apply matches_eq_session_id in E. exfalso. apply H. now left.
    + apply IH. intros Hin. apply H. now right.
Qed.

Lemma entries_of_present (s : string) (t : Table) :
  unique_sessions t -> In s (map session_id t) -> entries_of s t = 1.
Proof.
  unfold unique_sessions.
  induction t as [|r t IH]; cbn [map]; intros Hu Hin.
  - contradiction.
  - inversion Hu as [|? ? Hr Ht]; subst.
    unfold entries_of, select in *. cbn [filter].
    destruct (matches [eq_session_id s] r) eqn:E.
    + apply matches_eq_session_id in E. subst s. cbn [List.length].
      f_equal. apply (entries_of_absent (session_id r) t Hr).
    + destruct Hin as [Heq | Hin].
      * apply matches_eq_session_id in Heq. congruence.
      * now apply IH.
Qed.

Lemma maybeSingle_Some (l : list QueueEntry) (r : QueueEntry) :
  maybeSingle l = Some r -> l = [r].
Proof.
  destruct l as [|x [|y l]]; simpl; intros H; try discriminate.
  now inversion H.
Qed.

Lemma existingEntry_Some (s : string) (t : Table) (ex : QueueEntry) :
  existingEntry s t = Some ex -> In ex t /\ session_id ex = s.
Proof.
  unfold existingEntry, select. intros H. apply maybeSingle_Some in H.
  assert (Hin : In ex (filter (matches [eq_session_id s]) t))
    by (rewrite H; now left).
  apply filter_In in Hin as [Hin Hm].
  apply matches_eq_session_id in Hm. auto.
Qed.

Lemma matched_partner_Some (s : string) (t : Table) (p : string) :
  matched_partner (existingEntry s t) = Some p ->
  exists ex, existingEntry s t = Some ex /\ matched_with ex = Some p
             /\ p <> "".
Proof.
  unfold matched_partner. destruct (existingEntry s t) as [ex|]; [|discriminate].
  destruct (truthy (matched_with ex)) eqn:E; [|discriminate].
  intros H. exists ex. repeat split; auto.
  rewrite H in E. simpl in E. intros ->. discriminate.
Qed.

Lemma unique_sessions_POST (s : string) (c : ChatType) (e : Env)
    (t : Table) :
  unique_sessions t -> unique_sessions (snd (POST s c e t)).
Proof.
  intros H. unfold POST, upsert_waiting, upsert_matched.
  destruct (s =? "")%string; [assumption|].
  destruct (matched_partner _); [assumption|].
  destruct (potentialMatch s c t); [destruct (update_error e)|]; simpl;
    auto using unique_sessions_upsert, unique_sessions_claim.
Qed.

Lemma unique_sessions_GET (s : string) (t : Table) :
  unique_sessions t -> unique_sessions (snd (GET s t)).
Proof.
  intros H. unfold GET. destruct (s =? "")%string; [assumption|].
  destruct (matched_partner _); assumption.
Qed.

Lemma unique_sessions_DELETE (s : string) (t : Table) :
  unique_sessions t -> unique_sessions (snd (DELETE s t)).
Proof.
  intros H. unfold DELETE. destruct (s =? "")%string; [assumption|].
  now apply unique_sessions_delete.
Qed.

Lemma session_in_POST (s : string) (c : ChatType) (e : Env) (t : Table) :
  s <> "" -> In s (map session_id (snd (POST s c e t))).
Proof.
  intros Hs. unfold POST, upsert_waiting, upsert_matched.
  apply String.eqb_neq in Hs. rewrite Hs.
  destruct (matched_partner _) as [p|] eqn:E.
  - apply matched_partner_Some in E as [ex [Hex _]].
    apply existingEntry_Some in Hex as [Hin Heq]. simpl.
    rewrite <- Heq. now apply in_map.
  - destruct (potentialMatch s c t); [destruct (update_error e)|]; simpl;
      apply session_in_upsert.
Qed.

Lemma unique_sessions_POST_seq (s : string) (c : ChatType)
    (envs : list Env) (t : Table) :
  unique_sessions t -> unique_sessions (POST_seq s c envs t).
Proof.
  revert t. induction envs as [|e envs IH]; simpl; intros t H; auto.
  apply IH. now apply unique_sessions_POST.
Qed.

Lemma session_in_POST_seq (s : string) (c : ChatType) (envs : list Env)
    (t : Table) :
  s <> "" -> In s (map session_id t) ->
  In s (map session_id (POST_seq s c envs t)).
Proof.
  intros Hs. revert t. induction envs as [|e envs IH]; simpl; intros t H; auto.
  apply IH. now apply session_in_POST.
Qed.

End MatchmakingProperties.

Section QueueInvariant.
Import Matchmaking.

Lemma entries_of_ge_1 (s : string) (t : Table) :
  In s (map session_id t) -> 1 <= entries_of s t.
Proof.
  unfold entries_of, select.
  induction t as [|r t IH]; cbn [map filter]; intros H.
  - contradiction.
  - destruct (matches [eq_session_id s] r) eqn:E; cbn [List.length]; [lia|].
    destruct H as [H | H].
    + apply matches_eq_session_id in H. congruence.
    + now apply IH.
Qed.

Lemma entries_of_cons (s : string) (r : QueueEntry) (t : Table) :
  entries_of s (r :: t) =
  (if (session_id r =? s)%string then 1 else 0) + entries_of s t.
Proof.
  unfold entries_of, select. cbn [filter].
  unfold matches at 1, eq_session_id at 1. cbn [forallb].
  rewrite andb_true_r. destruct (session_id r =? s)%string; reflexivity.
Qed.

(** [unique_sessions] is the spec's "at most one QueueEntry per
    sessionId". *)
Lemma unique_sessions_at_most_one (t : Table) :
  unique_sessions t <-> forall s, entries_of s t <= 1.
Proof.
  split.
  - intros Hu s. destruct (in_dec string_dec s (map session_id t)) as [Hin | Hin].
    + rewrite entries_of_present; auto.
    + rewrite entries_of_absent; auto.
  - unfold unique_sessions. induction t as [|r t IH]; intros H; cbn [map].
    + constructor.
    + constructor.
      * intros Hin. apply entries_of_ge_1 in Hin.
        specialize (H (session_id r)). rewrite entries_of_cons in H.
        rewrite String.eqb_refl in H. lia.
      * apply IH. intros s. specialize (H s).
        rewrite entries_of_cons in H. lia.
Qed.

(** Every statement of the handler keeps the invariant, so it also holds
    between the awaits of requests in flight. *)
Lemma unique_sessions_step (s : string) (c : ChatType) (e : Env) (pc : Pc)
    (t : Table) :
  unique_sessions t -> unique_sessions (snd (step s c e pc t)).
Proof.
  intros H. unfold step, upsert_matched, upsert_waiting.
  destruct pc; cbn [snd];
    repeat match goal with
      | |- context [match ?x with _ => _ end] => destruct x
      end; cbn [snd];
    auto using unique_sessions_upsert, unique_sessions_claim.
Qed.

(** C3.  Calling tryMatch [N >= 1] times in a row for a session leaves
    exactly one QueueEntry for that session: the enqueue is an upsert keyed
    on the session id.  That no session has more than one entry is kept by
    each of tryMatch ([POST]), pollMatch ([GET]) and cancel ([DELETE]). *)
Theorem enqueue_is_idempotent :
  forall (t : Table) (sessionId : string) (chatType : ChatType)
         (envs : list Env),
    unique_sessions t -> sessionId <> "" -> envs <> [] ->
    entries_of sessionId (POST_seq sessionId chatType envs t) = 1 /\
    (forall s c e s', entries_of s' (snd (POST s c e t)) <= 1) /\
    (forall s s', entries_of s' (snd (GET s t)) <= 1) /\
    (forall s s', entries_of s' (snd (DELETE s t)) <= 1).
Proof.
  intros t sessionId chatType envs Hu Hs Hn.
  split; [|repeat split; intros].
  - destruct envs as [|e envs]; [congruence|]. cbn [POST_seq].
    apply entries_of_present.
    + apply unique_sessions_POST_seq. now apply unique_sessions_POST.
    + apply session_in_POST_seq; [assumption|]. now apply session_in_POST.
  - now apply unique_sessions_at_most_one, unique_sessions_POST.
  - now apply unique_sessions_at_most_one, unique_sessions_GET.
  - now apply unique_sessions_at_most_one, unique_sessions_DELETE.
Qed.

Lemma enqueue_is_idempotent_witness :
  let t := [mkEntry 1 "e" video None None 0] in
  let env := mkEnv 10 10 false in
  entries_of "a" (POST_seq "a" text [env; env; env] t) = 1 /\
  (forall s c e s', entries_of s' (snd (POST s c e t)) <= 1) /\
  (forall s s', entries_of s' (snd (GET s t)) <= 1) /\
  (forall s s', entries_of s' (snd (DELETE s t)) <= 1).
Proof.
  apply enqueue_is_idempotent.
  - repeat constructor. simpl. tauto.
  - discriminate.
  - discriminate.
Defined.

End QueueInvariant.

Section ConditionalClaim.
Import Matchmaking.

Lemma matches_claim_filters (pid : nat) (r : QueueEntry) :
  matches [eq_id pid; is_matched_with_null] r = true <->
  id r = pid /\ matched_with r = None.
Proof.
  unfold matches, eq_id, is_matched_with_null. cbn [forallb].
  rewrite andb_true_r, andb_true_iff, Nat.eqb_eq.
  destruct (matched_with r); intuition congruence.
Qed.





(** A claim that matches no row writes nothing. *)
Lemma claim_without_rows (pid : nat) (s : string) (now : Timestamp)
    (t : Table) :
  rows_affected pid t = 0 -> claim pid s now t = t.
Proof.
  unfold rows_affected, select, claim.
  induction t as [|r t IH]; cbn [map filter]; intros H; [reflexivity|].
  destruct (matches _ r); cbn [List.length] in H; [discriminate|].
  f_equal. now apply IH.
Qed.




End ConditionalClaim.

Section Fifo.
Import Matchmaking.

Lemma ChatType_eqb_eq (a b : ChatType) : ChatType_eqb a b = true <-> a = b.
Proof. destruct a, b; simpl; split; congruence. Qed.

Lemma matches_candidate_filters (s : string) (c : ChatType)
    (r : QueueEntry) :
  matches [eq_chat_type c; is_matched_with_null; neq_session_id s] r = true
  <-> eligible s c r.
Proof.
  unfold matches, eligible, eq_chat_type, is_matched_with_null,
    neq_session_id.
  cbn [forallb]. rewrite andb_true_r, !andb_true_iff, ChatType_eqb_eq,
    negb_true_iff, String.eqb_neq.
  destruct (matched_with r); intuition congruence.
Qed.

(** The head of [insert_created_at r l] is [r] or the head of [l],
    whichever is older. *)
Lemma insert_created_at_head (r : QueueEntry) (l : list QueueEntry) :
  exists w rest, insert_created_at r l = w :: rest /\
    (w = r \/ In w l) /\ created_at w <= created_at r /\
    (forall x rest', l = x :: rest' -> created_at w <= created_at x).
Proof.
  destruct l as [|x l']; cbn [insert_created_at].
  - exists r, []. repeat split; auto. intros; discriminate.
  - destruct (created_at r <=? created_at x) eqn:E.
    + apply Nat.leb_le in E. exists r, (x :: l'). repeat split; auto.
      intros ? ? [= <- _]. assumption.
    + apply Nat.leb_gt in E. exists x, (insert_created_at r l').
      repeat split; [right; now left | lia |].
      intros ? ? [= <- _]. lia.
Qed.

Lemma In_insert_created_at (r x : QueueEntry) (l : list QueueEntry) :
  In x (insert_created_at r l) <-> x = r \/ In x l.
Proof.
  induction l as [|y l IH]; cbn [insert_created_at].
  - simpl. intuition.
  - destruct (created_at r <=? created_at y); simpl in *; intuition.
Qed.

Lemma In_order_created_at (x : QueueEntry) (l : list QueueEntry) :
  In x (order_created_at l) <-> In x l.
Proof.
  induction l as [|y l IH]; cbn [order_created_at]; [reflexivity|].
  rewrite In_insert_created_at, IH. simpl. intuition.
Qed.

(** The first row of the ordered selection is an oldest row of it. *)
Lemma order_created_at_head (l : list QueueEntry) :
  match order_created_at l with
  | [] => l = []
  | w :: _ => In w l /\ forall x, In x l -> created_at w <= created_at x
  end.
Proof.
  induction l as [|r l IH]; cbn [order_created_at]; [reflexivity|].
  destruct (insert_created_at_head r (order_created_at l))
    as [w [rest [Heq [Hw [Hwr Hhd]]]]].
  rewrite Heq. split.
  - destruct Hw as [-> | Hw]; [now left|].
    right. now apply In_order_created_at.
  - intros x [<- | Hx]; [assumption|].
    destruct (order_created_at l) as [|w' rest'] eqn:Ho.
    + subst l. contradiction.
    + destruct IH as [_ IH]. specialize (Hhd w' rest' eq_refl).
      specialize (IH x Hx). lia.
Qed.

Lemma potentialMatch_oldest (s : string) (c : ChatType) (t : Table)
    (w : QueueEntry) :
  potentialMatch s c t = Some w ->
  In w t /\ eligible s c w /\
  forall x, In x t -> eligible s c x -> created_at w <= created_at x.
Proof.
  unfold potentialMatch, limit, select.
  set (sel := filter _ t).
  pose proof (order_created_at_head sel) as H.
  destruct (order_created_at sel) as [|w' rest]; [discriminate|].
  cbn [firstn maybeSingle]. intros [= <-].
  destruct H as [Hin Hmin].
  apply filter_In in Hin as [Hin Hm].
  apply matches_candidate_filters in Hm.
  repeat split; try apply Hm; auto.
  intros x Hx Hel. apply Hmin. apply filter_In. split; auto.
  now apply matches_candidate_filters.
Qed.

Lemma potentialMatch_exists (s : string) (c : ChatType) (t : Table)
    (x : QueueEntry) :
  In x t -> eligible s c x -> exists w, potentialMatch s c t = Some w.
Proof.
  intros Hx Hel. unfold potentialMatch, limit, select.
  set (sel := filter _ t).
  assert (Hin : In x sel).
  { apply filter_In. split; auto. now apply matches_candidate_filters. }
  pose proof (order_created_at_head sel) as H.
  destruct (order_created_at sel) as [|w' rest].
  - rewrite H in Hin. contradiction.
  - exists w'. reflexivity.
Qed.

Lemma existingEntry_absent (s : string) (t : Table) :
  ~ In s (map session_id t) -> existingEntry s t = None.
Proof.
  intros H. destruct (existingEntry s t) as [ex|] eqn:E; [|reflexivity].
  apply existingEntry_Some in E as [Hin Heq].
  exfalso. apply H. rewrite <- Heq. now apply in_map.
Qed.

Lemma In_claim_target (w : QueueEntry) (s : string) (now : Timestamp)
    (t : Table) :
  In w t -> matched_with w = None ->
  In (set_match s now w) (claim (id w) s now t).
Proof.
  intros Hin Hnull. unfold claim. apply in_map_iff. exists w. split; auto.
  assert (M : matches [eq_id (id w); is_matched_with_null] w = true).
  { unfold matches, eq_id, is_matched_with_null. cbn [forallb].
    now rewrite Nat.eqb_refl, Hnull. }
  now rewrite M.
Qed.

Lemma In_upsert_other (r : QueueEntry) (s : string) (c : ChatType)
    (mw : option string) (mat : option Timestamp) (dbn : Timestamp)
    (t : Table) :
  In r t -> session_id r <> s -> In r (upsert s c mw mat dbn t).
Proof.
  intros Hin Hne. unfold upsert.
  destruct (existsb (eq_session_id s) t).
  - apply in_map_iff. exists r. split; auto.
    unfold eq_session_id. apply String.eqb_neq in Hne. now rewrite Hne.
  - apply in_app_iff. now left.
Qed.

(** C4.  When unmatched entries of the requested chat type wait in the
    queue, tryMatch from a new session selects as its candidate the waiting
    entry with the smallest [created_at] among those of the same chat type,
    with [matched_with] null and another session id; that oldest waiter is
    the partner returned and the row claimed, so no younger waiter is
    matched before it. *)
Theorem oldest_waiter_is_matched_first :
  forall (t : Table) (sessionId : string) (chatType : ChatType) (e : Env)
         (w0 : QueueEntry),
    sessionId <> "" -> ~ In sessionId (map session_id t) ->
    update_error e = false ->
    In w0 t -> eligible sessionId chatType w0 ->
    exists w1,
      potentialMatch sessionId chatType t = Some w1 /\
      In w1 t /\ eligible sessionId chatType w1 /\
      (forall w2, In w2 t -> eligible sessionId chatType w2 ->
                  created_at w1 <= created_at w2) /\
      fst (POST sessionId chatType e t) = matched_true (session_id w1) /\
      In (set_match sessionId (js_now e) w1)
         (snd (POST sessionId chatType e t)).
Proof.
  intros t s c e w0 Hs Hnew Herr Hw0 Hel0.
  destruct (potentialMatch_exists s c t w0 Hw0 Hel0) as [w1 Hpm].
  destruct (potentialMatch_oldest s c t w1 Hpm) as [Hin [Hel Hmin]].
  exists w1. repeat split; try apply Hel; auto.
  - unfold POST. apply String.eqb_neq in Hs. rewrite Hs.
    rewrite (existingEntry_absent s t Hnew). cbn [matched_partner].
    now rewrite Hpm, Herr.
  - unfold POST. apply String.eqb_neq in Hs. rewrite Hs.
    rewrite (existingEntry_absent s t Hnew). cbn [matched_partner].
    rewrite Hpm, Herr. cbn [snd]. unfold upsert_matched.
    apply In_upsert_other.
    + apply In_claim_target; [assumption | apply Hel].
    + cbn [session_id set_match]. apply Hel.
Qed.

Lemma oldest_waiter_is_matched_first_witness :
  let W1 := mkEntry 1 "w1" video None None 0 in
  let W2 := mkEntry 2 "w2" video None None 1 in
  let e := mkEnv 10 10 false in
  exists w1,
    potentialMatch "new" video [W2; W1] = Some w1 /\
    In w1 [W2; W1] /\ eligible "new" video w1 /\
    (forall w2, In w2 [W2; W1] -> eligible "new" video w2 ->
                created_at w1 <= created_at w2) /\
    fst (POST "new" video e [W2; W1]) = matched_true (session_id w1) /\
    In (set_match "new" (js_now e) w1) (snd (POST "new" video e [W2; W1])).
Proof.
  intros W1 W2 e.
  apply (oldest_waiter_is_matched_first [W2; W1] "new" video e W2).
  - discriminate.
  - simpl. intuition discriminate.
  - reflexivity.
  - now left.
  - repeat split; discriminate.
Defined.

(** On the spec's example the new arrival is paired with [W1] (t=0), not
    with [W2] (t=1), whatever their order in the table. *)
Example fifo_example :
  let W1 := mkEntry 1 "w1" video None None 0 in
  let W2 := mkEntry 2 "w2" video None None 1 in
  fst (POST "new" video (mkEnv 10 10 false) [W2; W1]) = matched_true "w1" /\
  fst (POST "new" video (mkEnv 10 10 false) [W1; W2]) = matched_true "w1".
Proof. split; reflexivity. Qed.

End Fifo.

Section LostRace.
Import Matchmaking.

(** Run without interruption, the statements of the handler are [POST]. *)
Lemma POST_is_steps (s : string) (c : ChatType) (e : Env) (t : Table) :
  steps 4 s c e (start s) t =
  (done (fst (POST s c e t)), snd (POST s c e t)).
Proof.
  unfold POST, start. destruct (s =? "")%string; [reflexivity|].
  cbn [steps step].
  destruct (matched_partner (existingEntry s t)); [reflexivity|].
  cbn [steps step].
  destruct (potentialMatch s c t); cbn [steps step];
    [destruct (update_error e)|]; reflexivity.
Qed.

(** After an upsert, the rows of the session hold what was written. *)
Lemma upsert_row_of_session (s : string) (c : ChatType)
    (mw : option string) (mat : option Timestamp) (dbn : Timestamp)
    (t : Table) (r : QueueEntry) :
  In r (upsert s c mw mat dbn t) -> session_id r = s ->
  chat_type r = c /\ matched_with r = mw /\ matched_at r = mat.
Proof.
  intros Hin Hs. unfold upsert in Hin.
  destruct (existsb (eq_session_id s) t) eqn:Ex.
  - apply in_map_iff in Hin as [r0 [Hr0 _]].
    destruct (eq_session_id s r0) eqn:E0.
    + subst r. auto.
    + subst r0. unfold eq_session_id in E0.
      rewrite Hs, String.eqb_refl in E0. discriminate.
  - apply in_app_iff in Hin as [Hin | [<- | []]]; auto.
    assert (Habs : existsb (eq_session_id s) t = true).
    { apply has_session_iff. rewrite <- Hs. now apply in_map. }
    congruence.
Qed.

Lemma upsert_waiting_entry (s : string) (c : ChatType) (e : Env)
    (t : Table) :
  unique_sessions t ->
  exists r, existingEntry s (upsert_waiting s c e t) = Some r /\
            session_id r = s /\ chat_type r = c /\
            matched_with r = None /\ matched_at r = None.
Proof.
  intros Hu.
  assert (H1 : entries_of s (upsert_waiting s c e t) = 1).
  { apply entries_of_present.
    - now apply unique_sessions_upsert.
    - apply session_in_upsert. }
  unfold entries_of in H1. unfold existingEntry.
  destruct (select [eq_session_id s] (upsert_waiting s c e t))
    as [|r [|r' l]] eqn:Hsel; try discriminate.
  exists r. split; [reflexivity|].
  assert (Hin : In r (select [eq_session_id s] (upsert_waiting s c e t)))
    by (rewrite Hsel; now left).
  apply filter_In in Hin as [Hin Hm]. apply matches_eq_session_id in Hm.
  split; [assumption|].
  now apply (upsert_row_of_session s c None None (db_now e) t r).
Qed.

(** Whatever the table, a handler that resumes at its claim when no row
    passes the filters any more, and whose request does not fail, goes on as
    if it had won. *)
Lemma lost_claim_goes_unnoticed (s : string) (c : ChatType) (e : Env)
    (pm : QueueEntry) (t : Table) :
  update_error e = false -> rows_affected (id pm) t = 0 ->
  steps 2 s c e (at_claim pm) t =
  (done (matched_true (session_id pm)), upsert_matched s c pm e t).
Proof.
  intros He Hrows. cbn [steps step]. rewrite He.
  now rewrite (claim_without_rows (id pm) s (js_now e) t Hrows).
Qed.

(** The part of step 5 the route does implement: a caller that is not yet
    matched and finds no candidate, or whose claim request comes back with
    an error, is enqueued as waiting and answered [searching]. *)
Lemma tryMatch_without_claim_waits (s : string) (c : ChatType) (e : Env)
    (t : Table) :
  unique_sessions t -> s <> "" ->
  matched_partner (existingEntry s t) = None ->
  potentialMatch s c t = None \/ update_error e = true ->
  fst (POST s c e t) = matched_false searching /\
  exists r, existingEntry s (snd (POST s c e t)) = Some r /\
            matched_with r = None.
Proof.
  intros Hu Hs Hex Hcase. unfold POST.
  apply String.eqb_neq in Hs. rewrite Hs, Hex.
  destruct (upsert_waiting_entry s c e t Hu) as [r [Hr [_ [_ [Hn _]]]]].
  destruct (potentialMatch s c t) as [pm|].
  - destruct Hcase as [Hcase | Hcase]; [discriminate|]. rewrite Hcase.
    split; [reflexivity|]. exists r. auto.
  - split; [reflexivity|]. exists r. auto.
Qed.

(** C2, on the code: the session ["a"] selects the waiting entry [E], the
    session ["b"] then runs its whole tryMatch and claims [E], and ["a"]
    resumes.  Its conditional update matches no row, yet it comes back without
    an error, so ["a"] records the pairing and answers [matched: true]
    instead of enqueueing itself as waiting and answering [searching]: [E] is
    matched with ["b"] while both ["a"] and ["b"] are told to talk to
    ["e"]. *)
Theorem lost_claim_still_reports_match :
  let E := mkEntry 1 "e" video None None 0 in
  let cA := mkCall "a" video (mkEnv 20 21 false) in
  let cB := mkCall "b" video (mkEnv 10 11 false) in
  let '(pcA1, pcB1, t1) :=
    interleave cA cB [A; A; B; B; B; B] (start "a") (start "b") [E] in
  let '(pcA2, pcB2, t2) := interleave cA cB [A; A] pcA1 pcB1 t1 in
  pcA1 = at_claim E /\
  pcB1 = done (matched_true "e") /\
  find_id 1 t1 = Some (set_match "b" 10 E) /\
  rows_affected 1 t1 = 0 /\
  pcA2 = done (matched_true "e") /\
  pcA2 <> done (matched_false searching) /\
  find_id 1 t2 = Some (set_match "b" 10 E) /\
  existingEntry "a" t2 = Some (mkEntry 3 "a" video (Some "e") (Some 20) 21).
Proof.
  cbv zeta. vm_compute. repeat split; try reflexivity. discriminate.
Qed.

End LostRace.

(** ** Room name and initiator *)

Section RoomProperties.
Import WebRTC.

Lemma lt_asym (a b : string) : lt a b = true -> lt b a = false.
Proof.
  unfold lt, String.ltb. rewrite (String.compare_antisym b a).
  destruct (String.compare a b); simpl; congruence.
Qed.

Lemma lt_total (a b : string) : a <> b -> lt a b = true \/ lt b a = true.
Proof.
  intros Hne. unfold lt, String.ltb.
  rewrite (String.compare_antisym b a).
  destruct (String.compare a b) eqn:E; simpl; auto.
  apply String.compare_eq_iff in E. congruence.
Qed.

Lemma lt_irrefl (a : string) : lt a a = false.
Proof.
  destruct (lt a a) eqn:E; [|reflexivity].
  pose proof (lt_asym a a E). congruence.
Qed.

Lemma sort_pair (a b : string) :
  sort [a; b] = if lt b a then [b; a] else [a; b].
Proof. reflexivity. Qed.


(** C6.  Of two participants with distinct ids exactly one elects itself
    initiator: the one whose id sorts first.  Each side decides from the two
    ids alone. *)
Theorem exactly_one_initiator :
  forall a b : string,
    a <> b ->
    (isInitiator a b = true /\ isInitiator b a = false /\
     sort [a; b] = [a; b]) \/
    (isInitiator a b = false /\ isInitiator b a = true /\
     sort [a; b] = [b; a]).
Proof.
  intros a b Hne. unfold isInitiator. rewrite sort_pair.
  destruct (lt_total a b Hne) as [H | H].
  - left. now rewrite H, (lt_asym a b H).
  - right. now rewrite H, (lt_asym b a H).
Qed.

Lemma exactly_one_initiator_witness :
  (isInitiator "user_1_ab" "user_2_cd" = true /\
   isInitiator "user_2_cd" "user_1_ab" = false /\
   sort ["user_1_ab"; "user_2_cd"] = ["user_1_ab"; "user_2_cd"]) \/
  (isInitiator "user_1_ab" "user_2_cd" = false /\
   isInitiator "user_2_cd" "user_1_ab" = true /\
   sort ["user_1_ab"; "user_2_cd"] = ["user_2_cd"; "user_1_ab"]).
Proof.
  apply exactly_one_initiator. discriminate.
Defined.

End RoomProperties.

(** ** ICE candidate buffering *)

Section IceProperties.
Import Ice.

Lemma one_connection_init (me : string) : one_connection (init me).
Proof.
  unfold one_connection, init. cbn. repeat split; auto. discriminate.
Qed.

Lemma calls_at_app (site site' : Site) (c : RTCIceCandidate)
    (pc : RTCPeerConnection) (me : string) (p : list RTCIceCandidate)
    (d : list (list RTCIceCandidate)) :
  calls_at site (mkHook me (Some (addIceCandidate site' c pc)) p d) =
  calls_at site (mkHook me (Some pc) p d) ++
  match site', site with
  | immediate, immediate | drained, drained => [c]
  | _, _ => []
  end.
Proof.
  unfold calls_at, calls, addIceCandidate. cbn [pcRef added].
  rewrite filter_app, map_app. cbn [filter fst snd map].
  destruct site', site; cbn [map]; reflexivity.
Qed.

Lemma resume_at_shape (i : nat) (ds : list (list RTCIceCandidate)) :
  List.length ds <= 1 ->
  match resume_at i ds with
  | (Some c, ds') => exists cs, ds = [c :: cs] /\ ds' = [cs]
  | (None, ds') => (ds' = ds /\ (ds = [] \/ 0 < i)) \/ (ds = [[]] /\ ds' = [])
  end.
Proof.
  destruct ds as [|d [|d' ds]]; cbn [List.length]; intros H; try lia.
  - destruct i; cbn; auto.
  - destruct i as [|i]; cbn [resume_at].
    + destruct d as [|c cs]; eauto.
    + cbn. left. split; auto. right. lia.
Qed.

Ltac ice_finish :=
  unfold calls; cbn [pcRef added app concat List.length];
  repeat split; intros; auto; try discriminate; try congruence;
  rewrite ?app_nil_r, <- ?app_assoc; auto.

(** One event: the invariant is kept, the identity and an established
    remote description stay, and the candidate it delivers is accounted for
    on the side the state of the remote description decides. *)
Lemma handle_accounts (h : Hook) (ev : Event) :
  one_connection h ->
  let h' := handle h ev in
  one_connection h' /\
  myId h' = myId h /\
  (has_remoteDescription h = true -> has_remoteDescription h' = true) /\
  (has_remoteDescription h = false ->
   has_remoteDescription h' =
   match ev with remote_description_set => true | _ => false end) /\
  buffered h' =
    buffered h ++
    (if has_remoteDescription h then [] else addressed (myId h) ev) /\
  calls_at immediate h' =
    calls_at immediate h ++
    (if has_remoteDescription h then addressed (myId h) ev else []) /\
  (match ev with
   | drain_called => has_remoteDescription h = true ->
                     pendingCandidatesRef h' = []
   | _ => pendingCandidatesRef h = [] -> has_remoteDescription h = true ->
          pendingCandidatesRef h' = []
   end).
Proof.
  destruct h as [me [pc|] pend ds];
    unfold one_connection, has_remoteDescription, buffered;
    cbn [pcRef myId pendingCandidatesRef draining];
    intros [Hpc [Hpre [Hor Hlen]]]; [|congruence].
  destruct pc as [rd log]. cbn [remoteDescription] in *.
  assert (Hfresh : rd = false -> ds = [] /\ log = []).
  { intros Hrd. destruct (Hpre Hrd) as [H1 H2]. split; auto. }
  clear Hpre.
  destruct rd; [|destruct (Hfresh eq_refl) as [-> ->]]; clear Hfresh;
    (destruct ev as [to c | | | i]; cbn [handle addressed]).
  - (* ice_candidate, remote description set *)
    unfold on_ice_candidate. cbn [myId pcRef remoteDescription].
    rewrite String.eqb_sym.
    destruct (me =? to)%string eqn:Eto; cbn [negb];
      cbn [pcRef myId pendingCandidatesRef draining remoteDescription];
      rewrite ?calls_at_app; ice_finish.
  - cbn [setRemoteDescription pcRef myId pendingCandidatesRef draining
         remoteDescription added]. ice_finish.
  - (* drain_called, remote description set *)
    unfold addPendingCandidates. cbn [pcRef remoteDescription].
    destruct pend as [|c cs];
      cbn [pcRef myId pendingCandidatesRef draining remoteDescription].
    + ice_finish.
    + destruct Hor as [Hor | ->]; [discriminate|].
      rewrite !calls_at_app. ice_finish.
  - (* drain_resumed, remote description set *)
    unfold resume. cbn [draining pcRef myId pendingCandidatesRef].
    pose proof (resume_at_shape i ds Hlen) as Hshape.
    destruct (resume_at i ds) as [[c|] ds'].
    + destruct Hshape as [cs [-> ->]].
      cbn [pcRef myId pendingCandidatesRef draining remoteDescription].
      rewrite !calls_at_app.
      destruct Hor as [-> | Hor]; [|discriminate]. ice_finish.
    + cbn [pcRef myId pendingCandidatesRef draining remoteDescription].
      destruct Hshape as [[-> _] | [-> ->]]; ice_finish.
  - (* ice_candidate, no remote description yet *)
    unfold on_ice_candidate. cbn [myId pcRef remoteDescription].
    rewrite String.eqb_sym.
    destruct (me =? to)%string eqn:Eto; cbn [negb];
      cbn [pcRef myId pendingCandidatesRef draining remoteDescription];
      ice_finish.
  - cbn [setRemoteDescription pcRef myId pendingCandidatesRef draining
         remoteDescription added]. ice_finish.
  - unfold addPendingCandidates.
    cbn [pcRef myId pendingCandidatesRef draining remoteDescription].
    ice_finish.
  - unfold resume. cbn [draining resume_at].
    cbn [pcRef myId pendingCandidatesRef draining remoteDescription].
    ice_finish.
Qed.

(** A whole trace, from any state of one connection. *)
Lemma run_accounts (tr : list Event) :
  forall h : Hook,
    one_connection h ->
    let h' := run h tr in
    one_connection h' /\
    myId h' = myId h /\
    buffered h' =
      buffered h ++
      (if has_remoteDescription h then []
       else arrivals_before (myId h) tr) /\
    calls_at immediate h' =
      calls_at immediate h ++
      (if has_remoteDescription h then arrivals (myId h) tr
       else arrivals_after (myId h) tr) /\
    (has_remoteDescription h = true -> pendingCandidatesRef h = [] ->
     pendingCandidatesRef h' = []) /\
    (drain_requested (has_remoteDescription h) tr = true ->
     pendingCandidatesRef h' = []).
Proof.
  induction tr as [|ev tr IH]; intros h Hinv; cbn [run fold_left].
  - cbn [arrivals_before arrivals arrivals_after drain_requested].
    destruct (has_remoteDescription h); rewrite !app_nil_r;
      (split; [assumption|]); repeat split; auto; discriminate.
  - destruct (handle_accounts h ev Hinv)
      as [Hinv1 [Hid [Hmono [Hset [Hbuf [Himm Hpend]]]]]].
    destruct (IH (handle h ev) Hinv1)
      as [Hinv' [Hid' [Hbuf' [Himm' [Hkeep' Hreq']]]]].
    fold (run (handle h ev) tr) in *.
    rewrite Hid in *. rewrite Hbuf', Himm', Hbuf, Himm.
    split; [assumption|]. split; [assumption|].
    destruct (has_remoteDescription h) eqn:Hrd.
    + rewrite (Hmono eq_refl) in *. rewrite !app_nil_r.
      assert (Harr : arrivals (myId h) (ev :: tr) =
                     addressed (myId h) ev ++ arrivals (myId h) tr).
      { destruct ev as [to c| | |i]; cbn [arrivals addressed]; auto.
        destruct (to =? myId h)%string; reflexivity. }
      rewrite Harr, app_assoc.
      repeat split; auto.
      * intros _ Hp. apply Hkeep'; auto.
        destruct ev; auto.
      * intros Hreq. destruct ev as [to c| | |i];
          cbn [drain_requested orb] in Hreq; auto.
    + rewrite (Hset eq_refl) in *. rewrite !app_nil_r.
      destruct ev as [to c| | |i];
        cbn [arrivals_before arrivals_after addressed drain_requested orb];
        rewrite ?app_nil_r;
        try (repeat split; auto; discriminate).
      destruct (to =? myId h)%string; rewrite <- ?app_assoc;
        repeat split; auto; discriminate.
Qed.

Lemma run_app (h : Hook) (tr1 tr2 : list Event) :
  run h (tr1 ++ tr2) = run (run h tr1) tr2.
Proof. apply fold_left_app. Qed.

Lemma run_cons (h : Hook) (ev : Event) (tr : list Event) :
  run h (ev :: tr) = run (handle h ev) tr.
Proof. reflexivity. Qed.

Lemma resume_first (h : Hook) (pc : RTCPeerConnection)
    (cs : list RTCIceCandidate) :
  pcRef h = Some pc -> draining h = [cs] ->
  resume 0 h =
  match cs with
  | [] => mkHook (myId h) (Some pc) (pendingCandidatesRef h) []
  | c :: cs' =>
      mkHook (myId h) (Some (addIceCandidate drained c pc))
             (pendingCandidatesRef h) [cs']
  end.
Proof.
  intros Hpc Hd. unfold resume. rewrite Hd, Hpc.
  destruct cs; reflexivity.
Qed.

(** A running loop ends: resumed once per candidate it holds and once
    more, it is gone. *)
Lemma drain_completes (cs : list RTCIceCandidate) :
  forall h : Hook,
    pcRef h <> None -> draining h = [cs] ->
    draining (run h (repeat (drain_resumed 0) (S (List.length cs)))) = [].
Proof.
  induction cs as [|c cs IH]; intros h Hpc Hd;
    destruct (pcRef h) as [pc|] eqn:E; try congruence;
    cbn [List.length repeat]; rewrite run_cons; cbn [handle];
    rewrite (resume_first h pc _ E Hd).
  - reflexivity.
  - apply IH; cbn [pcRef draining]; [discriminate | reflexivity].
Qed.

Lemma resumes_deliver_nothing (me : string) (n : nat) :
  arrivals_before me (repeat (drain_resumed 0) n) = [] /\
  arrivals me (repeat (drain_resumed 0) n) = [] /\
  arrivals_after me (repeat (drain_resumed 0) n) = [].
Proof. induction n; cbn; auto. Qed.

Lemma resumes_keep_buffer (n : nat) :
  forall h : Hook,
    pendingCandidatesRef (run h (repeat (drain_resumed 0) n)) =
    pendingCandidatesRef h.
Proof.
  induction n as [|n IH]; intros h; cbn [repeat run fold_left handle];
    [reflexivity|].
  fold (run (resume 0 h) (repeat (drain_resumed 0) n)). rewrite IH.
  unfold resume. destruct (resume_at 0 (draining h)) as [[c|] ds];
    destruct (pcRef h); reflexivity.
Qed.

(** C7.  Along any sequence of events of one peer connection: the
    candidates addressed to the local peer that arrive before the remote
    description is set go through the buffer, those that arrive after are
    added at once, in arrival order; what the draining loop has added, what
    it still holds and what the buffer holds are together exactly the
    candidates that arrived before, in arrival order, each once; once
    [addPendingCandidates] has been called after the remote description was
    set the buffer is empty; and the loop ends, after which the candidates
    added by the drain are exactly those that were buffered. *)
Theorem candidates_buffered_then_drained_once :
  forall (me : string) (tr : list Event),
    let h := run (init me) tr in
    calls_at immediate h = arrivals_after me tr /\
    calls_at drained h ++ concat (draining h) ++ pendingCandidatesRef h =
      arrivals_before me tr /\
    (drain_requested false tr = true -> pendingCandidatesRef h = []) /\
    exists n,
      let h' := run (init me) (tr ++ repeat (drain_resumed 0) n) in
      draining h' = [] /\
      calls_at immediate h' = arrivals_after me tr /\
      (drain_requested false tr = true ->
       pendingCandidatesRef h' = [] /\
       calls_at drained h' = arrivals_before me tr).
Proof.
  intros me tr h.
  destruct (run_accounts tr (init me) (one_connection_init me))
    as [Hinv [Hid [Hbuf [Himm [_ Hreq]]]]].
  fold h in Hinv, Hid, Hbuf, Himm, Hreq.
  cbn in Hbuf, Himm, Hreq.
  repeat split; auto.
  assert (Hn : exists n, draining (run h (repeat (drain_resumed 0) n)) = []).
  { destruct Hinv as [Hpc [_ [_ Hlen]]].
    destruct (draining h) as [|cs [|cs' ds]] eqn:Hd.
    - exists 0. exact Hd.
    - exists (S (List.length cs)). now apply drain_completes.
    - cbn [List.length] in Hlen. lia. }
  destruct Hn as [n Hn]. exists n. rewrite run_app. fold h.
  destruct (run_accounts (repeat (drain_resumed 0) n) h Hinv)
    as [_ [_ [Hbuf' [Himm' _]]]].
  destruct (resumes_deliver_nothing (myId h) n) as [Hb [Ha Haf]].
  rewrite Hb in Hbuf'. rewrite Ha, Haf in Himm'.
  assert (Hi : calls_at immediate (run h (repeat (drain_resumed 0) n)) =
               calls_at immediate h).
  { rewrite Himm'. destruct (has_remoteDescription h); apply app_nil_r. }
  assert (Hbf : buffered (run h (repeat (drain_resumed 0) n)) = buffered h).
  { rewrite Hbuf'. destruct (has_remoteDescription h); apply app_nil_r. }
  split; [exact Hn|]. split; [now rewrite Hi|].
  intros Hr. split.
  - rewrite resumes_keep_buffer. auto.
  - unfold buffered in Hbf at 1.
    rewrite Hn, resumes_keep_buffer, (Hreq Hr) in Hbf.
    cbn [concat app] in Hbf. rewrite app_nil_r in Hbf.
    rewrite Hbf. exact Hbuf.
Qed.

Lemma candidates_buffered_then_drained_once_witness :
  let tr := [ice_candidate "me" "c1"; ice_candidate "you" "x";
             ice_candidate "me" "c2"; remote_description_set; drain_called;
             ice_candidate "me" "c3"] in
  exists n,
    let h' := run (init "me") (tr ++ repeat (drain_resumed 0) n) in
    draining h' = [] /\
    calls_at immediate h' = ["c3"] /\
    (true = true ->
     pendingCandidatesRef h' = [] /\ calls_at drained h' = ["c1"; "c2"]).
Proof.
  intros tr.
  destruct (candidates_buffered_then_drained_once "me" tr) as [_ [_ [_ H]]].
  exact H.
Defined.

End IceProperties.

(** ** The connection manager *)

Section ListenerProperties.
Import ConnectionManager.

Lemma ConnectionState_eqb_spec (a b : ConnectionState) :
  reflect (a = b) (ConnectionState_eqb a b).
Proof. destruct a, b; simpl; constructor; congruence. Qed.

(** [forEach] notifies the listeners up to the first one that throws,
    that one included; it throws what that listener throws. *)
Lemma forEach_until_throw (ls : list Listener) (s : ConnectionState) :
  (Forall (fun l => listener_call l s = None) ls /\
   forEach ls s = (map (notification s) ls, None)) \/
  (exists before l after e,
     ls = before ++ l :: after /\
     Forall (fun b => listener_call b s = None) before /\
     listener_call l s = Some e /\
     forEach ls s = (map (notification s) (before ++ [l]), Some e)).
Proof.
  induction ls as [|l ls IH]; cbn [forEach map].
  - left. split; [constructor | reflexivity].
  - destruct (listener_call l s) as [e|] eqn:E.
    + right. exists [], l, ls, e. repeat split; auto.
    + destruct IH as [[Hall Heq] | [before [l' [after [e [Hls [Hb [Hl Heq]]]]]]]];
        rewrite Heq.
      * left. split; [constructor; assumption | reflexivity].
      * right. exists (l :: before), l', after, e. subst ls.
        repeat split; auto.
Qed.

Lemma deliveries_app (i : nat) (evs1 evs2 : list Event) :
  deliveries i (evs1 ++ evs2) = deliveries i evs1 + deliveries i evs2.
Proof.
  unfold deliveries, notifications.
  now rewrite flat_map_app, filter_app, length_app.
Qed.

Lemma deliveries_notifications (i : nat) (s : ConnectionState)
    (ls : list Listener) :
  deliveries i (map (notification s) ls) =
  List.length (filter (fun l => listener_id l =? i) ls).
Proof.
  unfold deliveries, notifications.
  induction ls as [|l ls IH]; cbn [map flat_map filter notification app fst];
    [reflexivity|].
  destruct (listener_id l =? i); cbn [List.length]; now rewrite IH.
Qed.

Lemma occurrences_absent (i : nat) (ls : list Listener) :
  ~ In i (map listener_id ls) ->
  List.length (filter (fun l => listener_id l =? i) ls) = 0.
Proof.
  induction ls as [|l ls IH]; cbn [map filter]; intros H; [reflexivity|].
  destruct (Nat.eqb_spec (listener_id l) i) as [Heq | Hne].
  - exfalso. apply H. now left.
  - apply IH. intros Hin. apply H. now right.
Qed.

Lemma occurrences_distinct (l : Listener) (ls : list Listener) :
  NoDup (map listener_id ls) -> In l ls ->
  List.length (filter (fun x => listener_id x =? listener_id l) ls) = 1.
Proof.
  induction ls as [|x ls IH]; cbn [map filter]; intros Hnd Hin;
    [contradiction|].
  inversion Hnd as [|? ? Hx Hls]; subst.
  destruct Hin as [-> | Hin].
  - rewrite Nat.eqb_refl. cbn [List.length]. f_equal.
    now apply occurrences_absent.
  - destruct (Nat.eqb_spec (listener_id x) (listener_id l)) as [Heq | Hne].
    + exfalso. apply Hx. rewrite Heq. now apply in_map.
    + now apply IH.
Qed.

Lemma occurrences_le_1 (i : nat) (ls : list Listener) :
  NoDup (map listener_id ls) ->
  List.length (filter (fun x => listener_id x =? i) ls) <= 1.
Proof.
  induction ls as [|x ls IH]; cbn [map filter]; intros Hnd;
    [cbn; lia|].
  inversion Hnd as [|? ? Hx Hls]; subst.
  destruct (Nat.eqb_spec (listener_id x) i) as [Heq | Hne].
  - cbn [List.length]. subst i. rewrite occurrences_absent; auto.
  - now apply IH.
Qed.

Lemma NoDup_app_l {X : Type} (l1 l2 : list X) :
  NoDup (l1 ++ l2) -> NoDup l1.
Proof.
  induction l1 as [|x l1 IH]; cbn [app]; intros H; [constructor|].
  inversion H as [|? ? Hx Hl]; subst. constructor.
  - intros Hin. apply Hx. apply in_app_iff. now left.
  - now apply IH.
Qed.

(** [subscribe] and [unsubscribe] keep the listeners distinct. *)
Lemma distinct_listeners_subscribe (l : Listener) (m : Manager) :
  distinct_listeners m -> distinct_listeners (subscribe l m).
Proof.
  unfold distinct_listeners, subscribe. intros H.
  destruct (existsb _ (listeners m)) eqn:E; [assumption|].
  cbn [listeners]. rewrite map_app. cbn [map].
  apply NoDup_snoc; [assumption|].
  intros Hin. apply in_map_iff in Hin as [x [Hx Hin]].
  assert (Ht : existsb (fun x => listener_id x =? listener_id l)
                 (listeners m) = true).
  { apply existsb_exists. exists x. split; auto. now apply Nat.eqb_eq. }
  congruence.
Qed.

Lemma distinct_listeners_unsubscribe (l : Listener) (m : Manager) :
  distinct_listeners m -> distinct_listeners (unsubscribe l m).
Proof. apply NoDup_map_filter. Qed.

(** C10.  [setState] with the state the manager is already in changes
    nothing and notifies nobody.  With another state, the state is changed and
    no subscriber is notified twice: the notifications made all carry the new
    state, each subscriber gets at most one, and exactly one when the
    delivery runs to its end. *)
Theorem setState_notifies_actual_changes_once :
  forall (m : Manager) (s : ConnectionState),
    distinct_listeners m ->
    let '(m', evs, x) := setState s m in
    (state m = s -> m' = m /\ evs = [] /\ x = None) /\
    (state m <> s ->
     state m' = s /\ listeners m' = listeners m /\
     (forall i s', In (i, s') (notifications evs) -> s' = s) /\
     (forall i, deliveries i evs <= 1) /\
     (x = None ->
      forall l, In l (listeners m) -> deliveries (listener_id l) evs = 1)).
Proof.
  intros m s Hnd. unfold setState, notifyListeners.
  destruct (ConnectionState_eqb_spec (state m) s) as [Heq | Hne];
    cbn [negb].
  - split; [auto | congruence].
  - cbn [listeners state].
    destruct (forEach_until_throw (listeners m) s)
      as [[Hall Hfe] | [before [l [after [e [Hls [Hb [Hl Hfe]]]]]]]];
      rewrite Hfe.
    + split; [congruence|]. intros _. repeat split.
      * intros i s' Hin. unfold notifications in Hin.
        apply in_flat_map in Hin as [ev [Hev Hin]].
        apply in_map_iff in Hev as [l [<- _]].
        cbn in Hin. destruct Hin as [[= _ <-] | []]. reflexivity.
      * intros i. rewrite deliveries_notifications.
        now apply occurrences_le_1.
      * intros _ l Hin. rewrite deliveries_notifications.
        now apply occurrences_distinct.
    + split; [congruence|]. intros _. repeat split.
      * intros i s' Hin. unfold notifications in Hin.
        apply in_flat_map in Hin as [ev [Hev Hin]].
        apply in_map_iff in Hev as [l0 [<- _]].
        cbn in Hin. destruct Hin as [[= _ <-] | []]. reflexivity.
      * intros i. rewrite deliveries_notifications.
        apply occurrences_le_1. unfold distinct_listeners in Hnd.
        rewrite Hls in Hnd.
        replace (before ++ l :: after) with ((before ++ [l]) ++ after)
          in Hnd by now rewrite <- app_assoc.
        rewrite map_app in Hnd. now apply NoDup_app_l in Hnd.
      * discriminate.
Qed.

Lemma setState_notifies_actual_changes_once_witness :
  let l1 := mkListener 1 (fun _ => None) in
  let l2 := mkListener 2 (fun _ => None) in
  let m := subscribe l2 (subscribe l1 (new DEFAULT_CONFIG)) in
  let '(m', evs, x) := setState connecting m in
  (state m = connecting -> m' = m /\ evs = [] /\ x = None) /\
  (state m <> connecting ->
   state m' = connecting /\ listeners m' = listeners m /\
   (forall i s', In (i, s') (notifications evs) -> s' = connecting) /\
   (forall i, deliveries i evs <= 1) /\
   (x = None ->
    forall l, In l (listeners m) -> deliveries (listener_id l) evs = 1)).
Proof.
  intros l1 l2 m.
  apply (setState_notifies_actual_changes_once m connecting).
  apply distinct_listeners_subscribe, distinct_listeners_subscribe.
  constructor.
Defined.

End ListenerProperties.

Section ListenerIsolation.
Import ConnectionManager.

Lemma forEach_app (before rest : list Listener) (s : ConnectionState) :
  Forall (fun b => listener_call b s = None) before ->
  forEach (before ++ rest) s =
  (map (notification s) before ++ fst (forEach rest s),
   snd (forEach rest s)).
Proof.
  induction 1 as [|b before Hb Hall IH]; cbn [app forEach map].
  - now destruct (forEach rest s).
  - rewrite Hb, IH. reflexivity.
Qed.

(** The notifications made are those of a prefix of the listeners. *)
Lemma forEach_prefix (ls : list Listener) (s : ConnectionState) :
  exists pre post,
    ls = pre ++ post /\ fst (forEach ls s) = map (notification s) pre.
Proof.
  destruct (forEach_until_throw ls s)
    as [[_ Hfe] | [before [l [after [e [Hls [_ [_ Hfe]]]]]]]]; rewrite Hfe.
  - exists ls, []. now rewrite app_nil_r.
  - exists (before ++ [l]), after. now rewrite <- app_assoc.
Qed.

Lemma NoDup_app_disjoint {X : Type} (l1 l2 : list X) (x : X) :
  NoDup (l1 ++ l2) -> In x l2 -> ~ In x l1.
Proof.
  induction l1 as [|y l1 IH]; cbn [app]; intros Hnd Hin2 Hin1;
    [contradiction|].
  inversion Hnd as [|? ? Hy Hl]; subst.
  destruct Hin1 as [-> | Hin1].
  - apply Hy. apply in_app_iff. now right.
  - now apply (IH Hl Hin2).
Qed.

(** C9 as stated does not hold: with a first listener that throws, the
    second one is not notified of the change. *)
Lemma throwing_listener_breaks_delivery :
  ~ (forall (m : Manager) (s : ConnectionState) (l : Listener),
       distinct_listeners m -> state m <> s -> In l (listeners m) ->
       1 <= deliveries (listener_id l) (snd (fst (setState s m)))).
Proof.
  intros H.
  pose (l1 := mkListener 1 (fun _ => Some "boom")).
  pose (l2 := mkListener 2 (fun _ => None)).
  specialize (H (subscribe l2 (subscribe l1 (new DEFAULT_CONFIG)))
                connecting l2).
  assert (Hd : 1 <= 0); [|lia].
  apply H.
  - apply distinct_listeners_subscribe, distinct_listeners_subscribe.
    constructor.
  - discriminate.
  - cbn. auto.
Qed.

(** C9, amended.  On a state change a listener receives the notification,
    once, when no listener subscribed before it throws during the delivery.
    The exception of a listener ends the delivery: it is thrown to the caller
    of [setState], and the listeners subscribed after it are not notified. *)
Theorem delivery_reaches_listeners_up_to_first_throw :
  forall (m : Manager) (s : ConnectionState)
         (before : list Listener) (l : Listener) (after : list Listener),
    distinct_listeners m -> state m <> s ->
    listeners m = before ++ l :: after ->
    Forall (fun b => listener_call b s = None) before ->
    let '(m', evs, x) := setState s m in
    state m' = s /\
    deliveries (listener_id l) evs = 1 /\
    (forall e, listener_call l s = Some e ->
       x = Some e /\
       forall a, In a after -> deliveries (listener_id a) evs = 0).
Proof.
  intros m s before l after Hnd Hne Hls Hquiet.
  unfold setState, notifyListeners.
  destruct (ConnectionState_eqb_spec (state m) s) as [Heq | _];
    [contradiction|]. cbn [negb listeners state].
  unfold distinct_listeners in Hnd. rewrite Hls in *.
  rewrite (forEach_app before (l :: after) s Hquiet).
  cbn [forEach].
  destruct (listener_call l s) as [e|] eqn:El; cbn [fst snd].
  - assert (Hpre : NoDup (map listener_id (before ++ [l]))).
    { replace (before ++ l :: after) with ((before ++ [l]) ++ after)
        in Hnd by now rewrite <- app_assoc.
      rewrite map_app in Hnd. now apply NoDup_app_l in Hnd. }
    replace (map (notification s) before ++ [notified (listener_id l) s])
      with (map (notification s) (before ++ [l]))
      by now rewrite map_app.
    split; [reflexivity|]. split.
    + rewrite deliveries_notifications. apply occurrences_distinct; auto.
      apply in_app_iff. right. now left.
    + intros e' [= <-]. split; [reflexivity|].
      intros a Ha. rewrite deliveries_notifications.
      apply occurrences_absent.
      replace (before ++ l :: after) with ((before ++ [l]) ++ after)
        in Hnd by now rewrite <- app_assoc.
      rewrite map_app in Hnd.
      apply (NoDup_app_disjoint _ _ (listener_id a) Hnd).
      now apply in_map.
  - destruct (forEach_prefix after s) as [pre [post [Hafter Hevs]]].
    destruct (forEach after s) as [evs' x'] eqn:Hfe. cbn [fst snd] in *.
    subst evs'.
    replace (map (notification s) before ++
             notified (listener_id l) s :: map (notification s) pre)
      with (map (notification s) (before ++ l :: pre))
      by (rewrite map_app; reflexivity).
    split; [reflexivity|]. split; [|discriminate].
    rewrite deliveries_notifications. apply occurrences_distinct.
    + subst after.
      replace (before ++ l :: pre ++ post)
        with ((before ++ l :: pre) ++ post) in Hnd
        by (rewrite <- app_assoc; reflexivity).
      rewrite map_app in Hnd. now apply NoDup_app_l in Hnd.
    + apply in_app_iff. right. now left.
Qed.

Lemma delivery_reaches_listeners_up_to_first_throw_witness :
  let l1 := mkListener 1 (fun _ => None) in
  let l2 := mkListener 2 (fun _ => Some "boom") in
  let l3 := mkListener 3 (fun _ => None) in
  let m := subscribe l3 (subscribe l2 (subscribe l1 (new DEFAULT_CONFIG))) in
  let '(m', evs, x) := setState connecting m in
  state m' = connecting /\
  deliveries 2 evs = 1 /\
  (forall e, Some "boom" = Some e ->
     x = Some e /\ forall a, In a [l3] -> deliveries (listener_id a) evs = 0).
Proof.
  intros l1 l2 l3 m.
  apply (delivery_reaches_listeners_up_to_first_throw
           m connecting [l1] l2 [l3]).
  - repeat apply distinct_listeners_subscribe. constructor.
  - discriminate.
  - reflexivity.
  - repeat constructor.
Defined.

End ListenerIsolation.

Section Backoff.
Import ConnectionManager.


Lemma waits_notifications (s : ConnectionState) (ls : list Listener) :
  waits (map (notification s) ls) = [].
Proof. induction ls; cbn; auto. Qed.

(** With listeners that do not throw, [setState] only sets the state. *)
Lemma setState_quiet (s : ConnectionState) (m : Manager) :
  quiet m ->
  exists m' evs,
    setState s m = (m', evs, None) /\
    state m' = s /\ retryCount m' = retryCount m /\
    config m' = config m /\ listeners m' = listeners m /\
    waits evs = [].
Proof.
  intros Hq. unfold setState, notifyListeners.
  destruct (ConnectionState_eqb_spec (state m) s) as [Heq | Hne];
    cbn [negb].
  - exists m, []. repeat split; auto.
  - cbn [listeners state].
    destruct (forEach_until_throw (listeners m) s)
      as [[_ Hfe] | [before [l [after [e [Hls [_ [Hl _]]]]]]]].
    + rewrite Hfe. eexists _, _. repeat split.
      apply waits_notifications.
    + exfalso. assert (Hin : In l (listeners m)).
      { rewrite Hls. apply in_app_iff. right. now left. }
      rewrite (Hq l Hin s) in Hl. discriminate.
Qed.

Section Operation.
Context {T : Type}.
Variable operation : nat -> Outcome T.
Variable onRetry : bool.



Variable cfg : ConnectionConfig.
Variable n : nat.
Hypothesis n_le : n <= maxRetries cfg.
Hypothesis fails_before_n :
  forall i, i < n -> failure (operation i) <> None.
Hypothesis succeeds_at_n :
  n < maxRetries cfg -> failure (operation n) = None.

End Operation.

(** [setState] touches no field but [state]. *)
Lemma setState_fields (s : ConnectionState) (m : Manager) :
  let m' := fst (fst (setState s m)) in
  retryCount m' = retryCount m /\ config m' = config m /\
  listeners m' = listeners m.
Proof.
  unfold setState. destruct (negb _); [|cbn; auto].
  destruct (notifyListeners _). cbn. auto.
Qed.

Lemma attempt_caught_fields {T : Type} (operation : nat -> Outcome T)
    (k k' : nat) (m m1 : Manager) (evs : list Event) (e : Error) :
  attempt operation k m = (m1, evs, inr e, k') ->
  retryCount m1 = retryCount m /\ config m1 = config m.
Proof.
  unfold attempt.
  pose proof (setState_fields
                (if retryCount m =? 0 then connecting else reconnecting) m)
    as H1.
  destruct (setState _ m) as [[m' ev1] x1]. cbn [fst] in H1.
  destruct x1 as [e1|].
  - intros [= <- _ _ _]. tauto.
  - destruct (operation k) as [v | e' | ].
    + pose proof (setState_fields connected m') as H2.
      destruct (setState connected m') as [[m2 ev2] x2]. cbn [fst] in H2.
      destruct x2; [|discriminate].
      intros [= <- _ _ _]. split; destruct H1, H2; intuition congruence.
    + intros [= <- _ _ _]. tauto.
    + intros [= <- _ _ _]. tauto.
Qed.

(** The loop ends within [maxRetries] iterations, whatever the operation
    and the listeners do: [retry] always comes back. *)
Lemma retry_loop_returns {T : Type} (operation : nat -> Outcome T)
    (onRetry : bool) (fuel : nat) :
  forall (k : nat) (lastError : option Error) (m : Manager),
    maxRetries (config m) - retryCount m <= fuel ->
    retry_loop operation onRetry fuel k lastError m <> None.
Proof.
  induction fuel as [|fuel IH]; intros k lastError m Hfuel;
    cbn [retry_loop];
    destruct (Nat.ltb_spec (retryCount m) (maxRetries (config m)))
      as [Hlt | Hge]; try lia.
  - destruct (setState failed m) as [[m1 ev1] [e|]]; discriminate.
  - destruct (attempt operation k m) as [[[m1 ev1] r] k'] eqn:Ha.
    destruct r as [v | e]; [discriminate|].
    destruct (attempt_caught_fields operation k k' m m1 ev1 e Ha)
      as [Hrc Hc].
    destruct (caught onRetry m1) as [m2 ev2] eqn:Hcaught.
    assert (Hm2 : retryCount m2 = S (retryCount m) /\ config m2 = config m).
    { unfold caught in Hcaught. cbn [retryCount config set_retryCount] in Hcaught.
      destruct (_ <? _); injection Hcaught as <- _; cbn; split; congruence. }
    destruct Hm2 as [Hrc2 Hc2].
    specialize (IH k' (Some e) m2).
    destruct (retry_loop operation onRetry fuel k' (Some e) m2)
      as [[[m3 ev3] res]|]; [discriminate|].
    apply IH. rewrite Hc2, Hrc2. lia.
  - destruct (setState failed m) as [[m1 ev1] [e|]]; discriminate.
Qed.

Lemma retry_returns {T : Type} (operation : nat -> Outcome T)
    (onRetry : bool) (m : Manager) :
  retry operation onRetry m <> None.
Proof.
  unfold retry. apply retry_loop_returns. cbn. lia.
Qed.




(** The delays of the spec's example: 1000 ms, 1500 ms and 2250 ms are
    the waits after the first, second and third failure; the third one is
    scheduled only when a fourth attempt exists. *)
Example backoff_example :
  let cfg3 := mkConfig 3 1000 (3 # 2) 30000 25000 in
  (backoff cfg3 1 == 1000 /\ backoff cfg3 2 == 1500 /\
   backoff cfg3 3 == 2250)%Q /\
  match retry (T := unit) (fun _ => rejects "boom") false
              (new (mkConfig 4 1000 (3 # 2) 30000 25000)) with
  | Some (_, evs, _) => Forall2 Qeq (waits evs) [1000; 1500; 2250]%Q
  | None => False
  end.
Proof.
  split.
  - repeat split; reflexivity.
  - vm_compute. repeat constructor.
Qed.

End Backoff.

(** * Further properties of the code *)

(** ** The matchmaking route beyond the claims *)

Section RouteProperties.
Import Matchmaking.
Import QueueInvariants.

Lemma filter_idempotent {X : Type} (p : X -> bool) (l : list X) :
  filter p (filter p l) = filter p l.
Proof.
  induction l as [|x l IH]; cbn [filter]; [reflexivity|].
  destruct (p x) eqn:E; cbn [filter]; rewrite ?E, IH; reflexivity.
Qed.

Lemma session_not_in_delete (s : string) (t : Table) :
  ~ In s (map session_id (delete s t)).
Proof.
  intros Hin. apply in_map_iff in Hin as [r [Hr Hin]].
  apply filter_In in Hin as [_ Hne]. unfold neq_session_id in Hne.
  rewrite Hr, String.eqb_refl in Hne. discriminate.
Qed.

(** Under the unique constraint the select of lines 16-20 and 96-100 finds
    the row of the session. *)
Lemma existingEntry_of_row (s : string) (t : Table) (r : QueueEntry) :
  unique_sessions t -> In r t -> session_id r = s ->
  existingEntry s t = Some r.
Proof.
  intros Hu Hin Hs.
  assert (H1 : entries_of s t = 1).
  { apply entries_of_present; auto. rewrite <- Hs. now apply in_map. }
  unfold entries_of in H1. unfold existingEntry.
  assert (Hsel : In r (select [eq_session_id s] t)).
  { apply filter_In. split; auto. now apply matches_eq_session_id. }
  destruct (select [eq_session_id s] t) as [|x [|y l]]; try discriminate.
  destruct Hsel as [-> | []]. reflexivity.
Qed.

(** X1.  Cancel always succeeds for a non-empty session id, whether or not
    the session has an entry: afterwards the session has none and polls as
    idle, the entries of the other sessions are exactly those from before,
    and cancelling again changes nothing. *)
Theorem cancel_is_idempotent :
  forall (s : string) (t : Table),
    s <> "" ->
    let t' := snd (DELETE s t) in
    fst (DELETE s t) = success_true /\
    entries_of s t' = 0 /\
    (forall r, session_id r <> s -> (In r t' <-> In r t)) /\
    DELETE s t' = (success_true, t') /\
    GET s t' = (matched_false idle, t').
Proof.
  intros s t Hs. apply String.eqb_neq in Hs.
  unfold DELETE, GET. rewrite Hs. cbn [fst snd].
  split; [reflexivity|]. split.
  - apply entries_of_absent, session_not_in_delete.
  - split.
    + intros r Hr. unfold delete. rewrite filter_In. unfold neq_session_id.
      apply String.eqb_neq in Hr. rewrite Hr. cbn. tauto.
    + split.
      * unfold delete. now rewrite filter_idempotent.
      * rewrite (existingEntry_absent s (delete s t)
                   (session_not_in_delete s t)).
        reflexivity.
Qed.

Lemma cancel_is_idempotent_witness :
  let t := [mkEntry 1 "e" video (Some "a") (Some 3) 0;
            mkEntry 2 "a" video (Some "e") (Some 3) 2] in
  let t' := snd (DELETE "a" t) in
  fst (DELETE "a" t) = success_true /\
  entries_of "a" t' = 0 /\
  (forall r, session_id r <> "a" -> (In r t' <-> In r t)) /\
  DELETE "a" t' = (success_true, t') /\
  GET "a" t' = (matched_false idle, t').
Proof.
  intros t. apply (cancel_is_idempotent "a" t). discriminate.
Defined.

(** X2.  Poll is a pure read that reports the entry of the session: idle
    without an entry, searching with an entry that has no partner, and the
    partner once [matched_with] holds one. *)
Theorem pollMatch_reports_the_entry :
  forall (s : string) (t : Table),
    unique_sessions t -> s <> "" ->
    snd (GET s t) = t /\
    (~ In s (map session_id t) -> fst (GET s t) = matched_false idle) /\
    (forall r, In r t -> session_id r = s ->
       fst (GET s t) =
       match matched_with r with
       | Some p => if (p =? "")%string then matched_false searching
                   else matched_true p
       | None => matched_false searching
       end).
Proof.
  intros s t Hu Hs. apply String.eqb_neq in Hs. unfold GET. rewrite Hs.
  split; [destruct (matched_partner _); reflexivity|]. split.
  - intros Hno. now rewrite (existingEntry_absent s t Hno).
  - intros r Hin Hr. rewrite (existingEntry_of_row s t r Hu Hin Hr).
    unfold matched_partner, truthy.
    destruct (matched_with r) as [p|]; [|reflexivity].
    destruct (p =? "")%string; reflexivity.
Qed.

Lemma pollMatch_reports_the_entry_witness :
  let t := [mkEntry 1 "e" video (Some "a") (Some 3) 0;
            mkEntry 2 "w" text None None 2] in
  snd (GET "w" t) = t /\
  (~ In "w" (map session_id t) -> fst (GET "w" t) = matched_false idle) /\
  (forall r, In r t -> session_id r = "w" ->
     fst (GET "w" t) =
     match matched_with r with
     | Some p => if (p =? "")%string then matched_false searching
                 else matched_true p
     | None => matched_false searching
     end).
Proof.
  intros t. apply (pollMatch_reports_the_entry "w" t).
  - repeat constructor; simpl; intuition discriminate.
  - discriminate.
Defined.

Lemma In_claim_unchanged (r : QueueEntry) (pid : nat) (s : string)
    (now : Timestamp) (t : Table) :
  In r t -> matched_with r <> None \/ id r <> pid ->
  In r (claim pid s now t).
Proof.
  intros Hin Hcase. unfold claim. apply in_map_iff. exists r. split; auto.
  destruct (matches [eq_id pid; is_matched_with_null] r) eqn:M;
    [|reflexivity].
  apply matches_claim_filters in M as [M1 M2].
  destruct Hcase; congruence.
Qed.

Lemma In_claim_inv (r' : QueueEntry) (pid : nat) (s : string)
    (now : Timestamp) (t : Table) :
  In r' (claim pid s now t) ->
  In r' t \/
  exists r, In r t /\ id r = pid /\ matched_with r = None /\
            r' = set_match s now r.
Proof.
  unfold claim. intros Hin. apply in_map_iff in Hin as [r [Hr Hin]].
  destruct (matches [eq_id pid; is_matched_with_null] r) eqn:M.
  - apply matches_claim_filters in M as [M1 M2]. right. exists r. auto.
  - left. now subst r'.
Qed.

Lemma In_upsert_inv (r' : QueueEntry) (s : string) (c : ChatType)
    (mw : option string) (mat : option Timestamp) (dbn : Timestamp)
    (t : Table) :
  In r' (upsert s c mw mat dbn t) -> session_id r' = s \/ In r' t.
Proof.
  unfold upsert. destruct (existsb (eq_session_id s) t).
  - intros Hin. apply in_map_iff in Hin as [r [Hr Hin]].
    destruct (eq_session_id s r); subst r'; auto.
  - intros Hin. apply in_app_iff in Hin as [Hin | [<- | []]]; auto.
Qed.






(** X4.  The re-check of step 1: a session whose entry already holds a
    partner gets that partner again from tryMatch, whatever chat type it asks
    for and whoever waits, and the table is left as it is. *)
Theorem matched_session_is_not_paired_again :
  forall (t : Table) (s : string) (c : ChatType) (e : Env)
         (r : QueueEntry) (p : string),
    unique_sessions t -> s <> "" ->
    In r t -> session_id r = s -> matched_with r = Some p -> p <> "" ->
    POST s c e t = (matched_true p, t).
Proof.
  intros t s c e r p Hu Hs Hin Hr Hmw Hp. unfold POST.
  apply String.eqb_neq in Hs. rewrite Hs.
  rewrite (existingEntry_of_row s t r Hu Hin Hr).
  unfold matched_partner, truthy. rewrite Hmw.
  apply String.eqb_neq in Hp. now rewrite Hp.
Qed.

Lemma matched_session_is_not_paired_again_witness :
  let t := [mkEntry 1 "e" video (Some "a") (Some 3) 0;
            mkEntry 2 "a" video (Some "e") (Some 3) 2;
            mkEntry 3 "w" video None None 4] in
  POST "a" text (mkEnv 10 11 false) t = (matched_true "e", t).
Proof.
  intros t.
  apply (matched_session_is_not_paired_again t "a" text (mkEnv 10 11 false)
           (mkEntry 2 "a" video (Some "e") (Some 3) 2) "e").
  - repeat constructor; simpl; intuition discriminate.
  - discriminate.
  - simpl. auto.
  - reflexivity.
  - reflexivity.
  - discriminate.
Defined.



(** X6.  tryMatch writes at most two rows, the caller's and the
    candidate's: every other row of the table is in the table afterwards, and
    every row found afterwards is the caller's, a row from before, or the
    claimed candidate with the caller written as its partner. *)
Theorem tryMatch_touches_caller_and_candidate_only :
  forall (t : Table) (s : string) (c : ChatType) (e : Env),
    (forall r, In r t -> session_id r <> s ->
       (forall pm, potentialMatch s c t = Some pm -> id r <> id pm) ->
       In r (snd (POST s c e t))) /\
    (forall r', In r' (snd (POST s c e t)) ->
       session_id r' = s \/ In r' t \/
       exists pm r, potentialMatch s c t = Some pm /\ In r t /\
                    id r = id pm /\ matched_with r = None /\
                    r' = set_match s (js_now e) r).
Proof.
  intros t s c e. unfold POST, upsert_waiting, upsert_matched. split.
  - intros r Hin Hne Hcand.
    destruct (s =? "")%string; [assumption|].
    destruct (matched_partner _); [assumption|].
    destruct (potentialMatch s c t) as [pm|]; [destruct (update_error e)|];
      cbn [snd]; apply In_upsert_other; auto.
    apply In_claim_unchanged; auto.
  - intros r' Hin.
    destruct (s =? "")%string; [auto|].
    destruct (matched_partner _); [auto|].
    destruct (potentialMatch s c t) as [pm|]; [destruct (update_error e)|];
      cbn [snd] in Hin; apply In_upsert_inv in Hin as [Hs | Hin]; auto.
    apply In_claim_inv in Hin as [Hin | [r [Hr [Hid [Hnull Heq]]]]]; auto.
    right. right. exists pm, r. auto.
Qed.

Lemma tryMatch_touches_caller_and_candidate_only_witness :
  let W := mkEntry 1 "w" video None None 0 in
  let X := mkEntry 2 "x" video None None 1 in
  let e := mkEnv 10 11 false in
  In X (snd (POST "a" video e [W; X])).
Proof.
  intros W X e.
  destruct (tryMatch_touches_caller_and_candidate_only [W; X] "a" video e)
    as [H _].
  apply H.
  - simpl. auto.
  - discriminate.
  - intros pm [= <-]. discriminate.
Defined.

Lemma unique_ids_inj (t : Table) (a b : QueueEntry) :
  unique_ids t -> In a t -> In b t -> id a = id b -> a = b.
Proof.
  unfold unique_ids. induction t as [|x t IH]; cbn [map]; intros Hu Ha Hb Hid;
    [contradiction|].
  inversion Hu as [|? ? Hx Ht]; subst.
  destruct Ha as [-> | Ha]; destruct Hb as [-> | Hb]; auto.
  - exfalso. apply Hx. rewrite Hid. now apply in_map.
  - exfalso. apply Hx. rewrite <- Hid. now apply in_map.
Qed.

Lemma fresh_id_is_fresh (t : Table) : ~ In (fresh_id t) (map id t).
Proof.
  assert (H : forall x, In x (map id t) ->
                        x <= fold_right Nat.max 0 (map id t)).
  { induction (map id t) as [|y l IH]; cbn [fold_right]; intros x Hx.
    - contradiction.
    - destruct Hx as [-> | Hx]; [lia|]. specialize (IH x Hx). lia. }
  intros Hin. specialize (H _ Hin). unfold fresh_id in H. lia.
Qed.

Lemma unique_ids_upsert (s : string) (c : ChatType) (mw : option string)
    (mat : option Timestamp) (dbn : Timestamp) (t : Table) :
  unique_ids t -> unique_ids (upsert s c mw mat dbn t).
Proof.
  unfold unique_ids, upsert. intros Hu.
  destruct (existsb (eq_session_id s) t).
  - rewrite map_map.
    replace (map (fun x => id (if eq_session_id s x
                               then mkEntry (id x) s c mw mat (created_at x)
                               else x)) t)
      with (map id t); [assumption|].
    apply map_ext. intros r. destruct (eq_session_id s r); reflexivity.
  - rewrite map_app. cbn [map id].
    apply NoDup_snoc; [assumption | apply fresh_id_is_fresh].
Qed.

(** The primary keys stay distinct through tryMatch. *)
Lemma unique_ids_POST (s : string) (c : ChatType) (e : Env) (t : Table) :
  unique_ids t -> unique_ids (snd (POST s c e t)).
Proof.
  intros Hu. unfold POST, upsert_waiting, upsert_matched.
  destruct (s =? "")%string; [assumption|].
  destruct (matched_partner _); [assumption|].
  destruct (potentialMatch s c t); [destruct (update_error e)|]; cbn [snd];
    apply unique_ids_upsert; auto.
  unfold unique_ids. now rewrite map_id_claim.
Qed.

(** X7.  Nobody is paired with themselves: the partner tryMatch returns
    is never the caller, and a table in which no entry names its own session
    as partner stays so through tryMatch. *)
Theorem nobody_is_matched_with_themselves :
  forall (t : Table) (s : string) (c : ChatType) (e : Env),
    unique_ids t -> no_self_match t ->
    (forall p, fst (POST s c e t) = matched_true p -> p <> s) /\
    no_self_match (snd (POST s c e t)).
Proof.
  intros t s c e Hu Hinv.
  assert (Hwait : no_self_match (upsert_waiting s c e t)).
  { intros r' Hin. pose proof Hin as Hin'.
    apply In_upsert_inv in Hin' as [Hs | Hold]; [|now apply Hinv].
    destruct (upsert_row_of_session s c None None (db_now e) t r' Hin Hs)
      as [_ [Hmw _]].
    rewrite Hmw. discriminate. }
  unfold POST.
  destruct (String.eqb_spec s "") as [_ | Hs];
    [split; [intros; discriminate | assumption]|].
  destruct (matched_partner (existingEntry s t)) as [p0|] eqn:Hmp.
  - split; [|assumption]. intros p [= <-].
    apply matched_partner_Some in Hmp as [ex [Hex [Hmw _]]].
    apply existingEntry_Some in Hex as [Hin Hsid].
    intros ->. apply (Hinv ex Hin). now rewrite Hmw, Hsid.
  - destruct (potentialMatch s c t) as [pm|] eqn:Hpm;
      [destruct (update_error e)|]; cbn [fst snd];
      try (split; [intros; discriminate | assumption]).
    destruct (potentialMatch_oldest s c t pm Hpm) as [Hpmin [[_ [_ Hne]] _]].
    split; [intros p [= <-]; assumption|].
    intros r' Hin. unfold upsert_matched in Hin. pose proof Hin as Hin'.
    apply In_upsert_inv in Hin' as [Hsid | Hold].
    + destruct (upsert_row_of_session _ _ _ _ _ _ r' Hin Hsid)
        as [_ [Hmw _]].
      rewrite Hmw, Hsid. congruence.
    + apply In_claim_inv in Hold as [Hold | [r [Hr [Hid [_ ->]]]]];
        [now apply Hinv|].
      cbn [matched_with session_id set_match].
      rewrite (unique_ids_inj t r pm Hu Hr Hpmin Hid). congruence.
Qed.

Lemma nobody_is_matched_with_themselves_witness :
  let t := [mkEntry 1 "w" video None None 0;
            mkEntry 2 "a" video None None 1] in
  let e := mkEnv 10 11 false in
  (forall p, fst (POST "a" video e t) = matched_true p -> p <> "a") /\
  no_self_match (snd (POST "a" video e t)).
Proof.
  intros t e. apply (nobody_is_matched_with_themselves t "a" video e).
  - repeat constructor; simpl; intuition discriminate.
  - intros r [<- | [<- | []]]; discriminate.
Defined.

(** X8.  The text and the video queue do not mix: a new session is only
    ever paired with an entry of the chat type it asked for that had no
    partner yet, and when no such entry of another session waits it is
    enqueued and answered [searching], whoever waits for the other type. *)
Theorem pairing_respects_chat_type :
  forall (t : Table) (s : string) (c : ChatType) (e : Env),
    s <> "" -> ~ In s (map session_id t) ->
    (forall p, fst (POST s c e t) = matched_true p ->
       exists w, In w t /\ session_id w = p /\ chat_type w = c /\
                 matched_with w = None /\ p <> s) /\
    ((forall w, In w t -> ~ eligible s c w) ->
     fst (POST s c e t) = matched_false searching).
Proof.
  intros t s c e Hs Hnew. unfold POST.
  apply String.eqb_neq in Hs. rewrite Hs.
  rewrite (existingEntry_absent s t Hnew). cbn [matched_partner].
  destruct (potentialMatch s c t) as [pm|] eqn:Hpm.
  - destruct (potentialMatch_oldest s c t pm Hpm)
      as [Hin [[Hc [Hnull Hne]] _]].
    split.
    + destruct (update_error e); cbn [fst]; intros p [= <-].
      exists pm. auto.
    + intros Hnone. exfalso. apply (Hnone pm Hin). repeat split; auto.
  - split; [cbn [fst]; intros; discriminate | reflexivity].
Qed.

Lemma pairing_respects_chat_type_witness :
  let t := [mkEntry 1 "w" text None None 0;
            mkEntry 2 "x" video (Some "y") (Some 1) 1] in
  let e := mkEnv 10 11 false in
  (forall p, fst (POST "a" video e t) = matched_true p ->
     exists w, In w t /\ session_id w = p /\ chat_type w = video /\
               matched_with w = None /\ p <> "a") /\
  ((forall w, In w t -> ~ eligible "a" video w) ->
   fst (POST "a" video e t) = matched_false searching).
Proof.
  intros t e. apply (pairing_respects_chat_type t "a" video e).
  - discriminate.
  - simpl. intuition discriminate.
Defined.

End RouteProperties.

(** ** The connection manager beyond the claims *)

Section SubscriptionProperties.
Import ConnectionManager.

Lemma filter_none_matches (i : nat) (ls : list Listener) :
  ~ In i (map listener_id ls) ->
  filter (fun x => negb (listener_id x =? i)) ls = ls.
Proof.
  induction ls as [|x ls IH]; cbn [map filter]; intros H; [reflexivity|].
  destruct (Nat.eqb_spec (listener_id x) i) as [Heq | Hne]; cbn [negb].
  - exfalso. apply H. now left.
  - f_equal. apply IH. intros Hin. apply H. now right.
Qed.

Lemma subscribed_after_subscribe (l : Listener) (m : Manager) :
  existsb (fun x => listener_id x =? listener_id l)
          (listeners (subscribe l m)) = true.
Proof.
  unfold subscribe.
  destruct (existsb _ (listeners m)) eqn:E; [assumption|].
  cbn [listeners]. rewrite existsb_app. cbn [existsb].
  now rewrite Nat.eqb_refl, orb_true_r.
Qed.

(** X9.  The listeners are a set of functions: subscribing a listener
    that is subscribed already changes nothing, the function [subscribe]
    returns takes a newly subscribed listener out again and leaves the others
    as they were, and a listener that was unsubscribed is not called by any
    later [setState]. *)
Theorem subscription_behaves_as_a_set :
  forall (m : Manager) (l : Listener),
    subscribe l (subscribe l m) = subscribe l m /\
    (~ In (listener_id l) (map listener_id (listeners m)) ->
     listeners (unsubscribe l (subscribe l m)) = listeners m) /\
    (forall s,
       deliveries (listener_id l)
                  (snd (fst (setState s (unsubscribe l m)))) = 0).
Proof.
  intros m l. split; [|split].
  - unfold subscribe at 1. now rewrite subscribed_after_subscribe.
  - intros Hnew. unfold subscribe.
    destruct (existsb _ (listeners m)) eqn:E.
    + exfalso. apply Hnew. apply existsb_exists in E as [x [Hx Hid]].
      apply Nat.eqb_eq in Hid. rewrite <- Hid. now apply in_map.
    + cbn [unsubscribe listeners state retryCount config].
      rewrite filter_app. cbn [filter]. rewrite Nat.eqb_refl. cbn [negb].
      rewrite app_nil_r. now apply filter_none_matches.
  - intros s. unfold setState, notifyListeners.
    destruct (negb _); [|reflexivity].
    cbn [listeners state unsubscribe].
    set (ls := filter _ (listeners m)).
    destruct (forEach_prefix ls s) as [pre [post [Hls Hevs]]].
    destruct (forEach ls s) as [evs x]. cbn [fst snd] in *. subst evs.
    rewrite deliveries_notifications. apply occurrences_absent.
    intros Hin. apply in_map_iff in Hin as [x0 [Hid Hin]].
    assert (Hin' : In x0 ls) by (rewrite Hls; apply in_app_iff; now left).
    apply filter_In in Hin' as [_ Hne].
    rewrite Hid, Nat.eqb_refl in Hne. discriminate.
Qed.

Lemma subscription_behaves_as_a_set_witness :
  let l1 := mkListener 1 (fun _ => None) in
  let l2 := mkListener 2 (fun _ => Some "boom") in
  let m := subscribe l1 (new DEFAULT_CONFIG) in
  listeners (unsubscribe l2 (subscribe l2 m)) = listeners m.
Proof.
  intros l1 l2 m.
  destruct (subscription_behaves_as_a_set m l2) as [_ [H _]].
  apply H. simpl. intuition discriminate.
Defined.

End SubscriptionProperties.

Section LifecycleProperties.
Import ConnectionManager.
Import ManagerLifecycle.

Lemma setState_same (s : ConnectionState) (m : Manager) :
  state m = s -> setState s m = (m, [], None).
Proof.
  intros H. unfold setState.
  destruct (ConnectionState_eqb_spec (state m) s); [reflexivity | contradiction].
Qed.

Lemma setState_state (s : ConnectionState) (m : Manager) :
  state (fst (fst (setState s m))) = s.
Proof.
  unfold setState.
  destruct (ConnectionState_eqb_spec (state m) s) as [H | H]; cbn [negb].
  - exact H.
  - destruct (notifyListeners _). reflexivity.
Qed.

(** X10.  [reset] leaves the manager idle with a retry count of zero and
    no timer held, and keeps the listeners; the listeners are notified only
    if the state was not idle already.  A second [reset] does nothing at all:
    no timer call, no notification, the same instance. *)
Theorem reset_is_idempotent :
  forall i : Instance,
    let '(i1, calls, evs, x) := reset i in
    state (manager i1) = idle /\
    retryCount (manager i1) = 0 /\
    handles i1 = mkHandles None None /\
    listeners (manager i1) = listeners (manager i) /\
    config (manager i1) = config (manager i) /\
    (state (manager i) = idle -> evs = [] /\ x = None) /\
    reset i1 = (i1, [], [], None).
Proof.
  intros [[st rc cfg ls] [rt hb]]. unfold reset, stopHeartbeat.
  cbn [handles heartbeatId retryTimeoutId manager].
  set (hs := match rt with
             | Some h => (mkHandles None None, [clearTimeout h])
             | None => (mkHandles rt None, [])
             end).
  assert (Hhs : forall (calls0 : list TimerCall) (m : Manager),
            state m = st -> retryCount m = 0 -> config m = cfg ->
            listeners m = ls ->
            let '(m', evs, x) := setState idle m in
            state m' = idle /\ retryCount m' = 0 /\
            listeners m' = ls /\ config m' = cfg /\
            (st = idle -> evs = [] /\ x = None)).
  { intros calls0 m Hst Hrc Hc Hl.
    pose proof (setState_fields idle m) as Hf.
    pose proof (setState_state idle m) as Hs.
    pose proof (setState_same idle m) as Hsame.
    destruct (setState idle m) as [[m' evs] x]. cbn [fst] in *.
    destruct Hf as [Hf1 [Hf2 Hf3]].
    do 4 (split; [congruence|]).
    intros Hi. rewrite Hst in Hsame. specialize (Hsame Hi).
    split; congruence. }
  assert (Hfinal : forall m' : Manager,
            state m' = idle -> retryCount m' = 0 ->
            reset (mkInstance m' (mkHandles None None)) =
            (mkInstance m' (mkHandles None None), [], [], None)).
  { intros [st' rc' cfg' ls'] Hst' Hrc'. cbn in Hst', Hrc'. subst st' rc'.
    reflexivity. }
  destruct hb as [h|]; destruct rt as [t|];
    cbn [handles heartbeatId retryTimeoutId manager set_retryCount state
         retryCount config listeners];
    match goal with
    | |- context [setState idle ?m] =>
        pose proof (Hhs [] m eq_refl eq_refl eq_refl eq_refl) as H;
        destruct (setState idle m) as [[m' evs] x];
        destruct H as [H1 [H2 [H3 [H4 H5]]]];
        cbn [manager handles];
        repeat (split; [assumption || reflexivity|]);
        apply (Hfinal m' H1 H2)
    end.
Qed.

(** X11.  [cleanup] is [reset] followed by the removal of all listeners:
    when [reset] returns, no listener is left and no later [setState] calls
    anyone; when a listener throws on the notification of [idle], the
    exception leaves [cleanup] before [listeners.clear()] and the listeners
    stay subscribed.  In both cases the manager is idle and holds no timer. *)
Theorem cleanup_clears_listeners_unless_one_throws :
  forall i : Instance,
    let '(i1, calls, evs, x) := cleanup i in
    state (manager i1) = idle /\
    retryCount (manager i1) = 0 /\
    handles i1 = mkHandles None None /\
    (x = None ->
     listeners (manager i1) = [] /\
     forall s, snd (fst (setState s (manager i1))) = [] /\
               snd (setState s (manager i1)) = None) /\
    (x <> None -> listeners (manager i1) = listeners (manager i)) /\
    (quiet (manager i) \/ state (manager i) = idle -> x = None).
Proof.
  intros i. unfold cleanup.
  pose proof (reset_is_idempotent i) as Hr.
  assert (Hq : quiet (manager i) \/ state (manager i) = idle ->
               snd (reset i) = None).
  { intros Hcase. unfold reset.
    destruct (stopHeartbeat i) as [i0 c0] eqn:Hstop.
    assert (Hm : manager i0 = manager i).
    { unfold stopHeartbeat in Hstop.
      destruct (heartbeatId (handles i)); injection Hstop as <- _;
        reflexivity. }
    destruct (match retryTimeoutId (handles i0) with
              | Some h => _ | None => _ end) as [hs c2].
    destruct Hcase as [Hquiet | Hidle].
    - destruct (setState_quiet idle (set_retryCount 0 (manager i0)))
        as [m' [evs [Hs _]]].
      { rewrite Hm. exact Hquiet. }
      rewrite Hs. reflexivity.
    - rewrite (setState_same idle (set_retryCount 0 (manager i0))).
      + reflexivity.
      + rewrite Hm. exact Hidle. }
  destruct (reset i) as [[[i1 calls] evs] x].
  destruct Hr as [H1 [H2 [H3 [H4 [H5 [H6 H7]]]]]].
  cbn [snd] in Hq.
  destruct x as [e|]; cbn [manager handles state retryCount listeners config].
  - do 3 (split; [assumption|]).
    split; [intros; discriminate|]. split; [intros _; assumption|].
    assumption.
  - do 3 (split; [assumption|]). split.
    + intros _. split; [reflexivity|]. intros s.
      unfold setState, notifyListeners. destruct (negb _); split; reflexivity.
    + split; [intros Hx; congruence | intros _; reflexivity].
Qed.

Lemma cleanup_clears_listeners_unless_one_throws_witness :
  let l := mkListener 1 (fun _ => Some "boom") in
  let i := mkInstance (mkManager connected 2 DEFAULT_CONFIG [l])
                      (mkHandles (Some 7) (Some 8)) in
  let '(i1, calls, evs, x) := cleanup i in
  x <> None /\ listeners (manager i1) = [l] /\
  state (manager i1) = idle /\ handles i1 = mkHandles None None /\
  calls = [clearInterval 8; clearTimeout 7].
Proof.
  intros l i.
  pose proof (cleanup_clears_listeners_unless_one_throws i) as H.
  cbn in H. cbn.
  destruct H as [H1 [_ [H3 [_ [H5 _]]]]].
  repeat split; auto; discriminate.
Defined.

End LifecycleProperties.

Section HeartbeatProperties.
Import ConnectionManager.
Import ManagerLifecycle.

Lemma live_intervals_app (calls1 calls2 : list TimerCall) (live : list nat) :
  live_intervals (calls1 ++ calls2) live =
  live_intervals calls2 (live_intervals calls1 live).
Proof.
  revert live. induction calls1 as [|c calls1 IH]; intros live;
    cbn [app live_intervals]; [reflexivity|].
  destruct c; apply IH.
Qed.

Lemma stopHeartbeat_intervals (i : Instance) :
  let '(i1, calls) := stopHeartbeat i in
  heartbeatId (handles i1) = None /\
  live_intervals calls (held_interval i) = [].
Proof.
  unfold stopHeartbeat, held_interval.
  destruct (heartbeatId (handles i)) as [h|] eqn:E;
    cbn [handles heartbeatId live_intervals filter].
  - rewrite Nat.eqb_refl. cbn. auto.
  - auto.
Qed.

Lemma reset_intervals (i : Instance) :
  let '(i1, calls, _, _) := reset i in
  heartbeatId (handles i1) = None /\
  live_intervals calls (held_interval i) = [].
Proof.
  unfold reset.
  pose proof (stopHeartbeat_intervals i) as H.
  destruct (stopHeartbeat i) as [i0 c0]. destruct H as [Hh Hl].
  destruct (retryTimeoutId (handles i0)) as [t|];
    destruct (setState idle _) as [[m' evs] x];
    cbn [handles heartbeatId]; rewrite live_intervals_app, Hl;
    split; auto.
Qed.

(** Each operation keeps the interval held in [heartbeatId] the only one
    that is live. *)
Lemma apply_op_intervals (o : Op) (i : Instance) :
  let '(i1, calls) := apply_op o i in
  live_intervals calls (held_interval i) = held_interval i1 /\
  (match o with
   | op_startHeartbeat h => held_interval i1 = [h]
   | _ => held_interval i1 = []
   end).
Proof.
  destruct o as [h| | |]; cbn [apply_op].
  - unfold startHeartbeat.
    pose proof (stopHeartbeat_intervals i) as H.
    destruct (stopHeartbeat i) as [i0 c0]. destruct H as [_ Hl].
    rewrite live_intervals_app, Hl. unfold held_interval. cbn. auto.
  - pose proof (stopHeartbeat_intervals i) as H.
    destruct (stopHeartbeat i) as [i0 c0]. destruct H as [Hh Hl].
    unfold held_interval at 2 3. rewrite Hh. auto.
  - pose proof (reset_intervals i) as H.
    destruct (reset i) as [[[i0 c0] evs] x]. destruct H as [Hh Hl].
    unfold held_interval at 2 3. rewrite Hh. auto.
  - unfold cleanup. pose proof (reset_intervals i) as H.
    destruct (reset i) as [[[i0 c0] evs] x]. destruct H as [Hh Hl].
    destruct x; unfold held_interval at 2 3; cbn [handles]; rewrite Hh;
      auto.
Qed.

Lemma apply_ops_intervals (os : list Op) :
  forall i : Instance,
    let '(i1, calls) := apply_ops os i in
    live_intervals calls (held_interval i) = held_interval i1.
Proof.
  induction os as [|o os IH]; intros i; cbn [apply_ops live_intervals];
    [reflexivity|].
  pose proof (apply_op_intervals o i) as Ho.
  destruct (apply_op o i) as [i1 c1]. destruct Ho as [Ho _].
  specialize (IH i1). destruct (apply_ops os i1) as [i2 c2].
  now rewrite live_intervals_app, Ho.
Qed.

(** X12.  The heartbeat never leaks an interval.  Whatever sequence of
    [startHeartbeat], [stopHeartbeat], [reset] and [cleanup] a new manager
    goes through, the intervals that were set and not cleared are the one
    held in [heartbeatId], so there is at most one; and none is left after
    [stopHeartbeat], [reset] or [cleanup]. *)
Theorem heartbeat_holds_at_most_one_interval :
  forall (c : ConnectionConfig) (os : list Op),
    let '(i, calls) := apply_ops os (new c) in
    live_intervals calls [] = held_interval i /\
    List.length (live_intervals calls []) <= 1 /\
    (forall o,
       (forall h, o <> op_startHeartbeat h) ->
       let '(i', calls') := apply_op o i in
       live_intervals (calls ++ calls') [] = [] /\
       heartbeatId (handles i') = None).
Proof.
  intros c os.
  pose proof (apply_ops_intervals os (new c)) as H.
  destruct (apply_ops os (new c)) as [i calls].
  change (held_interval (new c)) with (@nil nat) in H.
  split; [assumption|]. split.
  - rewrite H. unfold held_interval.
    destruct (heartbeatId (handles i)); cbn; lia.
  - intros o Ho. pose proof (apply_op_intervals o i) as H1.
    destruct (apply_op o i) as [i' calls']. destruct H1 as [H1 H2].
    rewrite live_intervals_app, H, H1.
    destruct o as [h| | |]; try (exfalso; now apply (Ho h));
      (split; [exact H2|]); unfold held_interval in H2;
      destruct (heartbeatId (handles i')); [discriminate | reflexivity |
        discriminate | reflexivity | discriminate | reflexivity].
Qed.

Lemma heartbeat_holds_at_most_one_interval_witness :
  let '(i, calls) :=
    apply_ops [op_startHeartbeat 1; op_startHeartbeat 2; op_reset;
               op_startHeartbeat 3] (new DEFAULT_CONFIG) in
  let '(i', calls') := apply_op op_cleanup i in
  live_intervals (calls ++ calls') [] = [] /\
  heartbeatId (handles i') = None.
Proof.
  pose proof (heartbeat_holds_at_most_one_interval DEFAULT_CONFIG
                [op_startHeartbeat 1; op_startHeartbeat 2; op_reset;
                 op_startHeartbeat 3]) as H.
  cbn in H. destruct H as [_ [_ H]].
  apply (H op_cleanup). intros h. discriminate.
Defined.

End HeartbeatProperties.

Section RetryBounds.
Import ConnectionManager.
Import RetryTrace.



Lemma notifications_only (s : ConnectionState) (ls : list Listener) :
  operation_calls (map (notification s) ls) = [] /\
  onRetry_calls (map (notification s) ls) = [].
Proof. induction ls; cbn; auto. Qed.

(** [setState] calls listeners and nothing else. *)
Lemma setState_events (s : ConnectionState) (m : Manager) :
  let evs := snd (fst (setState s m)) in
  waits evs = [] /\ operation_calls evs = [] /\ onRetry_calls evs = [].
Proof.
  unfold setState, notifyListeners. destruct (negb _); [|cbn; auto].
  cbn [listeners state].
  destruct (forEach_prefix (listeners m) s) as [pre [post [_ Hevs]]].
  destruct (forEach (listeners m) s) as [evs x]. cbn [fst snd] in *.
  subst evs. rewrite waits_notifications.
  destruct (notifications_only s pre). auto.
Qed.


Section General.
Context {T : Type}.
Variable operation : nat -> Outcome T.
Variable onRetry : bool.


End General.


(** X14.  With [maxRetries = 0] the loop is not entered: the operation is
    never called, the manager goes to [failed], and what [retry] throws is the
    initial [lastError], [null]. *)
Theorem retry_without_attempts_throws_null :
  forall (T : Type) (operation : nat -> Outcome T) (onRetry : bool)
         (m : Manager),
    quiet m -> maxRetries (config m) = 0 ->
    exists m' evs,
      retry operation onRetry m = Some (m', evs, thrown None) /\
      operation_calls evs = [] /\ waits evs = [] /\ state m' = failed.
Proof.
  intros T operation onRetry m Hq Hz. unfold retry. rewrite Hz.
  cbn [retry_loop retryCount config set_retryCount]. rewrite Hz.
  cbn [Nat.ltb Nat.leb].
  assert (Hq0 : quiet (set_retryCount 0 m)) by exact Hq.
  destruct (setState_quiet failed (set_retryCount 0 m) Hq0)
    as [m' [evs [Hs [Hst [_ [_ [_ Hw]]]]]]].
  pose proof (setState_events failed (set_retryCount 0 m)) as He.
  rewrite Hs in *. cbn [fst snd] in He. destruct He as [_ [Ho _]].
  exists m', evs. auto.
Qed.

Lemma retry_without_attempts_throws_null_witness :
  exists m' evs,
    retry (fun _ : nat => resolves 7) true
          (new (mkConfig 0 1000 (3 # 2) 30000 25000))
      = Some (m', evs, thrown None) /\
    operation_calls evs = [] /\ waits evs = [] /\ state m' = failed.
Proof.
  apply (retry_without_attempts_throws_null nat (fun _ => resolves 7) true
           (new (mkConfig 0 1000 (3 # 2) 30000 25000))).
  - intros l [].
  - reflexivity.
Defined.

End RetryBounds.

Section RetryPhases.
Import ConnectionManager.
Import RetryTrace.

Lemma states_seen_app (i : nat) (evs1 evs2 : list Event) :
  states_seen i (evs1 ++ evs2) = states_seen i evs1 ++ states_seen i evs2.
Proof.
  unfold states_seen, notifications.
  now rewrite flat_map_app, filter_app, map_app.
Qed.

Lemma states_seen_notifications (i : nat) (s : ConnectionState)
    (ls : list Listener) :
  states_seen i (map (notification s) ls) =
  map (fun _ => s) (filter (fun l => listener_id l =? i) ls).
Proof.
  unfold states_seen, notifications.
  induction ls as [|l ls IH]; cbn [map flat_map filter notification app fst];
    [reflexivity|].
  destruct (listener_id l =? i); cbn [map snd]; now rewrite IH.
Qed.

(** With distinct listeners that do not throw, [setState] tells each
    listener the new state, once, when the state changes. *)
Lemma setState_seen (s : ConnectionState) (m : Manager) (l : Listener) :
  quiet m -> distinct_listeners m -> In l (listeners m) ->
  exists m' evs,
    setState s m = (m', evs, None) /\
    state m' = s /\ retryCount m' = retryCount m /\
    config m' = config m /\ listeners m' = listeners m /\
    states_seen (listener_id l) evs =
      (if ConnectionState_eqb (state m) s then [] else [s]).
Proof.
  intros Hq Hd Hin. unfold setState, notifyListeners.
  destruct (ConnectionState_eqb_spec (state m) s) as [Heq | Hne];
    cbn [negb].
  - exists m, []. repeat split; auto.
  - cbn [listeners state].
    destruct (forEach_until_throw (listeners m) s)
      as [[_ Hfe] | [before [l0 [after [e [Hls [_ [Hl _]]]]]]]].
    + rewrite Hfe. eexists _, _. split; [reflexivity|].
      cbn [state retryCount config listeners].
      do 4 (split; [reflexivity|]).
      rewrite states_seen_notifications.
      pose proof (occurrences_distinct l (listeners m) Hd Hin) as Hone.
      destruct (filter _ (listeners m)) as [|x [|y rest]];
        cbn in Hone; try discriminate. reflexivity.
    + exfalso. assert (Hin0 : In l0 (listeners m)).
      { rewrite Hls. apply in_app_iff. right. now left. }
      rewrite (Hq l0 Hin0 s) in Hl. discriminate.
Qed.

Section Operation.
Context {T : Type}.
Variable operation : nat -> Outcome T.
Variable onRetry : bool.
Variable l : Listener.

Lemma attempt_fails_seen (k : nat) (m : Manager) (e : Error) :
  quiet m -> distinct_listeners m -> In l (listeners m) ->
  retryCount m = k -> state m = entry_state k ->
  failure (operation k) = Some e ->
  exists m1 evs,
    attempt operation k m = (m1, evs, inr e, S k) /\
    retryCount m1 = k /\ config m1 = config m /\
    listeners m1 = listeners m /\ state m1 = entry_state (S k) /\
    states_seen (listener_id l) evs =
      match k with
      | 0 => [connecting]
      | 1 => [reconnecting]
      | _ => []
      end.
Proof.
  intros Hq Hd Hin Hk Hst Hf. unfold attempt.
  destruct (setState_seen
              (if retryCount m =? 0 then connecting else reconnecting)
              m l Hq Hd Hin)
    as [m1 [ev1 [Hs [Hst1 [Hrc [Hc [Hl Hseen]]]]]]].
  rewrite Hs. rewrite Hst, Hk in Hseen. rewrite Hk in Hst1.
  assert (Hres : state m1 = entry_state (S k) /\
                 states_seen (listener_id l)
                   (ev1 ++ [operation_called k]) =
                 match k with
                 | 0 => [connecting]
                 | 1 => [reconnecting]
                 | _ => []
                 end).
  { rewrite states_seen_app, Hseen, Hst1.
    destruct k as [|[|k]]; cbn; auto. }
  destruct Hres as [Hst2 Hseen2].
  destruct (operation k) as [v | e' | ]; cbn [failure] in Hf;
    try discriminate; injection Hf as <-;
    exists m1, (ev1 ++ [operation_called k]);
    repeat split; auto; congruence.
Qed.

Lemma attempt_succeeds_seen (k : nat) (m : Manager) (v : T) :
  quiet m -> distinct_listeners m -> In l (listeners m) ->
  retryCount m = k -> state m = entry_state k ->
  operation k = resolves v ->
  exists m1 evs,
    attempt operation k m = (m1, evs, inl v, S k) /\
    state m1 = connected /\
    states_seen (listener_id l) evs =
      match k with
      | 0 => [connecting; connected]
      | 1 => [reconnecting; connected]
      | _ => [connected]
      end.
Proof.
  intros Hq Hd Hin Hk Hst Hop. unfold attempt.
  destruct (setState_seen
              (if retryCount m =? 0 then connecting else reconnecting)
              m l Hq Hd Hin)
    as [m1 [ev1 [Hs [Hst1 [Hrc [Hc [Hl Hseen]]]]]]].
  rewrite Hs, Hop. rewrite Hst, Hk in Hseen. rewrite Hk in Hst1.
  assert (Hq1 : quiet m1) by (unfold quiet; now rewrite Hl).
  assert (Hd1 : distinct_listeners m1)
    by (unfold distinct_listeners; now rewrite Hl).
  assert (Hin1 : In l (listeners m1)) by now rewrite Hl.
  destruct (setState_seen connected m1 l Hq1 Hd1 Hin1)
    as [m2 [ev2 [Hs2 [Hst2 [_ [_ [_ Hseen2]]]]]]].
  rewrite Hs2. rewrite Hst1 in Hseen2.
  exists (set_retryCount 0 m2), ((ev1 ++ [operation_called k]) ++ ev2).
  split; [reflexivity|]. split; [exact Hst2|].
  rewrite !states_seen_app, Hseen, Hseen2.
  destruct k as [|[|k]]; reflexivity.
Qed.

Variable cfg : ConnectionConfig.
Variable n : nat.
Hypothesis n_le : n <= maxRetries cfg.
Hypothesis fails_before_n :
  forall i, i < n -> failure (operation i) <> None.
Hypothesis succeeds_at_n :
  n < maxRetries cfg -> failure (operation n) = None.

Ltac by_cases :=
  repeat match goal with
    | |- context [?a <=? ?b] => destruct (Nat.leb_spec a b)
    | |- context [?a <? ?b] => destruct (Nat.ltb_spec a b)
    | |- context [?a =? ?b] => destruct (Nat.eqb_spec a b)
    end; cbn [andb app]; try lia; try reflexivity.

Lemma retry_loop_phases (j : nat) :
  forall (k fuel : nat) (lastError : option Error) (m : Manager),
    config m = cfg -> quiet m -> distinct_listeners m ->
    In l (listeners m) ->
    retryCount m = k -> state m = entry_state k -> k + j = n ->
    maxRetries cfg - k <= fuel ->
    exists m' evs res,
      retry_loop operation onRetry fuel k lastError m
        = Some (m', evs, res) /\
      states_seen (listener_id l) evs = phases_from k (maxRetries cfg) n.
Proof.
  induction j as [|j IH];
    intros k fuel lastError m Hc Hq Hd Hin Hk Hst Hkn Hfuel.
  - rewrite Nat.add_0_r in Hkn.
    destruct (Nat.ltb_spec n (maxRetries cfg)) as [Hlt | Hge].
    + destruct fuel as [|fuel]; [lia|]. cbn [retry_loop].
      rewrite Hc, Hk.
      destruct (Nat.ltb_spec k (maxRetries cfg)) as [_ | ?]; [|lia].
      assert (Hok : failure (operation k) = None)
        by (rewrite Hkn; now apply succeeds_at_n).
      destruct (operation k) as [v | e | ] eqn:Hop;
        cbn [failure] in Hok; try discriminate.
      destruct (attempt_succeeds_seen k m v Hq Hd Hin Hk Hst Hop)
        as [m1 [evs [Ha [_ Hseen]]]].
      rewrite Ha. exists m1, evs, (returned v). split; [reflexivity|].
      rewrite Hseen. unfold phases_from. subst n.
      destruct k as [|[|k]]; by_cases.
    + assert (Hn : n = maxRetries cfg) by lia.
      destruct (setState_seen failed m l Hq Hd Hin)
        as [m1 [evs [Hs [_ [_ [_ [_ Hseen]]]]]]].
      assert (Hloop : retry_loop operation onRetry fuel k lastError m =
                      Some (m1, evs, thrown lastError)).
      { destruct fuel; cbn [retry_loop]; rewrite Hc, Hk;
          (destruct (Nat.ltb_spec k (maxRetries cfg)) as [? | _]; [lia|]);
          now rewrite Hs. }
      rewrite Hloop. exists m1, evs, (thrown lastError).
      split; [reflexivity|]. rewrite Hseen, Hst. unfold phases_from.
      assert (Hnf : ConnectionState_eqb (entry_state k) failed = false)
        by (destruct k as [|[|k']]; reflexivity).
      rewrite Hnf, Hkn, Hn.
      destruct (maxRetries cfg) as [|[|M]]; by_cases.
  - assert (Hlt : k < maxRetries cfg) by lia.
    destruct fuel as [|fuel]; [lia|]. cbn [retry_loop].
    rewrite Hc, Hk.
    destruct (Nat.ltb_spec k (maxRetries cfg)) as [_ | ?]; [|lia].
    destruct (failure (operation k)) as [e|] eqn:Hf;
      [|exfalso; apply (fails_before_n k); [lia | assumption]].
    destruct (attempt_fails_seen k m e Hq Hd Hin Hk Hst Hf)
      as [m1 [ev1 [Ha [Hrc1 [Hc1 [Hl1 [Hst1 Hseen1]]]]]]].
    rewrite Ha. unfold caught.
    cbn [retryCount config set_retryCount]. rewrite Hrc1, Hc1, Hc.
    set (m2 := set_retryCount (S k) m1).
    assert (Hq2 : quiet m2) by (unfold quiet, m2; cbn; now rewrite Hl1).
    assert (Hd2 : distinct_listeners m2)
      by (unfold distinct_listeners, m2; cbn; now rewrite Hl1).
    assert (Hin2 : In l (listeners m2)) by (unfold m2; cbn; now rewrite Hl1).
    assert (Hc2 : config m2 = cfg) by (unfold m2; cbn; congruence).
    destruct (IH (S k) fuel (Some e) m2 Hc2 Hq2 Hd2 Hin2 eq_refl Hst1
                 ltac:(lia) ltac:(lia))
      as [m' [ev3 [res [Hloop Hseen3]]]].
    assert (Hev2 : forall ev2,
              ev2 = (if onRetry then [onRetry_called (S k)] else [])
                    ++ [waited (delay m2)] \/ ev2 = [] ->
              states_seen (listener_id l) (ev1 ++ ev2 ++ ev3) =
              phases_from k (maxRetries cfg) n).
    { intros ev2 Hev2. rewrite !states_seen_app, Hseen1, Hseen3.
      assert (Hnil : states_seen (listener_id l) ev2 = []).
      { destruct Hev2 as [-> | ->]; [destruct onRetry|]; reflexivity. }
      rewrite Hnil. unfold phases_from.
      destruct k as [|[|k]]; by_cases. }
    destruct (S k <? maxRetries cfg); rewrite Hloop;
      eexists m', _, res; (split; [reflexivity|]); apply Hev2; auto.
Qed.

End Operation.

(** X15.  However many times [retry] retries, a listener hears of each
    phase once.  Started from [idle] with listeners that do not throw, a
    [retry] whose operation fails [n] times (and then succeeds, if an attempt
    is left) notifies each listener of [connecting] at the first attempt, of
    [reconnecting] at the second attempt only, and of the outcome,
    [connected] or [failed]. *)
Theorem retry_notifies_each_phase_once :
  forall (T : Type) (operation : nat -> Outcome T) (onRetry : bool)
         (m : Manager) (n : nat) (l : Listener),
    quiet m -> distinct_listeners m -> In l (listeners m) ->
    state m = idle ->
    n <= maxRetries (config m) ->
    (forall i, i < n -> failure (operation i) <> None) ->
    (n < maxRetries (config m) -> failure (operation n) = None) ->
    exists m' evs res,
      retry operation onRetry m = Some (m', evs, res) /\
      states_seen (listener_id l) evs = phases (maxRetries (config m)) n.
Proof.
  intros T operation onRetry m n l Hq Hd Hin Hst Hle Hfail Hok.
  unfold retry.
  apply (retry_loop_phases operation onRetry l (config m) n Hle Hfail Hok
           n 0 (maxRetries (config m)) None (set_retryCount 0 m));
    auto; cbn; lia.
Qed.

Lemma retry_notifies_each_phase_once_witness :
  let l := mkListener 1 (fun _ => None) in
  let m := subscribe l (new DEFAULT_CONFIG) in
  exists m' evs res,
    retry (fun _ : nat => @rejects unit "boom") false m
      = Some (m', evs, res) /\
    states_seen 1 evs = [connecting; reconnecting; failed].
Proof.
  intros l m.
  apply (retry_notifies_each_phase_once unit (fun _ => rejects "boom") false
           m 5 l).
  - intros x [<- | []] s. reflexivity.
  - repeat constructor. simpl. tauto.
  - simpl. auto.
  - reflexivity.
  - cbn. lia.
  - intros i _. discriminate.
  - cbn. lia.
Defined.

End RetryPhases.

(** ** The error taxonomy *)

Section ErrorProperties.
Import ErrorHandler.

Lemma lower_idempotent (a : Ascii.ascii) : lower (lower a) = lower a.
Proof. destruct a as [[] [] [] [] [] [] [] []]; vm_compute; reflexivity. Qed.

Lemma toLowerCase_idempotent (s : string) :
  toLowerCase (toLowerCase s) = toLowerCase s.
Proof.
  induction s as [|a s IH]; cbn [toLowerCase]; [reflexivity|].
  now rewrite lower_idempotent, IH.
Qed.

Lemma includes_cons (a : Ascii.ascii) (s sub : string) :
  includes (String a s) sub = String.prefix sub (String a s) || includes s sub.
Proof. reflexivity. Qed.

(** X16.  [parseError] sorts what was caught into one of five codes and
    keeps its text: the result is [createError] of that code with the text as
    details, so a non-empty text follows the code's message after [": "].  A
    value that is not an [Error] is always [UNKNOWN_ERROR], and so is an
    [Error] with an empty message, whose result has the bare message.  The
    class of an [Error] does not depend on the case of its message. *)
Theorem parseError_classifies_and_keeps_the_text :
  forall err : Thrown,
    let e := parseError err in
    In (code e) [NETWORK_ERROR; CONNECTION_TIMEOUT; MEDIA_ACCESS_DENIED;
                 MEDIA_NOT_SUPPORTED; UNKNOWN_ERROR] /\
    e = createError (code e) (Some (text_of err)) /\
    (text_of err <> "" ->
     message e =
     (info_message (ERROR_MAP (code e)) ++ ": " ++ text_of err)%string) /\
    (text_of err = "" -> e = createError UNKNOWN_ERROR None) /\
    (forall str, err = a_value str -> code e = UNKNOWN_ERROR) /\
    (forall msg, err = an_Error msg ->
       code e = code (parseError (an_Error (toLowerCase msg)))).
Proof.
  intros err e.
  assert (Hshape : In (code e) [NETWORK_ERROR; CONNECTION_TIMEOUT;
                                MEDIA_ACCESS_DENIED; MEDIA_NOT_SUPPORTED;
                                UNKNOWN_ERROR] /\
                   e = createError (code e) (Some (text_of err))).
  { subst e. destruct err as [msg | str]; cbn [parseError text_of].
    - repeat match goal with
        | |- context [if ?b then _ else _] => destruct b
        end; cbn [code createError]; split; auto; simpl; tauto.
    - cbn [code createError]. split; auto. simpl. tauto. }
  destruct Hshape as [Hin Heq]. split; [assumption|]. split; [assumption|].
  split; [|split; [|split]].
  - intros Hne. rewrite Heq. cbn [createError message code].
    apply String.eqb_neq in Hne. now rewrite Hne.
  - intros Hempty. subst e. destruct err as [msg | str];
      cbn [text_of] in Hempty; subst; reflexivity.
  - intros str ->. reflexivity.
  - intros msg ->. subst e. cbn [parseError].
    rewrite toLowerCase_idempotent.
    repeat match goal with
      | |- context [if ?b then _ else _] => destruct b
      end; reflexivity.
Qed.

Lemma parseError_classifies_and_keeps_the_text_witness :
  message (parseError (an_Error "Failed to FETCH")) =
  "Network connection failed: Failed to FETCH".
Proof.
  destruct (parseError_classifies_and_keeps_the_text
              (an_Error "Failed to FETCH")) as [_ [_ [H _]]].
  apply H. discriminate.
Defined.

(** The text of what was caught is all of the parsed message that can hold
    the two markers [setupMedia] looks for. *)
Lemma markers_come_from_the_text (err : Thrown) (marker : string) :
  marker = "Permission denied" \/ marker = "NotAllowed" ->
  includes (message (parseError err)) marker =
  includes (text_of err) marker.
Proof.
  intros Hm.
  destruct (parseError_classifies_and_keeps_the_text err)
    as [Hin [Heq _]].
  rewrite Heq. cbn [createError message].
  destruct (String.eqb_spec (text_of err) "") as [Hempty | _].
  - rewrite Hempty.
    destruct Hin as [<- | [<- | [<- | [<- | [<- | []]]]]];
      destruct Hm as [-> | ->]; reflexivity.
  - destruct Hin as [<- | [<- | [<- | [<- | [<- | []]]]]];
      destruct Hm as [-> | ->];
      cbn [ERROR_MAP info_message append];
      repeat (rewrite includes_cons; simpl (String.prefix _ _);
              cbn [orb]);
      reflexivity.
Qed.

(** X17.  The error [setupMedia] reports depends on the text of what
    [getUserMedia] threw, and on its case: it is [MEDIA_ACCESS_DENIED] exactly
    when that text contains ["Permission denied"] or ["NotAllowed"] as
    written, and [MEDIA_NOT_SUPPORTED] otherwise, whatever class
    [parseError] gave the error. *)
Theorem setupMedia_reports_by_the_text_thrown :
  forall err : Thrown,
    setupMedia_error err =
    (if includes (text_of err) "Permission denied"
        || includes (text_of err) "NotAllowed"
     then createError MEDIA_ACCESS_DENIED None
     else createError MEDIA_NOT_SUPPORTED None) /\
    recoverable (setupMedia_error err) = false.
Proof.
  intros err. unfold setupMedia_error.
  rewrite !markers_come_from_the_text by auto.
  split; [reflexivity|].
  destruct (includes (text_of err) "Permission denied"
            || includes (text_of err) "NotAllowed"); reflexivity.
Qed.

End ErrorProperties.

(** ** The peer connection hook *)

Section PeerHookProperties.
Import ErrorHandler.
Import PeerHook.

Lemma count_effect_app (p : Effect -> bool) (e1 e2 : list Effect) :
  count_effect p (e1 ++ e2) = count_effect p e1 + count_effect p e2.
Proof. unfold count_effect. now rewrite filter_app, length_app. Qed.

Ltac hook_cases :=
  repeat match goal with
    | |- context [match ?x with _ => _ end] =>
        match type of x with
        | bool => destruct x eqn:?
        | option _ => destruct x eqn:?
        | nat => destruct x eqn:?
        | IceConnectionState => destruct x eqn:?
        | PeerConnectionState => destruct x eqn:?
        | TimerKind => destruct x eqn:?
        | prod _ _ => is_var x; destruct x
        end
    end.

Ltac attempts_done :=
  repeat match goal with
    | H : (_ <? _) = true |- _ => apply Nat.ltb_lt in H
    | H : (_ <? _) = false |- _ => apply Nat.ltb_ge in H
    end;
  cbn; split;
  [lia | let H := fresh in intros H; first [discriminate H | lia]].

(** What one event does to the count of reconnect attempts. *)
Lemma handle_reconnectAttempts (ev : Event) (h : Hook) :
  reconnectAttemptsRef h <= MAX_RECONNECT_ATTEMPTS ->
  let '(h', effs) := handle ev h in
  reconnectAttemptsRef h' <= MAX_RECONNECT_ATTEMPTS /\
  (is_ice_connected_event ev = false ->
   reconnectAttemptsRef h' =
   reconnectAttemptsRef h + count_effect is_restart_after_failed effs).
Proof.
  unfold MAX_RECONNECT_ATTEMPTS. intros Hle.
  destruct h as [me partner st err rs pc ch rsr ini pend att mnt sent rdy
                 ctr rtr ts nh fl].
  cbn [reconnectAttemptsRef] in Hle.
  destruct ev as [s | s | t | from | sub snt | ok | | ];
    cbn [handle is_ice_connected_event];
    unfold oniceconnectionstatechange, onconnectionstatechange, timer_fires,
      timer_callback, on_ready, on_channel_status, sendOffer_ends, unmount,
      cleanup, sendOffer, safeSetConnectionStatus, safeSetError,
      safeSetRemoteStream, schedule, set_retryTimeoutRef, is_pc_connected,
      is_ice_disconnected, MAX_RECONNECT_ATTEMPTS;
    cbn [pcRef channelRef offerSentRef mountedRef isInitiatorRef timers
         reconnectAttemptsRef connectionTimeoutRef retryTimeoutRef
         offers_in_flight partnerId next_handle with_pc with_status
         with_error with_remoteStream with_reconnectAttempts with_mounted
         with_offerSent with_partnerReady with_offers_in_flight with_timers];
    rewrite ?count_effect_app;
    hook_cases; attempts_done.
Qed.

Lemma run_reconnectAttempts (tr : list Event) :
  forall h : Hook,
    reconnectAttemptsRef h <= MAX_RECONNECT_ATTEMPTS ->
    let '(h', effs) := run tr h in
    reconnectAttemptsRef h' <= MAX_RECONNECT_ATTEMPTS /\
    (forallb (fun ev => negb (is_ice_connected_event ev)) tr = true ->
     reconnectAttemptsRef h' =
     reconnectAttemptsRef h + count_effect is_restart_after_failed effs).
Proof.
  induction tr as [|ev tr IH]; intros h Hle; cbn [run forallb].
  - cbn. split; [assumption | intros; lia].
  - pose proof (handle_reconnectAttempts ev h Hle) as H1.
    destruct (handle ev h) as [h1 eff1]. destruct H1 as [Hle1 Heq1].
    specialize (IH h1 Hle1). destruct (run tr h1) as [h2 eff2].
    destruct IH as [Hle2 Heq2]. split; [assumption|].
    intros Hall. apply andb_true_iff in Hall as [Hev Hrest].
    apply negb_true_iff in Hev.
    rewrite count_effect_app, (Heq2 Hrest), (Heq1 Hev). lia.
Qed.

(** X18.  ICE failures are retried a bounded number of times.  Between
    two reports of a connected transport, at most [MAX_RECONNECT_ATTEMPTS] = 3
    ICE restarts are made in answer to [failed], whatever else happens in
    between; and when three were made, the next [failed] makes none: the
    status becomes [failed] and the error [WEBRTC_FAILED]. *)
Theorem ice_restarts_are_bounded :
  forall (me partner : string) (tr1 tr2 : list Event),
    forallb (fun ev => negb (is_ice_connected_event ev)) tr2 = true ->
    let '(h1, _) := run tr1 (setup me partner) in
    let '(h2, effs) := run tr2 h1 in
    count_effect is_restart_after_failed effs <= MAX_RECONNECT_ATTEMPTS /\
    reconnectAttemptsRef h2 =
      reconnectAttemptsRef h1 + count_effect is_restart_after_failed effs /\
    (reconnectAttemptsRef h2 = MAX_RECONNECT_ATTEMPTS ->
     pcRef h2 <> None -> mountedRef h2 = true ->
     let '(h3, effs3) := handle (ice_state_changed ice_failed) h2 in
     effs3 = [] /\ connectionStatus h3 = failed /\
     error h3 = Some (createError WEBRTC_FAILED None)).
Proof.
  intros me partner tr1 tr2 Hno.
  pose proof (run_reconnectAttempts tr1 (setup me partner)) as H1.
  destruct (run tr1 (setup me partner)) as [h1 e1].
  destruct H1 as [Hle1 _]; [cbn; unfold MAX_RECONNECT_ATTEMPTS; lia|].
  pose proof (run_reconnectAttempts tr2 h1 Hle1) as H2.
  destruct (run tr2 h1) as [h2 effs]. destruct H2 as [Hle2 Heq2].
  specialize (Heq2 Hno). split; [lia|]. split; [assumption|].
  intros Hmax Hpc Hm.
  destruct h2 as [me2 partner2 st err rs pc ch rsr ini pend att mnt sent rdy
                  ctr rtr ts nh fl].
  cbn [reconnectAttemptsRef pcRef mountedRef] in Hmax, Hpc, Hm.
  subst att mnt. destruct pc as [pc|]; [|congruence].
  cbn. auto.
Qed.

Lemma ice_restarts_are_bounded_witness :
  let tr2 := [ice_state_changed ice_failed; ice_state_changed ice_checking;
              ice_state_changed ice_failed; ice_state_changed ice_disconnected;
              ice_state_changed ice_failed] in
  let '(h1, _) := run [ice_state_changed ice_connected] (setup "a" "b") in
  let '(h2, effs) := run tr2 h1 in
  count_effect is_restart_after_failed effs <= MAX_RECONNECT_ATTEMPTS /\
  reconnectAttemptsRef h2 =
    reconnectAttemptsRef h1 + count_effect is_restart_after_failed effs /\
  (reconnectAttemptsRef h2 = MAX_RECONNECT_ATTEMPTS ->
   pcRef h2 <> None -> mountedRef h2 = true ->
   let '(h3, effs3) := handle (ice_state_changed ice_failed) h2 in
   effs3 = [] /\ connectionStatus h3 = failed /\
   error h3 = Some (createError WEBRTC_FAILED None)).
Proof.
  intros tr2.
  apply (ice_restarts_are_bounded "a" "b" [ice_state_changed ice_connected]
           tr2).
  reflexivity.
Defined.










(** Once unmounted with its connection released, the hook stays so, shows
    what it showed and leaves the connection alone, whatever happens. *)
Lemma handle_after_unmount (ev : Event) (h : Hook) :
  mountedRef h = false -> pcRef h = None ->
  mountedRef (fst (handle ev h)) = false /\
  pcRef (fst (handle ev h)) = None /\
  rendered (fst (handle ev h)) = rendered h /\
  count_effect uses_connection (snd (handle ev h)) = 0.
Proof.
  destruct h as [me partner st err rs pc ch rsr ini pend att mnt sent rdy
                 ctr rtr ts nh fl].
  cbn [mountedRef pcRef]. intros -> ->.
  destruct ev as [s | s | t | from | sub snt | ok | | ]; cbn [handle].
  - cbn. auto.
  - cbn. auto.
  - unfold timer_fires. cbn [timers].
    destruct (find (fun t0 => fst t0 =? t) ts) as [[t0 kind]|]; [|cbn; auto].
    destruct kind; cbn; rewrite ?andb_false_r; cbn; auto.
  - unfold on_ready. cbn [partnerId].
    destruct (from =? partner)%string; [|cbn; auto].
    destruct ini, sent; cbn; auto.
  - unfold on_channel_status.
    destruct sub; [destruct snt; [destruct ini|]|]; cbn; auto.
  - unfold sendOffer_ends. cbn [offers_in_flight].
    destruct fl; cbn; auto.
  - destruct ctr, rtr, ch; cbn; auto.
  - destruct ctr, rtr, ch; cbn; auto.
Qed.

(** X21.  After the unmount the hook is inert: whatever timers fire (the
    offer retry is never cleared), whatever envelopes and channel reports
    still arrive and whichever suspended [sendOffer] resumes, the rendered
    status, error and remote stream stay what they were at the unmount, and
    the hook never again offers, restarts ICE or otherwise touches a peer
    connection. *)
Theorem unmounted_hook_is_inert :
  forall (h : Hook) (tr : list Event),
    rendered (fst (run tr (fst (unmount h)))) = rendered h /\
    count_effect uses_connection (snd (run tr (fst (unmount h)))) = 0.
Proof.
  intros h tr.
  assert (Hgen : forall tr h0,
            mountedRef h0 = false -> pcRef h0 = None ->
            rendered (fst (run tr h0)) = rendered h0 /\
            count_effect uses_connection (snd (run tr h0)) = 0).
  { clear. induction tr as [|ev tr IH]; intros h0 Hm Hp; cbn [run].
    - cbn. auto.
    - destruct (handle_after_unmount ev h0 Hm Hp) as [Hm1 [Hp1 [Hr1 Hc1]]].
      destruct (handle ev h0) as [h1 eff1]. cbn [fst snd] in *.
      destruct (IH h1 Hm1 Hp1) as [Hr2 Hc2].
      destruct (run tr h1) as [h2 eff2]. cbn [fst snd] in *.
      split; [congruence|]. now rewrite count_effect_app, Hc1, Hc2. }
  assert (Hu : mountedRef (fst (unmount h)) = false /\
               pcRef (fst (unmount h)) = None /\
               rendered (fst (unmount h)) = rendered h).
  { destruct h. cbn. auto. }
  destruct Hu as [Hm [Hp Hr]].
  destruct (Hgen tr _ Hm Hp) as [Hr2 Hc2].
  split; [congruence | assumption].
Qed.

End PeerHookProperties.

(** ** The matchmaking hook *)

Section MatchmakingHookProperties.
Import ErrorHandler.
Import MatchmakingHook.

Ltac search_cases :=
  repeat match goal with
    | |- context [match ?x with _ => _ end] =>
        match type of x with
        | bool => destruct x eqn:?
        | option _ => destruct x eqn:?
        | nat => destruct x eqn:?
        | Fetch => destruct x eqn:?
        | Matchmaking.Response => destruct x eqn:?
        | MatchmakingStatus => destruct x eqn:?
        | TimerKind => destruct x eqn:?
        | prod _ _ => is_var x; destruct x
        end
    end.

Ltac unfold_handlers :=
  unfold timer_fires, retry, retry_settles, disconnect, disconnect_settles,
    interval_fires;
  unfold interval_callback, retry_continues, disconnect_begins,
    disconnect_ends, findPartner_settles, checkMatch_settles,
    on_postgres_changes, handleVisibilityChange, unmount, clearError,
    findPartner, checkMatch;
  unfold handleMatchFound;
  unfold stopPolling, stopSubscription, safeSetState, data_partnerId.

Ltac short_search :=
  (split; [vm_compute; reflexivity|]);
  (split; [vm_compute; reflexivity|]);
  (split; [|cbn [List.length]; intros; lia]);
  intros _;
  (split; [vm_compute; reflexivity|]);
  (split; vm_compute; reflexivity).

Ltac hook_fields :=
  cbn [chatType state pollingRef subscriptionRef isSearchingRef retryCountRef
       mountedRef intervals channels next_handle posts_in_flight
       polls_in_flight disconnects_in_flight retries_in_flight
       auto_retries_pending restarts_pending with_state with_polling
       with_subscription with_isSearching with_retryCount with_mounted
       with_posts_in_flight with_polls_in_flight with_disconnects_in_flight
       with_retries_in_flight with_auto_retries_pending
       with_restarts_pending negb andb orb fst snd].

(** One event keeps the retry count within [MAX_RETRIES] and schedules
    automatic retries after 1, 2 or 4 seconds only. *)
Lemma handle_retryCount (ev : Event) (h : Hook) :
  retryCountRef h <= MAX_RETRIES ->
  retryCountRef (fst (handle ev h)) <= MAX_RETRIES /\
  Forall (fun ms => ms = 1000 \/ ms = 2000 \/ ms = 4000)
    (auto_retry_delays (snd (handle ev h))).
Proof.
  unfold MAX_RETRIES.
  destruct h as [c st pr sr srch rc mnt ivs chs nh pif gif dif rif arp rsp].
  cbn [retryCountRef]. intros Hle.
  assert (Hrc : rc = 0 \/ rc = 1 \/ rc = 2 \/ rc = 3) by lia.
  destruct ev as [ | f | kind | t | f | ch m | | of_retry | | | hidden | ];
    cbn [handle]; unfold_handlers; hook_fields; search_cases; hook_fields;
    unfold auto_retry_delays; rewrite ?flat_map_app; cbn [flat_map app];
    try (split; [lia | constructor]);
    try match goal with
      | H : (rc <? MAX_RETRIES) = true |- _ =>
          apply Nat.ltb_lt in H; unfold MAX_RETRIES in H
      end.
  all: destruct Hrc as [-> | [-> | [-> | ->]]]; try lia;
    (split; [lia | apply Forall_cons; [vm_compute; auto | apply Forall_nil]]).
Qed.

Lemma auto_retry_delays_app (e1 e2 : list Effect) :
  auto_retry_delays (e1 ++ e2) = auto_retry_delays e1 ++ auto_retry_delays e2.
Proof. unfold auto_retry_delays. apply flat_map_app. Qed.

Lemma run_retryCount (tr : list Event) :
  forall h : Hook,
    retryCountRef h <= MAX_RETRIES ->
    retryCountRef (fst (run tr h)) <= MAX_RETRIES /\
    Forall (fun ms => ms = 1000 \/ ms = 2000 \/ ms = 4000)
      (auto_retry_delays (snd (run tr h))).
Proof.
  induction tr as [|ev tr IH]; intros h Hle; cbn [run].
  - cbn. auto.
  - destruct (handle_retryCount ev h Hle) as [Hle1 Hd1].
    destruct (handle ev h) as [h1 eff1]. cbn [fst snd] in Hle1, Hd1.
    destruct (IH h1 Hle1) as [Hle2 Hd2].
    destruct (run tr h1) as [h2 eff2]. cbn [fst snd] in *.
    split; [assumption|].
    rewrite auto_retry_delays_app. apply Forall_app. auto.
Qed.

(** X22.  The automatic retry of [findPartner] is bounded: whatever the
    user does and however the requests, timers, polls and pushes fall, the
    hook never counts more than [MAX_RETRIES] retries, and every automatic
    retry it schedules comes after 1000, 2000 or 4000 ms. *)
Theorem auto_retry_is_bounded :
  forall (c : Matchmaking.ChatType) (userId : string) (tr : list Event),
    retryCountRef (fst (run tr (mount c userId))) <= MAX_RETRIES /\
    forall ms : nat,
      In ms (auto_retry_delays (snd (run tr (mount c userId)))) ->
      ms = 1000 \/ ms = 2000 \/ ms = 4000.
Proof.
  intros c userId tr.
  destruct (run_retryCount tr (mount c userId)) as [Hle Hd].
  - cbn. unfold MAX_RETRIES. lia.
  - split; [assumption|].
    intros ms Hin. rewrite Forall_forall in Hd. now apply Hd.
Qed.

Lemma search_run_app (tr1 tr2 : list Event) :
  forall h : Hook,
    run (tr1 ++ tr2) h =
    (fst (run tr2 (fst (run tr1 h))),
     snd (run tr1 h) ++ snd (run tr2 (fst (run tr1 h)))).
Proof.
  induction tr1 as [|ev tr1 IH]; intros h; cbn [app run].
  - cbn. now destruct (run tr2 h).
  - destruct (handle ev h) as [h1 eff1]. rewrite IH.
    destruct (run tr1 h1) as [h2 eff2]. cbn [fst snd].
    now rewrite app_assoc.
Qed.

(** Events that find nothing to resume leave the hook as it is. *)
Lemma nothing_left_to_retry (fs : list Fetch) (h : Hook) :
  posts_in_flight h = 0 -> auto_retries_pending h = 0 ->
  run (flat_map (fun f => [post_settles f; timer_fired auto_retry]) fs) h
  = (h, []).
Proof.
  intros Hp Ha. induction fs as [|f fs IH]; [reflexivity|].
  cbn [flat_map app run handle].
  unfold findPartner_settles, timer_fires. rewrite Hp, Ha, IH. reflexivity.
Qed.

Lemma failing_search_tail (f1 f2 f3 f4 : Fetch) (fs : list Fetch) :
  failing_search (f1 :: f2 :: f3 :: f4 :: fs) =
  failing_search [f1; f2; f3; f4]
    ++ flat_map (fun f => [post_settles f; timer_fired auto_retry]) fs.
Proof. reflexivity. Qed.

(** X23.  A search whose every request fails (the network is down, the
    request is aborted after its timeout, the route answers with an error
    status) is retried by itself three times, after 1000, 2000 and 4000 ms,
    the hook showing [searching] all the while; the fourth failure ends it:
    the hook shows [error] with [MATCHMAKING_FAILED], is no longer searching
    and schedules nothing more.  Four requests are sent in all. *)
Theorem persistent_failure_retries_three_times :
  forall (h : Hook) (fs : list Fetch),
    mountedRef h = true -> myId (state h) <> "" ->
    isSearchingRef h = false -> retryCountRef h = 0 ->
    posts_in_flight h = 0 -> auto_retries_pending h = 0 ->
    forallb fails fs = true ->
    let h' := fst (run (failing_search fs) h) in
    let effs := snd (run (failing_search fs) h) in
    auto_retry_delays effs =
      map (fun k => INITIAL_RETRY_DELAY * 2 ^ k)
          (seq 0 (Nat.min (List.length fs) MAX_RETRIES)) /\
    posts effs = S (Nat.min (List.length fs) MAX_RETRIES) /\
    (List.length fs <= MAX_RETRIES ->
     status (state h') = searching /\ error (state h') = None /\
     isSearchingRef h' = true) /\
    (MAX_RETRIES < List.length fs ->
     status (state h') = status_error /\
     error (state h') = Some (createError MATCHMAKING_FAILED None) /\
     isSearchingRef h' = false /\ retryCountRef h' = MAX_RETRIES /\
     auto_retries_pending h' = 0).
Proof.
  intros h fs Hm Hid Hs Hrc Hp Ha Hfs.
  destruct h as [c [st pid me err] pr sr srch rc mnt ivs chs nh pif gif dif
                 rif arp rsp].
  cbn [mountedRef state myId isSearchingRef retryCountRef posts_in_flight
       auto_retries_pending] in Hm, Hid, Hs, Hrc, Hp, Ha.
  subst mnt srch rc pif arp.
  destruct me as [|a me]; [congruence|]. clear Hid.
  unfold MAX_RETRIES.
  assert (Hfail : forall f, fails f = true ->
            f = rejects \/ exists d, f = resolves false d).
  { intros [|[|] d]; cbn; intros Hf; try discriminate; eauto. }
  assert (Hmin : forall n, Nat.min (S (S (S (S n)))) 3 = 3) by (intros; lia).
  destruct fs as [|f1 fs]; [short_search|].
  cbn [forallb] in Hfs. apply andb_prop in Hfs as [Hf1 Hfs].
  destruct (Hfail f1 Hf1) as [-> | [d1 ->]];
    (destruct fs as [|f2 fs]; [short_search|]);
    cbn [forallb] in Hfs; apply andb_prop in Hfs as [Hf2 Hfs];
    destruct (Hfail f2 Hf2) as [-> | [d2 ->]];
    (destruct fs as [|f3 fs]; [short_search|]);
    cbn [forallb] in Hfs; apply andb_prop in Hfs as [Hf3 Hfs];
    destruct (Hfail f3 Hf3) as [-> | [d3 ->]];
    (destruct fs as [|f4 fs]; [short_search|]);
    cbn [forallb] in Hfs; apply andb_prop in Hfs as [Hf4 Hfs];
    destruct (Hfail f4 Hf4) as [-> | [d4 ->]];
    cbn [List.length]; rewrite Hmin;
    rewrite failing_search_tail, search_run_app;
    match goal with
    | |- context [run (failing_search ?l) ?h0] =>
        assert (Hrun : run (failing_search l) h0 =
                  (mkHook c
                     (mkState status_error None (String a me)
                        (Some (createError MATCHMAKING_FAILED None)))
                     pr sr false 3 true ivs chs nh 0 gif dif rif 0 rsp,
                   [fetch_POST (String a me) c; setTimeout auto_retry 1000;
                    fetch_POST (String a me) c; setTimeout auto_retry 2000;
                    fetch_POST (String a me) c; setTimeout auto_retry 4000;
                    fetch_POST (String a me) c]))
          by (vm_compute; reflexivity);
        rewrite Hrun
    end;
    cbn [fst snd];
    rewrite nothing_left_to_retry by reflexivity;
    cbn [fst snd state status error isSearchingRef retryCountRef
         auto_retries_pending]; rewrite app_nil_r;
    (split; [vm_compute; reflexivity|]);
    (split; [vm_compute; reflexivity|]);
    (split; [intros; lia|]);
    intros _; repeat split.
Qed.

Lemma persistent_failure_retries_three_times_witness :
  let fs := [rejects; resolves false Matchmaking.error_400; rejects;
             rejects] in
  let h := mount Matchmaking.video "u1" in
  auto_retry_delays (snd (run (failing_search fs) h)) = [1000; 2000; 4000] /\
  posts (snd (run (failing_search fs) h)) = 4 /\
  status (state (fst (run (failing_search fs) h))) = status_error.
Proof.
  intros fs h.
  destruct (persistent_failure_retries_three_times h fs)
    as [Hd [Hp [_ Hend]]];
    try reflexivity; [discriminate|].
  split; [exact Hd|]. split; [exact Hp|].
  apply Hend. unfold MAX_RETRIES. cbn. lia.
Defined.

Lemma data_partnerId_nonempty (data : Matchmaking.Response) (p : string) :
  data_partnerId data = Some p -> p <> "".
Proof.
  destruct data as [ | q | | ]; cbn; try discriminate.
  destruct (q =? "")%string eqn:E; [discriminate|].
  intros [= <-]. now apply String.eqb_neq.
Qed.

(** A hook that shows [matched] names a partner and shows no error. *)
Lemma handle_matched (ev : Event) (h : Hook) :
  (status (state h) = matched ->
   (exists p, partnerId (state h) = Some p /\ p <> "") /\
   error (state h) = None) ->
  status (state (fst (handle ev h))) = matched ->
  (exists p, partnerId (state (fst (handle ev h))) = Some p /\ p <> "") /\
  error (state (fst (handle ev h))) = None.
Proof.
  destruct h as [c [st pid me err] pr sr srch rc mnt ivs chs nh pif gif dif
                 rif arp rsp].
  cbn [state status partnerId error]. intros Hinv.
  destruct ev as [ | f | kind | t | f | ch m | | of_retry | | | hidden | ];
    cbn [handle]; unfold_handlers; hook_fields; search_cases; hook_fields;
    unfold merge;
    cbn [state status partnerId error new_status new_partnerId new_error
         with_state with_polling with_subscription with_isSearching
         with_retryCount with_posts_in_flight with_polls_in_flight
         with_disconnects_in_flight with_retries_in_flight
         with_auto_retries_pending with_restarts_pending with_mounted];
    try discriminate; try exact Hinv;
    try (intros Hst; destruct (Hinv Hst) as [Hp _]; split;
         [exact Hp | reflexivity]).
  all: intros _; (split; [|reflexivity]); eexists; (split; [reflexivity|]);
    first [ eapply data_partnerId_nonempty; eassumption
          | apply String.eqb_neq; assumption ].
Qed.

(** X24.  Whatever the user does and whatever the route, the pushes and
    the timers deliver, a hook that shows [matched] names a partner with a
    non-empty id and shows no error. *)
Theorem matched_state_names_a_partner :
  forall (c : Matchmaking.ChatType) (userId : string) (tr : list Event),
    let h := fst (run tr (mount c userId)) in
    status (state h) = matched ->
    (exists p, partnerId (state h) = Some p /\ p <> "") /\
    error (state h) = None.
Proof.
  intros c userId tr.
  assert (Hgen : forall tr h0,
            (status (state h0) = matched ->
             (exists p, partnerId (state h0) = Some p /\ p <> "") /\
             error (state h0) = None) ->
            status (state (fst (run tr h0))) = matched ->
            (exists p, partnerId (state (fst (run tr h0))) = Some p /\
                       p <> "") /\
            error (state (fst (run tr h0))) = None).
  { clear. induction tr as [|ev tr IH]; intros h0 Hinv; cbn [run].
    - exact Hinv.
    - pose proof (handle_matched ev h0 Hinv) as H1.
      destruct (handle ev h0) as [h1 eff1]. cbn [fst] in H1.
      specialize (IH h1 H1).
      destruct (run tr h1) as [h2 eff2]. exact IH. }
  apply Hgen. cbn. discriminate.
Qed.

Lemma matched_state_names_a_partner_witness :
  let h :=
    fst (run [findPartner_called;
              post_settles
                (resolves true (Matchmaking.matched_false Matchmaking.searching));
              postgres_changes 1 (Some "u2")]
             (mount Matchmaking.text "u1")) in
  status (state h) = matched /\
  (exists p, partnerId (state h) = Some p /\ p <> "") /\
  error (state h) = None.
Proof.
  intros h. split; [reflexivity|].
  apply (matched_state_names_a_partner Matchmaking.text "u1"
           [findPartner_called;
            post_settles
              (resolves true (Matchmaking.matched_false Matchmaking.searching));
            postgres_changes 1 (Some "u2")]).
  reflexivity.
Defined.

(** An unmounted hook stays unmounted and keeps its state. *)
Lemma handle_when_unmounted (ev : Event) (h : Hook) :
  mountedRef h = false ->
  mountedRef (fst (handle ev h)) = false /\
  state (fst (handle ev h)) = state h.
Proof.
  destruct h as [c st pr sr srch rc mnt ivs chs nh pif gif dif rif arp rsp].
  cbn [mountedRef]. intros ->.
  destruct ev as [ | f | kind | t | f | ch m | | of_retry | | | hidden | ];
    cbn [handle]; unfold_handlers; hook_fields; search_cases; hook_fields;
    cbn [state mountedRef]; auto;
    match goal with
    | H : mountedRef _ = true |- _ => cbn in H; discriminate H
    end.
Qed.

(** X25.  After the unmount the hook never sets its state again: requests
    that settle late, timers, intervals and pushes that still fire, and calls
    made through stale closures, all leave status, partner and error as they
    were when the component went away. *)
Theorem unmounted_search_keeps_its_state :
  forall (h : Hook) (tr : list Event),
    state (fst (run tr (fst (unmount h)))) = state h /\
    mountedRef (fst (run tr (fst (unmount h)))) = false.
Proof.
  intros h tr.
  assert (Hgen : forall tr h0,
            mountedRef h0 = false ->
            state (fst (run tr h0)) = state h0 /\
            mountedRef (fst (run tr h0)) = false).
  { clear. induction tr as [|ev tr IH]; intros h0 Hm; cbn [run].
    - cbn. auto.
    - destruct (handle_when_unmounted ev h0 Hm) as [Hm1 Hs1].
      destruct (handle ev h0) as [h1 eff1]. cbn [fst] in Hm1, Hs1.
      destruct (IH h1 Hm1) as [Hs2 Hm2].
      destruct (run tr h1) as [h2 eff2]. cbn [fst] in *.
      split; [congruence | assumption]. }
  assert (Hu : mountedRef (fst (unmount h)) = false /\
               state (fst (unmount h)) = state h).
  { destruct h as [c st pr sr srch rc mnt ivs chs nh pif gif dif rif arp
                   rsp].
    unfold unmount, stopPolling, stopSubscription. hook_fields.
    destruct pr, sr; cbn; auto. }
  destruct Hu as [Hm Hs].
  destruct (Hgen tr _ Hm) as [Hs2 Hm2].
  split; [congruence | assumption].
Qed.

End MatchmakingHookProperties.

(** ** The hook and the route together *)

Section EndToEndProperties.
Import Matchmaking.
Import MatchmakingHook.
Import EndToEnd.









End EndToEndProperties.
